(** * A shallow embedding of the jianpu-to-MIDI compiler (midi_parser)

    Python values are modelled as follows: [str] as Rocq [string] (the
    tokens of the notation are ASCII), Python [int] as [Z], Python
    [float] beat counts as exact rationals [Q] (every beat value the
    grammar can produce is dyadic, so the float operations involved are
    exact), [dict] as an association list, and exceptions through the
    small error monad [Res] below.  The MIDI messages handed to mido are
    plain records appended to a track (a list); mido's own argument range
    checks and file writing are outside the model. *)

From Stdlib Require Import ZArith QArith Qround String Ascii List Bool Lia Sorted.
Import ListNotations.
Open Scope string_scope.

(** ** Python exceptions and the error monad *)

Inductive pyexc :=
| ValueError
| TypeError
| KeyError
| IndexError
| ZeroDivisionError
| OutOfFuel.

Inductive Res (A : Type) :=
| ROk : A -> Res A
| RErr : pyexc -> Res A.
Arguments ROk {A} _.
Arguments RErr {A} _.

Definition bind {A B} (r : Res A) (k : A -> Res B) : Res B :=
  match r with
  | ROk a => k a
  | RErr e => RErr e
  end.

Notation "x <- c ;; k" := (bind c (fun x => k))
  (at level 61, c at next level, right associativity).

Definition is_err {A} (r : Res A) : bool :=
  match r with RErr _ => true | ROk _ => false end.

(** ** Python string helpers (ASCII) *)

Module Py.

(** [str.isspace] on one ASCII character: space, \t \n \v \f \r and
    the separators \x1c .. \x1f. *)
Definition is_space (c : ascii) : bool :=
  let n := nat_of_ascii c in
  (n =? 32)%nat || ((9 <=? n)%nat && (n <=? 13)%nat)
  || ((28 <=? n)%nat && (n <=? 31)%nat).

(** Line boundaries of [str.splitlines] in the ASCII range:
    \n \v \f \r \x1c \x1d \x1e (and \r\n as one boundary). *)
Definition is_line_break (c : ascii) : bool :=
  let n := nat_of_ascii c in
  ((10 <=? n)%nat && (n <=? 13)%nat) || ((28 <=? n)%nat && (n <=? 30)%nat).

Definition upper_char (c : ascii) : ascii :=
  let n := nat_of_ascii c in
  if (97 <=? n)%nat && (n <=? 122)%nat then ascii_of_nat (n - 32) else c.

Definition lower_char (c : ascii) : ascii :=
  let n := nat_of_ascii c in
  if (65 <=? n)%nat && (n <=? 90)%nat then ascii_of_nat (n + 32) else c.

Fixpoint upper (s : string) : string :=
  match s with
  | EmptyString => EmptyString
  | String c s' => String (upper_char c) (upper s')
  end.

Fixpoint lower (s : string) : string :=
  match s with
  | EmptyString => EmptyString
  | String c s' => String (lower_char c) (lower s')
  end.

Fixpoint lstrip (s : string) : string :=
  match s with
  | EmptyString => EmptyString
  | String c s' => if is_space c then lstrip s' else s
  end.

Fixpoint rev_str (s acc : string) : string :=
  match s with
  | EmptyString => acc
  | String c s' => rev_str s' (String c acc)
  end.

Fixpoint rstrip (s : string) : string :=
  match s with
  | EmptyString => EmptyString
  | String c s' =>
      let r := rstrip s' in
      if is_space c && String.eqb r EmptyString then EmptyString else String c r
  end.

Definition strip (s : string) : string := rstrip (lstrip s).

Definition startswith (s : string) (c : ascii) : bool :=
  match s with
  | String c' _ => Ascii.eqb c c'
  | EmptyString => false
  end.

(** [str.split()] without arguments: maximal runs of non-space
    characters. [cur] is the token being read, reversed. *)
Fixpoint split_aux (s : string) (cur : string) : list string :=
  match s with
  | EmptyString =>
      match cur with EmptyString => [] | _ => [rev_str cur EmptyString] end
  | String c s' =>
      if is_space c then
        match cur with
        | EmptyString => split_aux s' EmptyString
        | _ => rev_str cur EmptyString :: split_aux s' EmptyString
        end
      else split_aux s' (String c cur)
  end.

Definition split (s : string) : list string := split_aux s EmptyString.

(** [str.splitlines()]: a trailing line break does not start a new line. *)
Fixpoint splitlines_aux (s : string) (cur : string) : list string :=
  match s with
  | EmptyString =>
      match cur with EmptyString => [] | _ => [rev_str cur EmptyString] end
  | String c s' =>
      if is_line_break c then
        let rest :=
          if (nat_of_ascii c =? 13)%nat then
            match s' with
            | String c2 s'' => if (nat_of_ascii c2 =? 10)%nat then s'' else s'
            | EmptyString => s'
            end
          else s' in
        rev_str cur EmptyString :: splitlines_aux rest EmptyString
      else splitlines_aux s' (String c cur)
  end.

Definition splitlines (s : string) : list string := splitlines_aux s EmptyString.

(** [s.split(sep)] for a one-character separator. *)
Fixpoint split_sep (s : string) (sep : ascii) : list string :=
  match s with
  | EmptyString => [EmptyString]
  | String c s' =>
      match split_sep s' sep with
      | x :: rest => if Ascii.eqb c sep then EmptyString :: x :: rest
                     else String c x :: rest
      | [] => [String c EmptyString]
      end
  end.

(** [s.split(sep, 1)] for a one-character separator. *)
Fixpoint split_once (s : string) (sep : ascii) : list string :=
  match s with
  | EmptyString => [EmptyString]
  | String c s' =>
      if Ascii.eqb c sep then [EmptyString; s']
      else match split_once s' sep with
           | x :: rest => String c x :: rest
           | [] => [String c EmptyString]
           end
  end.

(** [sub in s] for substrings. *)
Fixpoint prefix_of (p s : string) : bool :=
  match p, s with
  | EmptyString, _ => true
  | String a p', String b s' => Ascii.eqb a b && prefix_of p' s'
  | String _ _, EmptyString => false
  end.

Fixpoint contains (p s : string) : bool :=
  prefix_of p s ||
  match s with
  | EmptyString => false
  | String _ s' => contains p s'
  end.

(** [lst[i]] with Python's negative indices. *)
Definition index {A} (l : list A) (i : Z) : Res A :=
  let n := Z.of_nat (length l) in
  let j := if (i <? 0)%Z then (i + n)%Z else i in
  if ((j <? 0) || (n <=? j))%Z then RErr IndexError
  else match nth_error l (Z.to_nat j) with
       | Some a => ROk a
       | None => RErr IndexError
       end.

(** [int(x)] on a float: truncation toward zero. *)
Definition int_of_q (q : Q) : Z :=
  if Qle_bool 0 q then Qfloor q else (- Qfloor (- q))%Z.

Definition digit (c : ascii) : option Z :=
  let n := nat_of_ascii c in
  if (48 <=? n)%nat && (n <=? 57)%nat then Some (Z.of_nat (n - 48)) else None.

Fixpoint digits_value (s : string) (acc : Z) : option Z :=
  match s with
  | EmptyString => Some acc
  | String c s' =>
      match digit c with
      | Some d => digits_value s' (10 * acc + d)%Z
      | None => None
      end
  end.

(** [int(s)] on a string: surrounding spaces, an optional sign and
    decimal digits. *)
Definition int_of_string (s : string) : Res Z :=
  match strip s with
  | EmptyString => RErr ValueError
  | String c s' as t =>
      let '(sign, body) :=
        if Ascii.eqb c "-"%char then ((-1)%Z, s')
        else if Ascii.eqb c "+"%char then (1%Z, s') else (1%Z, t) in
      match body with
      | EmptyString => RErr ValueError
      | _ => match digits_value body 0 with
             | Some v => ROk (sign * v)%Z
             | None => RErr ValueError
             end
      end
  end.

(** [float(s)] on a string: an optional sign, digits and at most one
    decimal point with a digit somewhere.  Enough to decide that a
    string such as "/4" is rejected. *)
Fixpoint float_body (s : string) (seen_dot seen_digit : bool) (num den : Z)
  : option Q :=
  match s with
  | EmptyString => if seen_digit then Some (num # Z.to_pos den) else None
  | String c s' =>
      match digit c with
      | Some d =>
          float_body s' seen_dot true (10 * num + d)%Z
            (if seen_dot then 10 * den else den)%Z
      | None =>
          if Ascii.eqb c "."%char && negb seen_dot
          then float_body s' true seen_digit num den
          else None
      end
  end.

Definition float_of_string (s : string) : Res Q :=
  match strip s with
  | EmptyString => RErr ValueError
  | String c s' as t =>
      let '(neg, body) :=
        if Ascii.eqb c "-"%char then (true, s')
        else if Ascii.eqb c "+"%char then (false, s') else (false, t) in
      match float_body body false false 0 1 with
      | Some q => ROk (if neg then Qopp q else q)
      | None => RErr ValueError
      end
  end.

End Py.

(** ** constants.py

    Modelled from the spec: the module [constants] (TICKS_PER_BEAT,
    DUR2BEAT, MAJOR_INTERVALS, NOTE2MIDI, CHORD_CH, CHORD_VELOCITY) is
    imported by every source file but is not part of the sources.  The
    values follow the spec: 480 ticks per quarter beat; durations
    w,h,q,e,s,t = 4, 2, 1, 1/2, 1/4, 1/8; major-scale semitones
    [0,2,4,5,7,9,11]; note names with an optional accidental mapped to
    the melody register, with C = 60 (middle C, and the C chord
    [48,52,55]) and A = 57 (the Am chord [45,48,52]).  The spec fixes
    no channel or velocity for the chord track; the values below are
    placeholders that no statement depends on. *)
Module Constants.

Definition TICKS_PER_BEAT : Z := 480.

Definition DUR2BEAT : list (string * Q) :=
  [("w", 4#1); ("h", 2#1); ("q", 1#1); ("e", 1#2); ("s", 1#4); ("t", 1#8)]%Q.

Definition MAJOR_INTERVALS : list Z := [0; 2; 4; 5; 7; 9; 11]%Z.

(** [constants.NOTE2MIDI]; the module is not part of the sources.  The
    spec fixes C = 60 and A = 57; the other entries are the semitone
    steps between them. *)
Definition NOTE2MIDI : list (string * Z) :=
  [("A", 57); ("A#", 58); ("Bb", 58); ("B", 59);
   ("C", 60); ("C#", 61); ("Db", 61); ("D", 62); ("D#", 63); ("Eb", 63);
   ("E", 64); ("F", 65); ("F#", 66); ("Gb", 66); ("G", 67); ("G#", 68);
   ("Ab", 68)]%Z.

Definition CHORD_CH : Z := 1.
Definition CHORD_VELOCITY : Z := 64.

End Constants.
Import Constants.

(** Python dict lookups on association lists. *)
Fixpoint lookup {V} (m : list (string * V)) (k : string) : option V :=
  match m with
  | [] => None
  | (k', v) :: m' => if String.eqb k k' then Some v else lookup m' k
  end.

(** [d[k]] *)
Definition getitem {V} (m : list (string * V)) (k : string) : Res V :=
  match lookup m k with Some v => ROk v | None => RErr KeyError end.

(** [d[k] = v]: overwrite in place, or append. *)
Fixpoint setitem {V} (m : list (string * V)) (k : string) (v : V)
  : list (string * V) :=
  match m with
  | [] => [(k, v)]
  | (k', v') :: m' =>
      if String.eqb k k' then (k, v) :: m' else (k', v') :: setitem m' k v
  end.

(** ** utils.py *)

(** [_beats(dur, dots, unit)] *)
Definition _beats (dur dots : string) (unit : Q) : Res Q :=
  b <- (match dur with
        | EmptyString => ROk unit
        | String c _ =>
            if Ascii.eqb c "/"%char
            then f <- Py.float_of_string dur ;; ROk (unit * f)%Q
            else d <- getitem DUR2BEAT dur ;; ROk (d * unit)%Q
        end) ;;
  match dots with
  | EmptyString => ROk b
  | _ => ROk (if String.eqb dots "." then b * (3#2) else b * (7#4))%Q
  end.

(** [_norm_key(name)] *)
Definition _norm_key (name : string) : Res string :=
  let name := Py.strip name in
  match name with
  | String c EmptyString => ROk (Py.upper name)
  | String c (String c2 EmptyString) =>
      if Ascii.eqb c2 "#"%char || Ascii.eqb c2 "b"%char
      then ROk (String (Py.upper_char c) (String c2 EmptyString))
      else RErr ValueError
  | _ => RErr ValueError
  end.

(** [_degree2midi(deg, acc, oct_shift, key_root)] *)
Definition _degree2midi (deg : Z) (acc : string) (oct_shift : Z)
  (key_root : string) : Res Z :=
  root <- getitem NOTE2MIDI key_root ;;
  iv <- Py.index MAJOR_INTERVALS (deg - 1) ;;
  let semitone :=
    (iv + (if String.eqb acc "#" then 1 else if String.eqb acc "b" then -1 else 0))%Z in
  ROk (root + semitone + 12 * oct_shift)%Z.

(** ** parse_chord.py *)

(** The interval table of [_parse_chord], in the order of its
    [if]/[elif] chain; "°" and "ø" are written as their UTF-8 bytes. *)
Definition chord_qualities : list (list string * list Z) :=
  [(["m"], [0; 3; 7]);
   (["aug"; "+"], [0; 4; 8]);
   (["dim"; "o"; "°"], [0; 3; 6]);
   (["sus4"], [0; 5; 7]);
   (["sus2"], [0; 2; 7]);
   (["7"], [0; 4; 7; 10]);
   (["m7"; "min7"], [0; 3; 7; 10]);
   (["maj7"; "M7"], [0; 4; 7; 11]);
   (["m7b5"; "ø"], [0; 3; 6; 10]);
   (["dim7"; "o7"; "°7"], [0; 3; 6; 9]);
   (["6"], [0; 4; 7; 9]);
   (["m6"], [0; 3; 7; 9]);
   (["9"; "7(9)"], [0; 4; 7; 10; 14])]%Z.

Fixpoint select_intervals (tbl : list (list string * list Z)) (qual : string)
  : list Z :=
  match tbl with
  | [] => [0; 4; 7]%Z
  | (names, ivs) :: tbl' =>
      if existsb (String.eqb qual) names then ivs else select_intervals tbl' qual
  end.

(** [_parse_chord(sym)] *)
Definition _parse_chord (sym : string) : Res (list Z) :=
  if String.eqb (Py.upper sym) "O" then ROk []
  else
    let sym := Py.strip sym in
    match sym with
    | EmptyString => RErr IndexError
    | String c0 rest =>
        let '(root, qual_raw) :=
          match rest with
          | String c1 rest' =>
              if Ascii.eqb c1 "#"%char || Ascii.eqb c1 "b"%char
              then (String (Py.upper_char c0) (String c1 EmptyString), rest')
              else (String (Py.upper_char c0) EmptyString, rest)
          | EmptyString => (String (Py.upper_char c0) EmptyString, rest)
          end in
        let qual := Py.lower qual_raw in
        r <- (match lookup NOTE2MIDI root with
              | Some r => ROk r
              | None => RErr ValueError
              end) ;;
        let root_pitch := (r - 12)%Z in
        let intervals := select_intervals chord_qualities qual in
        ROk (map (fun iv => root_pitch + iv)%Z intervals)
    end.

(** [Chord.__getitem__(item)]: the [while item >= len(self.notes)] loop,
    run for at most [fuel] iterations. *)
Fixpoint chord_getitem_loop (fuel : nat) (notes : list Z) (item octave : Z)
  : Res Z :=
  if (item >=? Z.of_nat (length notes))%Z then
    match fuel with
    | O => RErr OutOfFuel
    | S fuel' =>
        chord_getitem_loop fuel' notes (item - Z.of_nat (length notes)) (octave + 1)
    end
  else
    n <- Py.index notes item ;;
    ROk (n + octave * 12)%Z.

(** The loop subtracts a positive length at each turn, so [item + 1]
    iterations always suffice when the chord is not empty. *)
Definition chord_getitem (notes : list Z) (item : Z) : Res Z :=
  chord_getitem_loop (S (Z.to_nat item)) notes item 0.

(** ** reutils.py: the three token regular expressions

    Each pattern is anchored at the start ([re.match]) and at the end
    ([$]); no group of [_NOTE_RE] or [_REST_RE] can give characters back
    to a later group, so a left-to-right scan decides them. *)
Module Re.

Definition in_chars (cs : string) (c : ascii) : bool :=
  existsb (Ascii.eqb c) (list_ascii_of_string cs).

Fixpoint span (p : ascii -> bool) (s : string) : string * string :=
  match s with
  | String c s' =>
      if p c then let '(a, b) := span p s' in (String c a, b) else (EmptyString, s)
  | EmptyString => (EmptyString, EmptyString)
  end.

Definition is_digit (c : ascii) : bool :=
  match Py.digit c with Some _ => true | None => false end.

(** [(?P<dur>[whqest]|/\d+)?] *)
Definition dur_group (s : string) : string * string :=
  match s with
  | String c s' =>
      if in_chars "whqest" c then (String c EmptyString, s')
      else if Ascii.eqb c "/"%char then
        match span is_digit s' with
        | (EmptyString, _) => (EmptyString, s)
        | (ds, rest) => (String c ds, rest)
        end
      else (EmptyString, s)
  | EmptyString => (EmptyString, EmptyString)
  end.

Record note_groups := {
  g_deg : Z; g_acc : string; g_oct : string;
  g_dur : string; g_dots : string; g_tie : string }.

(** [_NOTE_RE.match(tok)]; a missing [dur] group is returned as "",
    as every use site reads it through [m.group('dur') or '']. *)
Definition note_match (s : string) : option note_groups :=
  match s with
  | String c s1 =>
      match Py.digit c with
      | Some d =>
          if ((1 <=? d) && (d <=? 7))%Z then
            let '(acc, s2) :=
              match s1 with
              | String a s1' => if in_chars "#b" a then (String a EmptyString, s1')
                                else (EmptyString, s1)
              | EmptyString => (EmptyString, EmptyString)
              end in
            let '(oct, s3) := span (in_chars "',") s2 in
            let '(dur, s4) := dur_group s3 in
            let '(dots, s5) := span (Ascii.eqb "."%char) s4 in
            let '(tie, s6) :=
              match s5 with
              | String t s5' => if Ascii.eqb t "^"%char then (String t EmptyString, s5')
                                else (EmptyString, s5)
              | EmptyString => (EmptyString, EmptyString)
              end in
            match s6 with
            | EmptyString =>
                Some {| g_deg := d; g_acc := acc; g_oct := oct;
                        g_dur := dur; g_dots := dots; g_tie := tie |}
            | _ => None
            end
          else None
      | None => None
      end
  | EmptyString => None
  end.

(** [_REST_RE.match(tok)]: the [dur] and [dots] groups. *)
Definition rest_match (s : string) : option (string * string) :=
  match s with
  | String c s1 =>
      if in_chars "R0" c then
        let '(dur, s2) := dur_group s1 in
        let '(dots, s3) := span (Ascii.eqb "."%char) s2 in
        match s3 with
        | EmptyString => Some (dur, dots)
        | _ => None
        end
      else None
  | EmptyString => None
  end.

(** [bool(_CHORD_RE.match(tok))] for [^[A-Ga-g][#b]?[^/]*$|^O$]. *)
Definition chord_match (s : string) : bool :=
  match s with
  | String c s1 =>
      (in_chars "ABCDEFGabcdefg" c && negb (in_chars s1 "/"%char))
      || String.eqb s "O"
  | EmptyString => false
  end.

End Re.

(** A token the compiler treats as a chord symbol. *)
Definition is_chord_token (tok : string) : bool :=
  Re.chord_match tok && negb (match Re.note_match tok with Some _ => true | None => false end).

(** ** chord_patterns.py *)

Inductive msgkind := NoteOn | NoteOff.

(** The entries appended to a [mido.MidiTrack]. *)
Inductive event :=
| Msg (kind : msgkind) (channel note velocity time : Z)
| Meta (name : string) (time : Z)
| Program (channel program : Z).

(** A stroke of [AdvancedGuitarPattern]: (direction, type, velocity
    adjustment). *)
Definition stroke : Type := (string * string * Z)%type.

Inductive ChordPattern :=
| BlockChordPattern (velocity : Z)
| ArpeggioChordPattern (velocity : Z)
| GuitarStrumsPattern (velocity : Z) (strum_duration : Q)
| RhythmicArpeggioPattern (velocity : Z) (time_signature : Z * Z)
| AdvancedGuitarPattern (velocity : Z) (strum_duration : Q)
    (time_signature : Z * Z) (pattern : list stroke).

(** [sorted(xs)] on integers. *)
Fixpoint insert_sorted (x : Z) (l : list Z) : list Z :=
  match l with
  | [] => [x]
  | y :: l' => if (x <=? y)%Z then x :: l else y :: insert_sorted x l'
  end.

Definition sorted (l : list Z) : list Z := fold_right insert_sorted [] l.

(** [xs[:k]] *)
Definition slice_to {A} (k : Z) (l : list A) : list A :=
  let n := Z.of_nat (length l) in
  if (0 <=? k)%Z then firstn (Z.to_nat k) l else firstn (Z.to_nat (n + k)) l.

(** [xs[-k:]] for [k >= 1] *)
Definition slice_last {A} (k : Z) (l : list A) : list A :=
  let n := Z.of_nat (length l) in
  skipn (Z.to_nat (n - k)) l.

(** [xs * k] *)
Fixpoint repeat_list {A} (l : list A) (k : nat) : list A :=
  match k with O => [] | S k' => (l ++ repeat_list l k')%list end.

Definition list_mul {A} (l : list A) (k : Z) : list A := repeat_list l (Z.to_nat k).

Definition chord_on (note vel time : Z) : event := Msg NoteOn CHORD_CH note vel time.
Definition chord_off (note time : Z) : event := Msg NoteOff CHORD_CH note 0 time.

(** Events of one note list sharing one delta: the first note gets
    [t], the others 0. *)
Definition ons_first (notes : list Z) (vel t : Z) : list event :=
  match notes with
  | [] => []
  | n :: ns => chord_on n vel t :: map (fun n' => chord_on n' vel 0) ns
  end.

Definition offs_first (notes : list Z) (t : Z) : list event :=
  match notes with
  | [] => []
  | n :: ns => chord_off n t :: map (fun n' => chord_off n' 0) ns
  end.

(** [BlockChordPattern.generate_events] *)
Definition block_events (velocity : Z) (chord_notes : list Z)
  (start_tick duration_ticks last_tick : Z) : list event * Z :=
  match chord_notes with
  | [] => ([], last_tick)
  | _ =>
      let dt := Z.max 0 (start_tick - last_tick) in
      let duration_ticks := Z.max 1 duration_ticks in
      ((ons_first chord_notes velocity dt ++ offs_first chord_notes duration_ticks)%list,
       start_tick + duration_ticks)%Z
  end.

(** [ArpeggioChordPattern.generate_events]: the loop keeps the delta of
    the next onset and the running tick. *)
Fixpoint arpeggio_loop (velocity : Z) (notes : list Z) (current_time single : Z)
  (current_tick : Z) : list event * Z :=
  match notes with
  | [] => ([], current_tick)
  | n :: ns =>
      let '(evs, t) := arpeggio_loop velocity ns 0 single (current_tick + single) in
      (chord_on n velocity current_time :: chord_off n single :: evs, t)
  end.

Definition arpeggio_events (velocity : Z) (chord_notes : list Z)
  (start_tick duration_ticks last_tick : Z) : list event * Z :=
  match chord_notes with
  | [] => ([], last_tick)
  | _ =>
      let dt := Z.max 0 (start_tick - last_tick) in
      let duration_ticks := Z.max 1 duration_ticks in
      let note_count := Z.of_nat (length chord_notes) in
      let single_note_duration := (duration_ticks / note_count)%Z in
      arpeggio_loop velocity chord_notes dt single_note_duration start_tick
  end.

(** [GuitarStrumsPattern.generate_events] *)
Definition guitar_strum_events (velocity : Z) (strum_duration : Q)
  (chord_notes : list Z) (start_tick duration_ticks last_tick : Z)
  : list event * Z :=
  match chord_notes with
  | [] => ([], last_tick)
  | _ =>
      let dt := Z.max 0 (start_tick - last_tick) in
      let duration_ticks := Z.max 1 duration_ticks in
      let sorted_notes := sorted chord_notes in
      let note_count := Z.of_nat (length sorted_notes) in
      let strum_ticks := Py.int_of_q (strum_duration * inject_Z TICKS_PER_BEAT) in
      let total_strum_ticks :=
        if (note_count >? 1)%Z then (strum_ticks * (note_count - 1))%Z else 0%Z in
      let note_duration := Z.max 1 (duration_ticks - total_strum_ticks) in
      let ons :=
        match sorted_notes with
        | [] => []
        | n :: ns => chord_on n velocity dt
                     :: map (fun n' => chord_on n' velocity strum_ticks) ns
        end in
      ((ons ++ offs_first sorted_notes note_duration)%list, start_tick + duration_ticks)%Z
  end.

(** [RhythmicArpeggioPattern.generate_events]: the index pattern.  The
    chord it receives from [build_midi] is a [Chord], so [chord_notes[idx]]
    is [Chord.__getitem__]. *)
Definition rhythmic_pattern_idx (num den : Z) (len : nat) : list Z :=
  let pattern_idx :=
    match len with
    | 3%nat =>
        if ((num =? 4) && (den =? 4))%Z then [0; 1; 2; 1; 2; 1; 2; 3]
        else if ((num =? 3) && (den =? 4))%Z then [0; 1; 2; 0; 1; 2]
        else if ((num =? 6) && (den =? 8))%Z then [0; 2; 1; 0; 2; 1]
        else if ((num =? 2) && (den =? 4))%Z then [0; 1; 0; 2]
        else list_mul [0; 1; 2] (num * 2 / 3)
    | 4%nat =>
        if ((num =? 4) && (den =? 4))%Z then [0; 1; 2; 3; 0; 1; 2; 3]
        else if ((num =? 3) && (den =? 4))%Z then [0; 1; 2; 0; 3; 2]
        else if ((num =? 6) && (den =? 8))%Z then [0; 3; 1; 0; 2; 3]
        else if ((num =? 2) && (den =? 4))%Z then [0; 3; 1; 2]
        else list_mul [0; 1; 2; 3] (num / 2)
    | _ =>
        let base := map Z.of_nat (seq 0 len) in
        slice_to (num * 2) (list_mul base (num * 2 / Z.max 1 (Z.of_nat len)))
    end%Z in
  match pattern_idx with [] => [0%Z] | _ => pattern_idx end.

Fixpoint rhythmic_loop (velocity : Z) (chord_notes : list Z) (pat : list Z)
  (current_time pattern_unit_ticks remaining_ticks current_tick : Z)
  : Res (list event * Z) :=
  match pat with
  | [] => ROk ([], current_tick)
  | idx :: rest =>
      note <- chord_getitem chord_notes idx ;;
      let d := match rest with [] => remaining_ticks | _ => pattern_unit_ticks end in
      r <- rhythmic_loop velocity chord_notes rest 0 pattern_unit_ticks
             remaining_ticks (current_tick + d) ;;
      ROk (chord_on note velocity current_time :: chord_off note d :: fst r, snd r)
  end.

Definition rhythmic_events (velocity : Z) (ts : Z * Z) (chord_notes : list Z)
  (start_tick duration_ticks last_tick : Z) : Res (list event * Z) :=
  match chord_notes with
  | [] => ROk ([], last_tick)
  | _ =>
      let dt := Z.max 0 (start_tick - last_tick) in
      let duration_ticks := Z.max 1 duration_ticks in
      let '(num, den) := ts in
      let pattern_idx := rhythmic_pattern_idx num den (length chord_notes) in
      let total_notes := Z.of_nat (length pattern_idx) in
      let pattern_unit_ticks := (duration_ticks / total_notes)%Z in
      let remaining := Z.max 1 (duration_ticks - (total_notes - 1) * pattern_unit_ticks) in
      rhythmic_loop velocity chord_notes pattern_idx dt pattern_unit_ticks remaining
        start_tick
  end.

(** [AdvancedGuitarPattern.RHYTHM_PATTERNS] *)
Definition RHYTHM_PATTERNS : list ((Z * Z) * list (string * list stroke)) :=
  [((4, 4),
    [("basic", [("d", "f", 0); ("u", "f", -10); ("d", "f", 0); ("u", "f", -10);
                ("d", "f", 0); ("u", "f", -10); ("d", "f", 0); ("u", "f", -10)]);
     ("folk", [("d", "f", 0); ("u", "h", -10); ("d", "f", -5); ("u", "f", -10);
               ("d", "f", 0); ("u", "h", -10); ("d", "f", -5); ("u", "f", -10)]);
     ("rock", [("d", "f", 5); ("u", "h", -5); ("d", "f", 0); ("d", "b", -5);
               ("u", "f", -10); ("d", "f", 0); ("m", "f", -15); ("u", "h", -10)]);
     ("ballad", [("d", "f", 0); ("-", "f", 0); ("u", "h", -15); ("-", "f", 0);
                 ("d", "b", -5); ("-", "f", 0); ("u", "h", -15); ("-", "f", 0)]);
     ("country", [("d", "b", 0); ("u", "h", -10); ("d", "f", -5); ("u", "f", -10);
                  ("d", "b", 0); ("u", "h", -10); ("d", "f", -5); ("u", "f", -10)])]);
   ((3, 4),
    [("basic", [("d", "f", 0); ("u", "f", -10); ("u", "h", -5);
                ("d", "f", 0); ("u", "f", -10); ("u", "h", -5)]);
     ("waltz", [("d", "f", 5); ("u", "h", -15); ("u", "h", -10);
                ("d", "f", 5); ("u", "h", -15); ("u", "h", -10)]);
     ("folk", [("d", "f", 0); ("u", "h", -10); ("d", "b", -5);
               ("d", "f", 0); ("u", "h", -10); ("d", "b", -5)])]);
   ((6, 8),
    [("basic", [("d", "f", 0); ("u", "h", -10); ("d", "b", -5);
                ("u", "f", -5); ("d", "h", -10); ("u", "f", -5)]);
     ("folk", [("d", "f", 0); ("u", "h", -5); ("u", "h", -10);
               ("d", "b", 0); ("u", "h", -5); ("u", "h", -10)]);
     ("irish", [("d", "f", 5); ("u", "h", -5); ("d", "b", 0);
                ("u", "f", 0); ("d", "h", -5); ("u", "f", -10)])]);
   ((2, 4),
    [("basic", [("d", "f", 0); ("u", "f", -10); ("d", "f", 0); ("u", "f", -10)]);
     ("march", [("d", "f", 5); ("u", "h", -10); ("d", "b", 0); ("u", "h", -10)])])]%Z.

Fixpoint lookup_ts {V} (m : list ((Z * Z) * V)) (k : Z * Z) : option V :=
  match m with
  | [] => None
  | (k', v) :: m' =>
      if ((fst k =? fst k') && (snd k =? snd k'))%Z then Some v else lookup_ts m' k
  end.

(** [AdvancedGuitarPattern.__init__] without a custom pattern. *)
Definition adv_guitar_init (velocity : Z) (strum_duration : Q) (ts : Z * Z)
  (rhythm_style : string) : Res ChordPattern :=
  let '(num, den) := ts in
  pat <-
    match lookup_ts RHYTHM_PATTERNS ts with
    | Some styles =>
        match lookup styles rhythm_style with
        | Some p => ROk p
        | None => getitem styles "basic"
        end
    | None =>
        basic44 <- (styles <- match lookup_ts RHYTHM_PATTERNS (4, 4)%Z with
                              | Some st => ROk st | None => RErr KeyError end ;;
                    getitem styles "basic") ;;
        let pattern_len := Z.of_nat (length basic44) in
        let target_len := (num * 2)%Z in
        if (pattern_len >? target_len)%Z then ROk (slice_to target_len basic44)
        else if (pattern_len <? target_len)%Z then
          let repeats := (target_len / pattern_len
                          + (if (target_len mod pattern_len >? 0)%Z then 1 else 0))%Z in
          ROk (slice_to target_len (list_mul basic44 repeats))
        else ROk basic44
    end ;;
  ROk (AdvancedGuitarPattern velocity strum_duration ts pat).

(** The note selections of [AdvancedGuitarPattern], applied to the
    already sorted notes; an unknown type keeps all of them. *)
Definition select_notes (strum_type : string) (sorted_notes : list Z) : list Z :=
  let n := Z.of_nat (length sorted_notes) in
  if String.eqb strum_type "b" then
    match sorted_notes with [] => [] | _ => firstn (Z.to_nat (Z.min 2 n)) sorted_notes end
  else if String.eqb strum_type "h" then
    match sorted_notes with [] => [] | _ => slice_last (Z.min 3 n) sorted_notes end
  else if String.eqb strum_type "r" then
    match sorted_notes with [] => [] | x :: xs => [fold_left Z.min xs x] end
  else if String.eqb strum_type "c" then
    if (n <=? 1)%Z then [] else skipn 1 (sorted sorted_notes)
  else sorted_notes.

(** The onsets of one stroke: the first note waits [dt_head], the others
    [strum_time]; also returns the ticks they use. *)
Definition stroke_ons (notes : list Z) (vel dt_head strum_time : Z) : list event * Z :=
  match notes with
  | [] => ([], 0%Z)
  | n :: ns =>
      (chord_on n vel dt_head :: map (fun n' => chord_on n' vel strum_time) ns,
       (dt_head + strum_time * Z.of_nat (length ns))%Z)
  end.

Fixpoint adv_guitar_loop (velocity strum_time : Z) (chord_notes : list Z)
  (pat : list stroke) (i pattern_len unit_ticks last_unit_ticks dt_head current_tick : Z)
  : list event * Z :=
  match pat with
  | [] => ([], current_tick)
  | (direction, strum_type, vel_adj) :: rest =>
      let sorted_notes := sorted chord_notes in
      let notes_to_play := select_notes strum_type sorted_notes in
      let notes_to_play :=
        if String.eqb direction "u" then rev notes_to_play else notes_to_play in
      let is_muted := String.eqb direction "m" in
      let vel := Z.max 1 (Z.min 127 (velocity + vel_adj)) in
      let this_unit_ticks :=
        if (i =? pattern_len - 1)%Z then last_unit_ticks else unit_ticks in
      let '(ons, internal_used) := stroke_ons notes_to_play vel dt_head strum_time in
      let sustain :=
        if is_muted then (TICKS_PER_BEAT / 16)%Z
        else Z.max 0 (this_unit_ticks - internal_used) in
      let internal_used := (internal_used + sustain)%Z in
      let '(evs, t) :=
        adv_guitar_loop velocity strum_time chord_notes rest (i + 1) pattern_len
          unit_ticks last_unit_ticks 0 (current_tick + internal_used) in
      ((ons ++ offs_first notes_to_play sustain ++ evs)%list, t)
  end.

(** [AdvancedGuitarPattern.generate_events] *)
Definition adv_guitar_events (velocity : Z) (strum_duration : Q)
  (pattern : list stroke) (chord_notes : list Z)
  (start_tick duration_ticks last_tick : Z) : list event * Z :=
  match chord_notes with
  | [] => ([], last_tick)
  | _ =>
      let dt_to_first := Z.max 0 (start_tick - last_tick) in
      let duration_ticks := Z.max 1 duration_ticks in
      let pattern_len := Z.max 1 (Z.of_nat (length pattern)) in
      let unit_ticks := (duration_ticks / pattern_len)%Z in
      let last_unit_ticks := (duration_ticks - unit_ticks * (pattern_len - 1))%Z in
      let strum_time :=
        Z.min (Py.int_of_q (strum_duration * inject_Z TICKS_PER_BEAT))
              (TICKS_PER_BEAT / 16) in
      adv_guitar_loop velocity strum_time chord_notes pattern 0 pattern_len
        unit_ticks last_unit_ticks dt_to_first last_tick
  end.

(** The [generate_events] method of each strategy, on its five
    parameters; returns the appended events and the last chord tick. *)
Definition generate_events (p : ChordPattern) (chord_notes : list Z)
  (start_tick duration_ticks last_tick : Z) : Res (list event * Z) :=
  match p with
  | BlockChordPattern v => ROk (block_events v chord_notes start_tick duration_ticks last_tick)
  | ArpeggioChordPattern v =>
      ROk (arpeggio_events v chord_notes start_tick duration_ticks last_tick)
  | GuitarStrumsPattern v sd =>
      ROk (guitar_strum_events v sd chord_notes start_tick duration_ticks last_tick)
  | RhythmicArpeggioPattern v ts =>
      rhythmic_events v ts chord_notes start_tick duration_ticks last_tick
  | AdvancedGuitarPattern v sd _ pat =>
      ROk (adv_guitar_events v sd pat chord_notes start_tick duration_ticks last_tick)
  end.

(** Positional arguments of a Python call site. *)
Inductive pyarg :=
| AChord (notes : list Z)
| AInt (z : Z)
| AFloat (q : Q)
| ATrack.

(** Every [generate_events] takes exactly five positional arguments
    after [self]; any other count raises [TypeError] when the call is
    bound, before the body runs.  With five arguments the body runs on
    the integer values (a float argument with an integral value behaves
    the same; other floats are not part of the model). *)
Definition pyarg_int (a : pyarg) : option Z :=
  match a with
  | AInt z => Some z
  | AFloat q => if (Zpos (Qden (Qred q)) =? 1)%Z then Some (Qnum (Qred q)) else None
  | _ => None
  end.

Definition call_generate_events (p : ChordPattern) (args : list pyarg)
  : Res (list event * Z) :=
  match args with
  | [AChord notes; a_start; a_dur; ATrack; a_last] =>
      match pyarg_int a_start, pyarg_int a_dur, pyarg_int a_last with
      | Some s, Some d, Some l => generate_events p notes s d l
      | _, _, _ => RErr TypeError
      end
  | _ => RErr TypeError
  end.

(** [get_chord_pattern(pattern_name, time_signature)]: every table entry
    is built, then [patterns.get(pattern_name.lower(), BlockChordPattern())]. *)
Definition chord_pattern_table (ts : Z * Z) : Res (list (string * ChordPattern)) :=
  adv <- adv_guitar_init CHORD_VELOCITY (3 # 100) ts "basic" ;;
  folk <- adv_guitar_init CHORD_VELOCITY (3 # 100) ts "folk" ;;
  rock <- adv_guitar_init CHORD_VELOCITY (3 # 100) ts "rock" ;;
  ballad <- adv_guitar_init CHORD_VELOCITY (3 # 100) ts "ballad" ;;
  country <- adv_guitar_init CHORD_VELOCITY (3 # 100) ts "country" ;;
  waltz <- adv_guitar_init CHORD_VELOCITY (3 # 100) (3, 4)%Z "waltz" ;;
  ROk [("block", BlockChordPattern CHORD_VELOCITY);
       ("arpeggio", ArpeggioChordPattern CHORD_VELOCITY);
       ("guitar", GuitarStrumsPattern CHORD_VELOCITY (1 # 20));
       ("rhythmic", RhythmicArpeggioPattern CHORD_VELOCITY ts);
       ("adv_guitar", adv); ("folk_guitar", folk); ("rock_guitar", rock);
       ("ballad_guitar", ballad); ("country_guitar", country);
       ("waltz_guitar", waltz)].

Definition get_chord_pattern (pattern_name : string) (ts : Z * Z) : Res ChordPattern :=
  patterns <- chord_pattern_table ts ;;
  match lookup patterns (Py.lower pattern_name) with
  | Some p => ROk p
  | None => ROk (BlockChordPattern CHORD_VELOCITY)
  end.

(** ** main.py: [ScoreParser] *)

Record ScoreParser := { meta : list (string * string); tokens : list string }.

(** [ScoreParser._parse(text)] *)
Definition parse_header (line : string) (m : list (string * string))
  : Res (list (string * string)) :=
  match Py.split_once (substring 1 (String.length line) line) "="%char with
  | [k; v] => ROk (setitem m (Py.upper (Py.strip k)) (Py.strip v))
  | _ => RErr ValueError
  end.

Fixpoint parse_lines (lines : list string) (m : list (string * string))
  (body : list string) : Res (list (string * string) * list string) :=
  match lines with
  | [] => ROk (m, body)
  | line :: lines' =>
      if Py.startswith line ";"%char then parse_lines lines' m body
      else if Py.startswith line "#"%char then
        m' <- parse_header line m ;; parse_lines lines' m' body
      else parse_lines lines' m (body ++ [line])%list
  end.

Definition _parse (text : string) : Res ScoreParser :=
  let lines := map Py.rstrip
                 (filter (fun l => negb (String.eqb (Py.strip l) ""))
                    (Py.splitlines text)) in
  r <- parse_lines lines [] [] ;;
  ROk {| meta := fst r; tokens := flat_map Py.split (snd r) |}.

(** ** main.py: [build_midi] *)

Definition EPS : Q := 1 # 1000000.

Record config := {
  unit : Q;
  key_root : string;
  beats_per_measure : Q;
  from_measure : Z;
  to_measure : option Z }.

(** The variables of [build_midi]'s main loop. *)
Record state := {
  cur_tick : Z;
  delta_melody : Z;
  measure_beats : Q;
  current_measure : Z;
  is_recording : bool;
  measure_start_tick : Z;
  chord_active : list Z;
  chord_last_tick : Z;
  current_chord_pattern : ChordPattern;
  melody : list event;
  chords : list event }.

Definition ticks_of (beats : Q) : Z := Py.int_of_q (beats * inject_Z TICKS_PER_BEAT).

Definition is_bar (tok : string) : bool := String.eqb tok "|" || String.eqb tok "||".

Definition oct_shift (g : Re.note_groups) : Z :=
  let l := list_ascii_of_string (Re.g_oct g) in
  (Z.of_nat (count_occ Ascii.ascii_dec l "'"%char)
   - Z.of_nat (count_occ Ascii.ascii_dec l ","%char))%Z.

Definition has_tie (g : Re.note_groups) : bool := negb (String.eqb (Re.g_tie g) "").

(** The tie merge of the note branch: [toks] are the tokens after the
    note; returns the merged beats and the tokens left. *)
Fixpoint tie_merge (cfg : config) (pitch : Z) (tie : bool) (beats : Q)
  (toks : list string) : Res (Q * list string) :=
  if negb tie then ROk (beats, toks) else
  match toks with
  | [] => ROk (beats, [])
  | t :: ts =>
      match Re.note_match t with
      | None => ROk (beats, toks)
      | Some g =>
          p <- _degree2midi (Re.g_deg g) (Re.g_acc g) (oct_shift g) (key_root cfg) ;;
          if negb (p =? pitch)%Z then ROk (beats, toks)
          else b <- _beats (Re.g_dur g) (Re.g_dots g) (unit cfg) ;;
               tie_merge cfg pitch (has_tie g) (beats + b)%Q ts
      end
  end.

(** The forward scan for the next chord symbol: [Some seg] holds the
    tokens strictly between this chord and the next one, [None] means
    that no chord follows. *)
Fixpoint next_chord_segment (toks : list string) : option (list string) :=
  match toks with
  | [] => None
  | t :: ts =>
      if Py.startswith t "#"%char then option_map (cons t) (next_chord_segment ts)
      else if is_chord_token t then Some []
      else option_map (cons t) (next_chord_segment ts)
  end.

(** The tie merge of the span computation (no pitch comparison). *)
Fixpoint span_tie_merge (cfg : config) (tie : bool) (beats : Q) (toks : list string)
  : Res (Q * list string) :=
  if negb tie then ROk (beats, toks) else
  match toks with
  | [] => ROk (beats, [])
  | t :: ts =>
      match Re.note_match t with
      | None => ROk (beats, toks)
      | Some g =>
          b <- _beats (Re.g_dur g) (Re.g_dots g) (unit cfg) ;;
          span_tie_merge cfg (has_tie g) (beats + b)%Q ts
      end
  end.

(** The [while k < j] loop summing the ticks of the segment. *)
Fixpoint segment_ticks (cfg : config) (fuel : nat) (seg : list string) (temp : Z)
  : Res Z :=
  match fuel with
  | O => RErr OutOfFuel
  | S fuel' =>
      match seg with
      | [] => ROk temp
      | t :: ts =>
          if Py.startswith t "#"%char || is_bar t then segment_ticks cfg fuel' ts temp
          else match Re.rest_match t with
          | Some (dur, dots) =>
              b <- _beats dur dots (unit cfg) ;;
              segment_ticks cfg fuel' ts (temp + ticks_of b)
          | None =>
              match Re.note_match t with
              | Some g =>
                  b <- _beats (Re.g_dur g) (Re.g_dots g) (unit cfg) ;;
                  r <- span_tie_merge cfg (has_tie g) b ts ;;
                  segment_ticks cfg fuel' (snd r) (temp + ticks_of (fst r))
              | None => segment_ticks cfg fuel' ts temp
              end
          end
      end
  end.

(** [chord_duration_ticks] *)
Definition chord_span (cfg : config) (cur : Z) (rest : list string) : Res Z :=
  match next_chord_segment rest with
  | Some seg =>
      temp <- segment_ticks cfg (S (length seg)) seg cur ;;
      ROk (Z.max 1 (temp - cur))
  | None => ROk (Z.max 1 (ticks_of (beats_per_measure cfg)))
  end.

(** Float division [a / b]. *)
Definition qdiv (a b : Q) : Res Q :=
  if Qeq_bool b 0 then RErr ZeroDivisionError else ROk (a / b)%Q.

Definition qmin (a b : Q) : Q := if Qle_bool a b then a else b.

(** The arguments [build_midi] passes to [generate_events] for a chord
    symbol; [from_tick] and [to_tick] are the relative positions of the
    chord in its measure. *)
Definition chord_call_args (cfg : config) (st : state) (notes : list Z)
  (chord_start_tick chord_duration_ticks : Z) (found_next_chord : bool)
  : Res (list pyarg) :=
  let measure_total_ticks := (beats_per_measure cfg * inject_Z TICKS_PER_BEAT)%Q in
  ft <-
    (if found_next_chord then
       let measure_beats_total := measure_total_ticks in
       from_tick <-
         (if (chord_start_tick >=? measure_start_tick st)%Z then
            q <- qdiv (inject_Z (chord_start_tick - measure_start_tick st))
                      measure_beats_total ;;
            ROk (qmin 1 q)
          else ROk 0%Q) ;;
       let next_chord_tick := (chord_start_tick + chord_duration_ticks)%Z in
       to_tick <-
         (if negb (Qle_bool (inject_Z (measure_start_tick st) + measure_beats_total)
                          (inject_Z next_chord_tick)) then
            q <- qdiv (inject_Z (next_chord_tick - measure_start_tick st))
                      measure_beats_total ;;
            ROk (qmin 1 q)
          else ROk 1%Q) ;;
       ROk (from_tick, to_tick)
     else ROk (0%Q, 1%Q)) ;;
  ROk [AChord notes; AInt chord_start_tick; AFloat measure_total_ticks; ATrack;
       AInt (chord_last_tick st); AFloat (fst ft); AFloat (snd ft)].

(** The chord-symbol branch of the main loop. *)
Definition chord_step (cfg : config) (st : state) (tok : string) (rest : list string)
  : Res state :=
  (* close the sounding chord *)
  let st :=
    match chord_active st with
    | [] => st
    | active =>
        let dt := Z.max 0 (cur_tick st - chord_last_tick st) in
        {| cur_tick := cur_tick st; delta_melody := delta_melody st;
           measure_beats := measure_beats st; current_measure := current_measure st;
           is_recording := is_recording st; measure_start_tick := measure_start_tick st;
           chord_active := chord_active st; chord_last_tick := cur_tick st;
           current_chord_pattern := current_chord_pattern st; melody := melody st;
           chords := (chords st ++ offs_first active dt)%list |}
    end in
  let chord_start_tick := cur_tick st in
  let found_next_chord :=
    match next_chord_segment rest with Some _ => true | None => false end in
  chord_duration_ticks <- chord_span cfg (cur_tick st) rest ;;
  new_chord_notes <- _parse_chord tok ;;
  match new_chord_notes with
  | [] =>
      ROk {| cur_tick := cur_tick st; delta_melody := delta_melody st;
             measure_beats := measure_beats st; current_measure := current_measure st;
             is_recording := is_recording st; measure_start_tick := measure_start_tick st;
             chord_active := []; chord_last_tick := chord_last_tick st;
             current_chord_pattern := current_chord_pattern st; melody := melody st;
             chords := chords st |}
  | _ =>
      args <- chord_call_args cfg st new_chord_notes chord_start_tick
                chord_duration_ticks found_next_chord ;;
      r <- call_generate_events (current_chord_pattern st) args ;;
      ROk {| cur_tick := cur_tick st; delta_melody := delta_melody st;
             measure_beats := measure_beats st; current_measure := current_measure st;
             is_recording := is_recording st; measure_start_tick := measure_start_tick st;
             chord_active := new_chord_notes; chord_last_tick := snd r;
             current_chord_pattern := current_chord_pattern st; melody := melody st;
             chords := (chords st ++ fst r)%list |}
  end.

(** The inline [#...] branch: a [CHORD_PATTERN] directive switches the
    strategy; any exception inside the [try] keeps the current one. *)
Definition directive_step (st : state) (tok : string) : state :=
  let keep := st in
  if Py.contains "CHORD_PATTERN" (Py.upper tok) then
    match Py.split_once (substring 1 (String.length tok) tok) "="%char with
    | [_; pattern_name] =>
        match get_chord_pattern (Py.strip pattern_name) (4, 4)%Z with
        | ROk p =>
            {| cur_tick := cur_tick st; delta_melody := delta_melody st;
               measure_beats := measure_beats st; current_measure := current_measure st;
               is_recording := is_recording st; measure_start_tick := measure_start_tick st;
               chord_active := chord_active st; chord_last_tick := chord_last_tick st;
               current_chord_pattern := p; melody := melody st; chords := chords st |}
        | RErr _ => keep
        end
    | _ => keep
    end
  else keep.

(** The measure-line branch. *)
Definition bar_step (cfg : config) (st : state) : Res state :=
  let left := (beats_per_measure cfg - measure_beats st)%Q in
  if Qle_bool (- EPS) left then
    let pad := if negb (Qle_bool left EPS) && is_recording st
               then ticks_of left else 0%Z in
    let cur := (cur_tick st + pad)%Z in
    let cm := (current_measure st + 1)%Z in
    ROk {| cur_tick := cur; delta_melody := (delta_melody st + pad)%Z;
           measure_beats := 0; current_measure := cm;
           is_recording := (from_measure cfg <=? cm)%Z; measure_start_tick := cur;
           chord_active := chord_active st; chord_last_tick := chord_last_tick st;
           current_chord_pattern := current_chord_pattern st; melody := melody st;
           chords := chords st |}
  else RErr ValueError.

(** The rest branch. *)
Definition rest_step (cfg : config) (st : state) (dur dots : string) : Res state :=
  beats <- _beats dur dots (unit cfg) ;;
  let ticks := ticks_of beats in
  ROk {| cur_tick := cur_tick st + ticks; delta_melody := delta_melody st + ticks;
         measure_beats := (measure_beats st + beats)%Q;
         current_measure := current_measure st;
         is_recording := is_recording st; measure_start_tick := measure_start_tick st;
         chord_active := chord_active st; chord_last_tick := chord_last_tick st;
         current_chord_pattern := current_chord_pattern st; melody := melody st;
         chords := chords st |}%Z.

(** The note branch, with its tie merge; returns the tokens left. *)
Definition note_step (cfg : config) (st : state) (g : Re.note_groups)
  (rest : list string) : Res (state * list string) :=
  beats <- _beats (Re.g_dur g) (Re.g_dots g) (unit cfg) ;;
  pitch <- _degree2midi (Re.g_deg g) (Re.g_acc g) (oct_shift g) (key_root cfg) ;;
  m <- tie_merge cfg pitch (has_tie g) beats rest ;;
  let '(beats, rest') := m in
  let ticks := ticks_of beats in
  ROk ({| cur_tick := cur_tick st + ticks; delta_melody := 0;
          measure_beats := (measure_beats st + beats)%Q;
          current_measure := current_measure st;
          is_recording := is_recording st; measure_start_tick := measure_start_tick st;
          chord_active := chord_active st; chord_last_tick := chord_last_tick st;
          current_chord_pattern := current_chord_pattern st;
          melody := (melody st ++ [Msg NoteOn 0 pitch 64 (delta_melody st);
                                   Msg NoteOff 0 pitch 64 ticks])%list;
          chords := chords st |}, rest')%Z.

(** One turn of the [while i < n] loop on [tok = toks[i]], [rest =
    toks[i+1:]]; returns the new state and the tokens still to read. *)
Definition step (cfg : config) (st : state) (tok : string) (rest : list string)
  : Res (state * list string) :=
  if Py.startswith tok "#"%char then ROk (directive_step st tok, rest)
  else if is_bar tok then st' <- bar_step cfg st ;; ROk (st', rest)
  else if negb (is_recording st) then ROk (st, rest)
  else match Re.rest_match tok with
  | Some (dur, dots) => st' <- rest_step cfg st dur dots ;; ROk (st', rest)
  | None =>
      if is_chord_token tok then st' <- chord_step cfg st tok rest ;; ROk (st', rest)
      else match Re.note_match tok with
           | None => RErr ValueError
           | Some g => note_step cfg st g rest
           end
  end.

Definition stop_here (cfg : config) (st : state) : bool :=
  match to_measure cfg with
  | Some t => (t <? current_measure st)%Z
  | None => false
  end.

(** The main loop; every turn consumes at least one token, so
    [S (length toks)] turns are enough. *)
Fixpoint run (cfg : config) (fuel : nat) (st : state) (toks : list string)
  : Res state :=
  match fuel with
  | O => RErr OutOfFuel
  | S fuel' =>
      match toks with
      | [] => ROk st
      | tok :: rest =>
          if stop_here cfg st then ROk st
          else r <- step cfg st tok rest ;; run cfg fuel' (fst r) (snd r)
      end
  end.

(** After the loop: pad the last measure, then close the sounding chord. *)
Definition finish (cfg : config) (st : state) : Res state :=
  let left := (beats_per_measure cfg - measure_beats st)%Q in
  if Qle_bool (- EPS) left then
    let st :=
      if negb (Qle_bool left EPS) then
        let pad := ticks_of left in
        {| cur_tick := cur_tick st + pad; delta_melody := delta_melody st;
           measure_beats := measure_beats st; current_measure := current_measure st;
           is_recording := is_recording st; measure_start_tick := cur_tick st + pad;
           chord_active := chord_active st; chord_last_tick := chord_last_tick st;
           current_chord_pattern := current_chord_pattern st;
           melody := (melody st ++ [Msg NoteOff 0 0 0 pad])%list;
           chords := chords st |}%Z
      else st in
    match chord_active st with
    | [] => ROk st
    | active =>
        let dt := Z.max 0 (cur_tick st - chord_last_tick st) in
        ROk {| cur_tick := cur_tick st; delta_melody := delta_melody st;
               measure_beats := measure_beats st; current_measure := current_measure st;
               is_recording := is_recording st; measure_start_tick := measure_start_tick st;
               chord_active := chord_active st; chord_last_tick := chord_last_tick st;
               current_chord_pattern := current_chord_pattern st; melody := melody st;
               chords := (chords st ++ offs_first active dt)%list |}
    end
  else RErr ValueError.

Definition init_state (from_m : Z) (p : ChordPattern) (mel ch : list event) : state :=
  {| cur_tick := 0; delta_melody := 0; measure_beats := 0; current_measure := 1;
     is_recording := (from_m <=? 1)%Z; measure_start_tick := 0;
     chord_active := []; chord_last_tick := 0; current_chord_pattern := p;
     melody := mel; chords := ch |}.

(** The compile pass proper, from the parsed configuration and the
    tracks holding their header events. *)
Definition compile (cfg : config) (p : ChordPattern) (mel ch : list event)
  (toks : list string) : Res state :=
  st <- run cfg (S (length toks)) (init_state (from_measure cfg) p mel ch) toks ;;
  finish cfg st.

Definition meta_get (m : list (string * string)) (k d : string) : string :=
  match lookup m k with Some v => v | None => d end.

(** [build_midi(parser, outfile, metro_on=False, ..., from_measure,
    to_measure)] up to [mid.save]: the header checks, the main pass and
    the final padding; returns the melody and chord tracks.  The click
    track (off by default) is not modelled. *)
Definition build_midi (parser : ScoreParser) (from_m : Z) (to_m : option Z)
  : Res (list event * list event) :=
  let m := meta parser in
  let unit := match lookup DUR2BEAT (Py.lower (meta_get m "UNIT" "q")) with
              | Some b => b | None => 1%Q end in
  tempo_bpm <- Py.int_of_string (meta_get m "TEMPO" "120") ;;
  key_root <- _norm_key (meta_get m "KEY" "C") ;;
  _ <- (match lookup NOTE2MIDI key_root with
        | Some _ => ROk tt | None => RErr ValueError end) ;;
  ts <- (match Py.split_sep (meta_get m "TIME" "4/4") "/"%char with
         | [a; b] => x <- Py.int_of_string a ;; y <- Py.int_of_string b ;; ROk (x, y)
         | _ => RErr ValueError
         end) ;;
  let '(ts_num, ts_den) := ts in
  if negb (Z.land ts_den (ts_den - 1) =? 0)%Z then RErr ValueError else
  if (ts_den =? 0)%Z then RErr ZeroDivisionError else
  let beats_per_measure := (inject_Z (ts_num * 4) / inject_Z ts_den)%Q in
  chord_pattern <- get_chord_pattern (meta_get m "CHORD_PATTERN" "block") ts ;;
  if (tempo_bpm =? 0)%Z then RErr ZeroDivisionError else
  let chords0 := [Program CHORD_CH 48; Meta "track_name" 0] in
  let melody0 := [Meta "set_tempo" 0; Meta "time_signature" 0; Meta "track_name" 0] in
  let cfg := {| unit := unit; key_root := key_root;
                beats_per_measure := beats_per_measure;
                from_measure := from_m; to_measure := to_m |} in
  st <- compile cfg chord_pattern melody0 chords0 (tokens parser) ;;
  ROk ((melody st ++ [Meta "end_of_track" 0])%list,
       (chords st ++ [Meta "end_of_track" 0])%list).

(** Parse a text and compile it with the default measure range. *)
Definition jianpu2midi (text : string) : Res (list event * list event) :=
  p <- _parse text ;; build_midi p 0 None.

(** ** Observations on event streams *)

(** Absolute tick of the last [note_off] of a stream whose deltas start
    at tick [t]. *)
Fixpoint last_release_tick (t : Z) (evs : list event) (acc : Z) : Z :=
  match evs with
  | [] => acc
  | Msg k _ _ _ d :: es =>
      let t' := (t + d)%Z in
      last_release_tick t' es (match k with NoteOff => t' | NoteOn => acc end)
  | Meta _ d :: es => last_release_tick (t + d)%Z es acc
  | Program _ _ :: es => last_release_tick t es acc
  end.

(** The keys of the [get_chord_pattern] table. *)
Definition chord_pattern_names : list string :=
  ["block"; "arpeggio"; "guitar"; "rhythmic"; "adv_guitar"; "folk_guitar";
   "rock_guitar"; "ballad_guitar"; "country_guitar"; "waltz_guitar"].

(** The root named by a chord symbol: its first character in upper
    case, followed by a second character ['#'] or ['b'] if there is one;
    the quality suffix is what follows the root. *)
Definition chord_root (sym : string) : string :=
  match sym with
  | EmptyString => EmptyString
  | String c0 (String c1 _) =>
      if Ascii.eqb c1 "#"%char || Ascii.eqb c1 "b"%char
      then String (Py.upper_char c0) (String c1 EmptyString)
      else String (Py.upper_char c0) EmptyString
  | String c0 EmptyString => String (Py.upper_char c0) EmptyString
  end.

Definition chord_suffix (sym : string) : string :=
  match sym with
  | EmptyString => EmptyString
  | String c0 (String c1 rest) =>
      if Ascii.eqb c1 "#"%char || Ascii.eqb c1 "b"%char then rest else String c1 rest
  | String c0 EmptyString => EmptyString
  end.

(** The quality names of the resolver's table. *)
Definition known_qualities : list string := flat_map fst chord_qualities.

(** A string made of whitespace only. *)
Fixpoint all_space (s : string) : bool :=
  match s with
  | EmptyString => true
  | String c s' => Py.is_space c && all_space s'
  end.

(** A line [ScoreParser._parse] keeps as body text. *)
Definition body_line (l : string) : bool :=
  negb (Py.startswith l ";"%char || Py.startswith l "#"%char).

(** ** main.py: the click track of [build_midi]

    [METRO_CH] and [METRO_NOTE] come from the constants module, which is
    not part of the sources and whose values the spec does not fix; they
    are parameters of the definitions below. *)

(** The [while t < cur_tick] loop; [beat_idx % ts_num] raises
    [ZeroDivisionError] for [ts_num = 0].  The Python loop has no bound:
    when [beat_ticks] is 0 it never ends, which the fuel turns into
    [OutOfFuel]. *)
Fixpoint metro_loop (metro_ch metro_note : Z) (fuel : nat)
  (ts_num beat_ticks click_len cur_tick : Z) (metro_vel : Z * Z) (t beat_idx : Z)
  : Res (list event) :=
  match fuel with
  | O => RErr OutOfFuel
  | S fuel' =>
      if (t <? cur_tick)%Z then
        let dt := if (t =? 0)%Z then 0%Z else (beat_ticks - click_len)%Z in
        if (ts_num =? 0)%Z then RErr ZeroDivisionError else
        let vel := if (beat_idx mod ts_num =? 0)%Z then fst metro_vel else snd metro_vel in
        rest <- metro_loop metro_ch metro_note fuel' ts_num beat_ticks click_len cur_tick
                  metro_vel (t + beat_ticks) (beat_idx + 1) ;;
        ROk (Msg NoteOn metro_ch metro_note vel dt
             :: Msg NoteOff metro_ch metro_note 0 click_len :: rest)
      else ROk []
  end.

(** [beat_ticks = int(TICKS_PER_BEAT * 4 / ts_den)] and
    [click_len = int(beat_ticks * .2)]; the float [.2] is slightly above
    1/5 and the product of a small integer with it rounds to the same
    integer part as [beat_ticks / 5]. *)
Definition metronome_track (metro_ch metro_note : Z) (ts_num ts_den cur_tick : Z)
  (metro_vel : Z * Z) (fuel : nat) : Res (list event) :=
  let beat_ticks := Py.int_of_q (inject_Z (TICKS_PER_BEAT * 4) / inject_Z ts_den) in
  let click_len := Py.int_of_q (inject_Z beat_ticks * (1 # 5)) in
  clicks <- metro_loop metro_ch metro_note fuel ts_num beat_ticks click_len cur_tick
              metro_vel 0 0 ;;
  ROk (Meta "track_name" 0 :: clicks ++ [Meta "end_of_track" 0])%list.

(** [build_midi] with its click track: the melody, chord and (when
    [metro_on]) click tracks.  The loop gets one turn per tick of the
    piece, enough whenever a beat has at least one tick. *)
Definition build_midi_full (metro_ch metro_note : Z) (parser : ScoreParser)
  (metro_on : bool) (metro_vel : Z * Z) (from_m : Z) (to_m : option Z)
  : Res (list event * list event * option (list event)) :=
  let m := meta parser in
  let unit := match lookup DUR2BEAT (Py.lower (meta_get m "UNIT" "q")) with
              | Some b => b | None => 1%Q end in
  tempo_bpm <- Py.int_of_string (meta_get m "TEMPO" "120") ;;
  key_root <- _norm_key (meta_get m "KEY" "C") ;;
  _ <- (match lookup NOTE2MIDI key_root with
        | Some _ => ROk tt | None => RErr ValueError end) ;;
  ts <- (match Py.split_sep (meta_get m "TIME" "4/4") "/"%char with
         | [a; b] => x <- Py.int_of_string a ;; y <- Py.int_of_string b ;; ROk (x, y)
         | _ => RErr ValueError
         end) ;;
  let '(ts_num, ts_den) := ts in
  if negb (Z.land ts_den (ts_den - 1) =? 0)%Z then RErr ValueError else
  if (ts_den =? 0)%Z then RErr ZeroDivisionError else
  let beats_per_measure := (inject_Z (ts_num * 4) / inject_Z ts_den)%Q in
  chord_pattern <- get_chord_pattern (meta_get m "CHORD_PATTERN" "block") ts ;;
  if (tempo_bpm =? 0)%Z then RErr ZeroDivisionError else
  let chords0 := [Program CHORD_CH 48; Meta "track_name" 0] in
  let melody0 := [Meta "set_tempo" 0; Meta "time_signature" 0; Meta "track_name" 0] in
  let cfg := {| unit := unit; key_root := key_root;
                beats_per_measure := beats_per_measure;
                from_measure := from_m; to_measure := to_m |} in
  st <- compile cfg chord_pattern melody0 chords0 (tokens parser) ;;
  click <- (if metro_on then
              c <- metronome_track metro_ch metro_note ts_num ts_den (cur_tick st) metro_vel
                     (S (Z.to_nat (cur_tick st))) ;;
              ROk (Some c)
            else ROk None) ;;
  ROk ((melody st ++ [Meta "end_of_track" 0])%list,
       (chords st ++ [Meta "end_of_track" 0])%list, click).

(** ** main.py: the options of [main] *)

(** What the argument loop of [main] sets; [out] is [None] until an
    output path is given (the default [txt.with_suffix('.mid')] is
    chosen after the loop). *)
Record cli := {
  cli_out : option string; cli_metro_on : bool; cli_metro_vel : Z * Z;
  cli_from_measure : Z; cli_to_measure : option Z; cli_should_play : bool }.

Definition cli_defaults : cli :=
  {| cli_out := None; cli_metro_on := false; cli_metro_vel := (90, 60)%Z;
     cli_from_measure := 0; cli_to_measure := None; cli_should_play := false |}.

Definition set_out (c : cli) (o : string) : cli :=
  {| cli_out := Some o; cli_metro_on := cli_metro_on c; cli_metro_vel := cli_metro_vel c;
     cli_from_measure := cli_from_measure c; cli_to_measure := cli_to_measure c;
     cli_should_play := cli_should_play c |}.

Definition set_metro (c : cli) (vel : Z * Z) : cli :=
  {| cli_out := cli_out c; cli_metro_on := true; cli_metro_vel := vel;
     cli_from_measure := cli_from_measure c; cli_to_measure := cli_to_measure c;
     cli_should_play := cli_should_play c |}.

Definition set_play (c : cli) : cli :=
  {| cli_out := cli_out c; cli_metro_on := cli_metro_on c; cli_metro_vel := cli_metro_vel c;
     cli_from_measure := cli_from_measure c; cli_to_measure := cli_to_measure c;
     cli_should_play := true |}.

Definition set_from (c : cli) (f : Z) : cli :=
  {| cli_out := cli_out c; cli_metro_on := cli_metro_on c; cli_metro_vel := cli_metro_vel c;
     cli_from_measure := f; cli_to_measure := cli_to_measure c;
     cli_should_play := cli_should_play c |}.

Definition set_to (c : cli) (t : Z) : cli :=
  {| cli_out := cli_out c; cli_metro_on := cli_metro_on c; cli_metro_vel := cli_metro_vel c;
     cli_from_measure := cli_from_measure c; cli_to_measure := Some t;
     cli_should_play := cli_should_play c |}.

(** [max(0, min(v, 127))] *)
Definition clamp_vel (v : Z) : Z := Z.max 0 (Z.min v 127).

(** [acc, reg = (int(x) for x in arg.split('=', 1)[1].split(','))]:
    any count of parts other than two, or a part [int] rejects, raises
    [ValueError]. *)
Definition metro_arg_vel (arg : string) : Res (Z * Z) :=
  match Py.split_once arg "="%char with
  | [_; v] =>
      match Py.split_sep v ","%char with
      | [a; r] =>
          acc <- Py.int_of_string a ;;
          reg <- Py.int_of_string r ;;
          ROk (clamp_vel acc, clamp_vel reg)
      | _ => RErr ValueError
      end
  | _ => RErr IndexError
  end.

(** The [while i < len(sys.argv)] loop of [main] over [sys.argv[2:]];
    the messages it prints are left out. *)
Fixpoint main_args (args : list string) (c : cli) : cli :=
  match args with
  | [] => c
  | arg :: rest =>
      if String.eqb arg "-m" || String.eqb arg "--metronome" || String.eqb arg "--metro"
      then main_args rest (set_metro c (cli_metro_vel c))
      else if Py.prefix_of "--metronome=" arg || Py.prefix_of "--metro=" arg then
        let vel := match metro_arg_vel arg with
                   | ROk v => v
                   | RErr _ => cli_metro_vel c
                   end in
        main_args rest (set_metro c vel)
      else if String.eqb arg "-p" then main_args rest (set_play c)
      else if String.eqb arg "-f" then
        match rest with
        | nxt :: rest' =>
            match Py.int_of_string nxt with
            | ROk f => main_args rest' (set_from c f)
            | RErr _ => main_args rest c
            end
        | [] => main_args rest c
        end
      else if String.eqb arg "-t" then
        match rest with
        | nxt :: rest' =>
            match Py.int_of_string nxt with
            | ROk t => main_args rest' (set_to c t)
            | RErr _ => main_args rest c
            end
        | [] => main_args rest c
        end
      else if String.eqb arg "-o" then
        match rest with
        | nxt :: rest' => main_args rest' (set_out c nxt)
        | [] => main_args rest c
        end
      else if negb (Py.startswith arg "-"%char) &&
              match cli_out c with None => true | Some _ => false end
      then main_args rest (set_out c arg)
      else main_args rest c
  end.

(** ** Observations on tracks and tokens *)

(** Sum of the delta times of a track: its length in ticks. *)
Fixpoint sum_times (evs : list event) : Z :=
  match evs with
  | [] => 0
  | Msg _ _ _ _ t :: es => t + sum_times es
  | Meta _ t :: es => t + sum_times es
  | Program _ _ :: es => sum_times es
  end.

(** The melody events of a list of notes (pitch, delta before the
    onset, length), as the note branch writes them. *)
Definition melody_notes (ns : list (Z * Z * Z)) : list event :=
  flat_map (fun '(p, d, t) => [Msg NoteOn 0 p 64 d; Msg NoteOff 0 p 64 t]) ns.

Definition is_release (ch n : Z) (e : event) : bool :=
  match e with
  | Msg NoteOff ch' n' _ _ => (ch =? ch')%Z && (n =? n')%Z
  | _ => false
  end.

(** Every onset has a release of the same channel and pitch after it. *)
Fixpoint released_later (evs : list event) : bool :=
  match evs with
  | [] => true
  | Msg NoteOn ch n _ _ :: es => existsb (is_release ch n) es && released_later es
  | _ :: es => released_later es
  end.

(** An onset is released in [b] when [b] holds a release of its
    channel and note. *)
Definition released_in (b : list event) (e : event) : Prop :=
  match e with
  | Msg NoteOn ch n _ _ => existsb (is_release ch n) b = true
  | _ => True
  end.

(** The key and value a ['#'] line sets, as [_parse] reads them. *)
Definition header_kv (line : string) : option (string * string) :=
  match Py.split_once (substring 1 (String.length line) line) "="%char with
  | [k; v] => Some (Py.upper (Py.strip k), Py.strip v)
  | _ => None
  end.

(** The value of [key] on the last header line naming it. *)
Fixpoint last_header (lines : list string) (key : string) (acc : option string)
  : option string :=
  match lines with
  | [] => acc
  | l :: ls =>
      let acc' :=
        if Py.startswith l "#"%char then
          match header_kv l with
          | Some (k, v) => if String.eqb k key then Some v else acc
          | None => acc
          end
        else acc in
      last_header ls key acc'
  end.

(** A note token written from its groups, to compare [_NOTE_RE] with. *)
Definition render_note (g : Re.note_groups) : string :=
  String (ascii_of_nat (48 + Z.to_nat (Re.g_deg g)))
    (Re.g_acc g ++ Re.g_oct g ++ Re.g_dur g ++ Re.g_dots g ++ Re.g_tie g).

Fixpoint all_chars (p : ascii -> bool) (s : string) : bool :=
  match s with
  | EmptyString => true
  | String c s' => p c && all_chars p s'
  end.

(** The first character of [s], if any, is one of [cs]. *)
Definition head_in (cs s : string) : bool :=
  match s with
  | String c _ => Re.in_chars cs c
  | EmptyString => true
  end.

(** The groups [_NOTE_RE] can produce. *)
Definition note_groups_wf (g : Re.note_groups) : Prop :=
  (1 <= Re.g_deg g <= 7)%Z /\
  In (Re.g_acc g) [""; "#"; "b"] /\
  all_chars (Re.in_chars "',") (Re.g_oct g) = true /\
  (In (Re.g_dur g) [""; "w"; "h"; "q"; "e"; "s"; "t"] \/
   exists ds, Re.g_dur g = String "/" ds /\ ds <> "" /\ all_chars Re.is_digit ds = true) /\
  all_chars (Ascii.eqb "."%char) (Re.g_dots g) = true /\
  In (Re.g_tie g) [""; "^"].

(** A note of the melody has a non-negative delta and length. *)
Definition note_nonneg (n : Z * Z * Z) : Prop :=
  let '(_, d, t) := n in (0 <= d /\ 0 <= t)%Z.

(** What the main loop keeps: no chord sounds, the chord track is as it
    started, the melody track is its header followed by note pairs, and
    its delta times add up to the current tick less the pending delta. *)
Definition melody_inv (cfg : config) (mel0 ch0 : list event) (st : state) : Prop :=
  chord_active st = [] /\ chords st = ch0 /\
  sum_times (melody st) = (sum_times mel0 + cur_tick st - delta_melody st)%Z /\
  exists ns, melody st = (mel0 ++ melody_notes ns)%list /\
    (0 <= unit cfg -> (0 <= delta_melody st)%Z /\ Forall note_nonneg ns)%Q.

(** The configuration of a [4/4] score in quarter-note units. *)
Definition cfg44 : config :=
  {| unit := 1; key_root := "C"; beats_per_measure := 4;
     from_measure := 0; to_measure := None |}.

(** A result that is not the exhaustion of the fuel of a loop model:
    every error it may hold is one the Python program raises. *)
Definition nofuel {A} (r : Res A) : Prop := r <> RErr OutOfFuel.

(** ** Properties *)

(** The duration arithmetic of [_beats] apart from the ["/N"] form. *)
Lemma beats_plain_codes (u : Q) :
  _beats "" "" u = ROk u /\
  _beats "w" "" u = ROk (4 * u)%Q /\ _beats "h" "" u = ROk (2 * u)%Q /\
  _beats "q" "" u = ROk (1 * u)%Q /\ _beats "e" "" u = ROk ((1#2) * u)%Q /\
  _beats "s" "" u = ROk ((1#4) * u)%Q /\ _beats "t" "" u = ROk ((1#8) * u)%Q.
Proof. repeat split. Qed.

Lemma beats_dots (dur : string) (u b : Q) :
  _beats dur "" u = ROk b ->
  _beats dur "." u = ROk (b * (3#2))%Q /\ _beats dur ".." u = ROk (b * (7#4))%Q.
Proof.
  unfold _beats. intros H.
  destruct (match dur with
            | EmptyString => ROk u
            | String c _ => _
            end) as [b'|e]; simpl in *; [|discriminate].
  inversion H; subst; split; reflexivity.
Qed.

(** C3: [_beats] on a duration code of the form "/N" does not return
    [unit * N]: [float("/4")] raises [ValueError] before any
    multiplication. *)
Theorem beats_fraction_code_raises :
  _beats "/4" "" 1 = RErr ValueError /\ _beats "/2" "." (1#2) = RErr ValueError.
Proof. split; reflexivity. Qed.

(** C5: the arpeggio strategy, on the non-empty chord [60;64;67] from
    tick 0 with [durationTicks = 1000], releases its last note at tick
    999: three segments of [1000 // 3 = 333] ticks, the remainder is
    dropped, so the stream is shorter than [durationTicks]. *)
Theorem arpeggio_stream_shorter_than_duration :
  exists evs,
    generate_events (ArpeggioChordPattern CHORD_VELOCITY) [60; 64; 67]%Z 0 1000 0
    = ROk (evs, 999%Z) /\
    last_release_tick 0 evs 0 = 999%Z /\ (last_release_tick 0 evs 0 - 0 < 1000)%Z.
Proof. eexists. split; [reflexivity | split; reflexivity]. Qed.

(** The advanced-guitar strategy with a muted stroke (the "rock" style
    in 4/4) also ends before [durationTicks]. *)
Lemma rock_guitar_stream_shorter_than_duration :
  exists p evs,
    get_chord_pattern "rock_guitar" (4, 4)%Z = ROk p /\
    generate_events p [48; 52; 55]%Z 0 1920 0 = ROk (evs, 1738%Z) /\
    last_release_tick 0 evs 0 = 1738%Z.
Proof. do 2 eexists. split; [reflexivity | split; reflexivity]. Qed.

Lemma py_index_in_range {A} (l : list A) (i : Z) (d : A) :
  (0 <= i < Z.of_nat (length l))%Z -> Py.index l i = ROk (nth (Z.to_nat i) l d).
Proof.
  intros Hi. unfold Py.index.
  replace (i <? 0)%Z with false by (symmetry; apply Z.ltb_ge; lia).
  replace ((i <? 0) || (Z.of_nat (length l) <=? i))%Z with false
    by (symmetry; apply orb_false_iff; split; [apply Z.ltb_ge | apply Z.leb_gt]; lia).
  rewrite (nth_error_nth' l d) by lia. reflexivity.
Qed.

Section ChordIndex.
Variable notes : list Z.
Hypothesis notes_nonempty : notes <> [].

Let L := Z.of_nat (length notes).

Lemma chord_len_pos : (0 < L)%Z.
Proof.
  unfold L. destruct notes as [|x xs]; [congruence|]. simpl. lia.
Qed.

Lemma chord_getitem_loop_spec (fuel : nat) :
  forall item octave, (0 <= item)%Z -> (Z.to_nat item < fuel)%nat ->
  chord_getitem_loop fuel notes item octave
  = ROk (nth (Z.to_nat (item mod L)) notes 0 + (octave + item / L) * 12)%Z.
Proof.
  pose proof chord_len_pos as HL.
  induction fuel as [|fuel IH]; intros item octave Hi Hf; [lia|].
  simpl. fold L.
  destruct (item >=? L)%Z eqn:Hge.
  - apply Z.geb_le in Hge.
    rewrite IH by lia.
    replace (item - L)%Z with (item + (-1) * L)%Z by lia.
    rewrite Z.mod_add, Z.div_add by lia.
    f_equal. f_equal. lia.
  - rewrite Z.geb_leb, Z.leb_gt in Hge.
    rewrite (py_index_in_range notes item 0%Z) by (unfold L in Hge; lia). simpl.
    rewrite Z.mod_small, Z.div_small by lia.
    f_equal. lia.
Qed.

End ChordIndex.

(** C7: for a non-empty chord of length [len] and an index [i >= 0],
    [Chord.__getitem__(i)] returns [pitches[i mod len] + 12 * (i div len)]. *)
Theorem chord_getitem_wraps_octaves (notes : list Z) (i : Z)
  (Hne : notes <> []) (Hi : (0 <= i)%Z) :
  chord_getitem notes i
  = ROk (nth (Z.to_nat (i mod Z.of_nat (length notes))) notes 0
         + 12 * (i / Z.of_nat (length notes)))%Z.
Proof.
  unfold chord_getitem.
  rewrite (chord_getitem_loop_spec notes Hne) by lia.
  f_equal. lia.
Qed.

Lemma chord_getitem_wraps_octaves_witness :
  chord_getitem [48; 52; 55]%Z 7 = ROk (52 + 12 * 2)%Z.
Proof.
  assert (Hne : [48; 52; 55]%Z <> []) by discriminate.
  assert (Hi : (0 <= 7)%Z) by lia.
  exact (chord_getitem_wraps_octaves [48; 52; 55]%Z 7 Hne Hi).
Defined.

(** C8: for a degree [d] in 1..7, any accidental string [acc], any
    octave shift [k] and a key root of the note table,
    [_degree2midi d acc (k+1) key] is [_degree2midi d acc k key + 12]. *)
Theorem degree2midi_octave_periodic (d : Z) (acc : string) (k : Z) (key : string)
  (Hd : (1 <= d <= 7)%Z) (Hkey : lookup NOTE2MIDI key <> None) :
  exists p, _degree2midi d acc k key = ROk p /\ _degree2midi d acc (k + 1) key = ROk (p + 12)%Z.
Proof.
  unfold _degree2midi, getitem.
  destruct (lookup NOTE2MIDI key) as [r|]; [|congruence]. cbn [bind].
  rewrite (py_index_in_range MAJOR_INTERVALS (d - 1) 0%Z) by (simpl; lia). cbn [bind].
  eexists. split; [reflexivity|]. f_equal. lia.
Qed.

Lemma degree2midi_octave_periodic_witness :
  _degree2midi 3 "b" 0 "G" = ROk 70%Z /\ _degree2midi 3 "b" 1 "G" = ROk 82%Z.
Proof.
  assert (Hd : (1 <= 3 <= 7)%Z) by lia.
  assert (Hk : lookup NOTE2MIDI "G" <> None) by discriminate.
  destruct (degree2midi_octave_periodic 3 "b" 0 "G" Hd Hk) as [p [H1 H2]].
  assert (Hp : p = 70%Z) by (vm_compute in H1; congruence).
  subst p. split; [exact H1 | exact H2].
Defined.

(** ** The strategy factory *)

Lemma rhythm_patterns_have_basic (k : Z * Z) (styles : list (string * list stroke)) :
  lookup_ts RHYTHM_PATTERNS k = Some styles -> lookup styles "basic" <> None.
Proof.
  destruct k as [num den]. unfold lookup_ts, RHYTHM_PATTERNS. cbn [fst snd].
  repeat match goal with
         | |- context [if ?b then _ else _] => destruct b
         end; intros E; inversion E; subst; discriminate.
Qed.

Lemma adv_guitar_init_ok (v : Z) (sd : Q) (ts : Z * Z) (style : string) :
  exists p, adv_guitar_init v sd ts style = ROk p.
Proof.
  unfold adv_guitar_init. destruct ts as [num den].
  destruct (lookup_ts RHYTHM_PATTERNS (num, den)) as [styles|] eqn:E.
  - destruct (lookup styles style) as [p|].
    + eexists; reflexivity.
    + apply rhythm_patterns_have_basic in E. unfold getitem.
      destruct (lookup styles "basic"); [eexists; reflexivity | congruence].
  - simpl.
    repeat match goal with
           | |- context [if ?b then _ else _] => destruct b
           end; eexists; reflexivity.
Qed.

Lemma chord_pattern_table_keys (ts : Z * Z) :
  exists tbl, chord_pattern_table ts = ROk tbl /\ map fst tbl = chord_pattern_names.
Proof.
  unfold chord_pattern_table.
  destruct (adv_guitar_init_ok CHORD_VELOCITY (3 # 100) ts "basic") as [a Ea].
  destruct (adv_guitar_init_ok CHORD_VELOCITY (3 # 100) ts "folk") as [b Eb].
  destruct (adv_guitar_init_ok CHORD_VELOCITY (3 # 100) ts "rock") as [c Ec].
  destruct (adv_guitar_init_ok CHORD_VELOCITY (3 # 100) ts "ballad") as [d Ed].
  destruct (adv_guitar_init_ok CHORD_VELOCITY (3 # 100) ts "country") as [e Ee].
  destruct (adv_guitar_init_ok CHORD_VELOCITY (3 # 100) (3, 4)%Z "waltz") as [f Ef].
  rewrite Ea, Eb, Ec, Ed, Ee, Ef. eexists. split; reflexivity.
Qed.

Lemma lookup_not_key {V} (tbl : list (string * V)) (k : string) :
  ~ In k (map fst tbl) -> lookup tbl k = None.
Proof.
  induction tbl as [|[k' v] tbl IH]; simpl; intros H; [reflexivity|].
  destruct (String.eqb k k') eqn:E.
  - apply String.eqb_eq in E. subst. exfalso. apply H. left. reflexivity.
  - apply IH. intros Hin. apply H. right. exact Hin.
Qed.

(** C10: [get_chord_pattern] looks the name up after [lower()], so names
    differing only in letter case give the same strategy; a name whose
    lower-case form is not in the table gives [BlockChordPattern]; and a
    parseable inline [#CHORD_PATTERN=<name>] directive with such a name
    switches the compiler to the block strategy. *)
Theorem get_chord_pattern_unknown_is_block (name : string) (ts : Z * Z)
  (Hunknown : ~ In (Py.lower name) chord_pattern_names) :
  get_chord_pattern name ts = ROk (BlockChordPattern CHORD_VELOCITY) /\
  (forall n1 n2, Py.lower n1 = Py.lower n2 ->
     get_chord_pattern n1 ts = get_chord_pattern n2 ts) /\
  (forall cfg st tok rest k,
     Py.startswith tok "#"%char = true ->
     Py.contains "CHORD_PATTERN" (Py.upper tok) = true ->
     Py.split_once (substring 1 (String.length tok) tok) "="%char = [k; name] ->
     Py.lower (Py.strip name) = Py.lower name ->
     exists st', step cfg st tok rest = ROk (st', rest) /\
       current_chord_pattern st' = BlockChordPattern CHORD_VELOCITY).
Proof.
  assert (Hblock : forall n t, ~ In (Py.lower n) chord_pattern_names ->
            get_chord_pattern n t = ROk (BlockChordPattern CHORD_VELOCITY)).
  { intros n t Hn. unfold get_chord_pattern.
    destruct (chord_pattern_table_keys t) as [tbl [Et Ek]]. rewrite Et. cbn [bind].
    rewrite lookup_not_key by (rewrite Ek; exact Hn). reflexivity. }
  split; [apply Hblock; exact Hunknown|]. split.
  - intros n1 n2 E. unfold get_chord_pattern. rewrite E. reflexivity.
  - intros cfg st tok rest k Hh Hc Hs Hl.
    eexists. split.
    + unfold step. rewrite Hh. reflexivity.
    + unfold directive_step. rewrite Hc, Hs.
      rewrite Hblock by (rewrite Hl; exact Hunknown). reflexivity.
Qed.

Lemma get_chord_pattern_unknown_is_block_witness :
  get_chord_pattern "Tango" (4, 4)%Z = ROk (BlockChordPattern CHORD_VELOCITY).
Proof.
  assert (H : ~ In (Py.lower "Tango") chord_pattern_names).
  { vm_compute. intros Hin.
    repeat (destruct Hin as [Hin|Hin]; [discriminate|]). exact Hin. }
  exact (proj1 (get_chord_pattern_unknown_is_block "Tango" (4, 4)%Z H)).
Defined.

(** ** The chord resolver *)

Lemma upper_char_O (c : ascii) :
  Py.upper_char c = "O"%char -> c = "O"%char \/ c = "o"%char.
Proof.
  destruct c as [[] [] [] [] [] [] [] []]; vm_compute; intros H;
    first [discriminate H | left; reflexivity | right; reflexivity].
Qed.

Lemma upper_is_O (sym : string) : Py.upper sym = "O" -> sym = "O" \/ sym = "o".
Proof.
  destruct sym as [|c [|c' s]]; simpl; intros H; try discriminate.
  inversion H as [Hc]. destruct (upper_char_O c Hc); subst; [left|right]; reflexivity.
Qed.

Lemma existsb_eqb_absent (q : string) (names : list string) :
  ~ In q names -> existsb (String.eqb q) names = false.
Proof.
  intros H. apply not_true_iff_false. intros E.
  apply existsb_exists in E as [x [Hx Ex]]. apply String.eqb_eq in Ex. subst. auto.
Qed.

Lemma select_intervals_default (tbl : list (list string * list Z)) (q : string) :
  ~ In q (flat_map fst tbl) -> select_intervals tbl q = [0; 4; 7]%Z.
Proof.
  induction tbl as [|[names ivs] tbl IH]; simpl; intros H; [reflexivity|].
  rewrite existsb_eqb_absent by (intros Hin; apply H, in_or_app; left; exact Hin).
  apply IH. intros Hin. apply H, in_or_app. right. exact Hin.
Qed.

Lemma select_intervals_root (q : string) :
  exists rest, select_intervals chord_qualities q = 0%Z :: rest.
Proof.
  unfold chord_qualities. cbn [select_intervals].
  repeat match goal with
         | |- context [if ?b then _ else _] => destruct b
         end; eexists; reflexivity.
Qed.

(** C6: on a symbol without surrounding white space (as every token is):
    "O" and "o" give the empty list; any other symbol whose root is not
    in the note table raises [ValueError]; a known root with a suffix
    whose lower-case form is not in the quality table gives the major
    triad [0,4,7] on the root; and the first pitch returned is the
    root's table value minus 12. *)
Theorem parse_chord_contract (sym : string)
  (Hstrip : Py.strip sym = sym) (Hne : sym <> "") :
  ((sym = "O" \/ sym = "o") -> _parse_chord sym = ROk []) /\
  (sym <> "O" -> sym <> "o" -> lookup NOTE2MIDI (chord_root sym) = None ->
     _parse_chord sym = RErr ValueError) /\
  (forall r, lookup NOTE2MIDI (chord_root sym) = Some r ->
     ~ In (Py.lower (chord_suffix sym)) known_qualities ->
     _parse_chord sym = ROk [r - 12 + 0; r - 12 + 4; r - 12 + 7]%Z) /\
  (forall r p ps, lookup NOTE2MIDI (chord_root sym) = Some r ->
     _parse_chord sym = ROk (p :: ps) -> p = (r - 12)%Z).
Proof.
  assert (Hroot_O : (sym = "O" \/ sym = "o") -> lookup NOTE2MIDI (chord_root sym) = None)
    by (intros [E|E]; subst; reflexivity).
  split; [intros [E|E]; subst; reflexivity|].
  unfold _parse_chord. rewrite Hstrip.
  destruct (String.eqb (Py.upper sym) "O") eqn:EO.
  { apply String.eqb_eq, upper_is_O in EO.
    split; [intros H1 H2; destruct EO; contradiction|].
    split; intros r; rewrite (Hroot_O EO); discriminate. }
  destruct sym as [|c0 rest]; [congruence|].
  split; [|split].
  - intros _ _ Hnone. unfold chord_root in Hnone.
    destruct rest as [|c1 rest'];
      [|destruct (Ascii.eqb c1 "#"%char || Ascii.eqb c1 "b"%char)];
      rewrite Hnone; reflexivity.
  - intros r Hr Hq. unfold chord_root, chord_suffix in *.
    destruct rest as [|c1 rest'];
      [|destruct (Ascii.eqb c1 "#"%char || Ascii.eqb c1 "b"%char)];
      rewrite Hr; cbn [bind]; rewrite select_intervals_default by exact Hq;
      reflexivity.
  - intros r p ps Hr Hp. unfold chord_root, chord_suffix in *.
    destruct rest as [|c1 rest'];
      [|destruct (Ascii.eqb c1 "#"%char || Ascii.eqb c1 "b"%char)];
      rewrite Hr in Hp; cbn [bind] in Hp;
      match type of Hp with
      | context [select_intervals chord_qualities ?q] =>
          destruct (select_intervals_root q) as [ivs Eivs]; rewrite Eivs in Hp
      end;
      simpl in Hp; inversion Hp; lia.
Qed.

Lemma parse_chord_contract_witness :
  _parse_chord "Bbx9" = ROk [46; 50; 53]%Z /\ _parse_chord "H7" = RErr ValueError.
Proof.
  assert (Hs1 : Py.strip "Bbx9" = "Bbx9") by reflexivity.
  assert (Hn1 : "Bbx9" <> "") by discriminate.
  assert (Hs2 : Py.strip "H7" = "H7") by reflexivity.
  assert (Hn2 : "H7" <> "") by discriminate.
  destruct (parse_chord_contract "Bbx9" Hs1 Hn1) as [_ [_ [H3 _]]].
  destruct (parse_chord_contract "H7" Hs2 Hn2) as [_ [H2 _]].
  split.
  - apply (H3 58%Z); [reflexivity|].
    vm_compute. intros Hin. repeat (destruct Hin as [Hin|Hin]; [discriminate|]). exact Hin.
  - apply H2; [discriminate | discriminate | reflexivity].
Defined.

(** ** The tokenizer *)

Module Tokenizer.

Lemma rstrip_empty_all_space (s : string) : Py.rstrip s = "" -> all_space s = true.
Proof.
  induction s as [|c s IH]; simpl; [reflexivity|].
  destruct (Py.is_space c && String.eqb (Py.rstrip s) "") eqn:E; [|discriminate].
  apply andb_prop in E as [Ec Er]. apply String.eqb_eq in Er.
  intros _. rewrite Ec, (IH Er). reflexivity.
Qed.

Lemma all_space_rstrip_empty (s : string) : all_space s = true -> Py.rstrip s = "".
Proof.
  induction s as [|c s IH]; simpl; [reflexivity|].
  intros H. apply andb_prop in H as [Hc Hs]. rewrite Hc, (IH Hs). reflexivity.
Qed.

Lemma all_space_lstrip (s : string) : all_space s = true -> Py.lstrip s = "".
Proof.
  induction s as [|c s IH]; simpl; [reflexivity|].
  intros H. apply andb_prop in H as [Hc Hs]. rewrite Hc. apply IH, Hs.
Qed.

Lemma strip_empty_all_space (s : string) : Py.strip s = "" -> all_space s = true.
Proof.
  unfold Py.strip. intros H. apply rstrip_empty_all_space in H.
  induction s as [|c s IH]; simpl in *; [reflexivity|].
  destruct (Py.is_space c) eqn:Ec; simpl; [apply IH, H|].
  simpl in H. rewrite Ec in H. discriminate H.
Qed.

Lemma all_space_split_aux (s : string) :
  all_space s = true ->
  forall cur, Py.split_aux s cur
              = match cur with EmptyString => [] | _ => [Py.rev_str cur EmptyString] end.
Proof.
  induction s as [|c s IH]; simpl; intros H cur; [reflexivity|].
  apply andb_prop in H as [Hc Hs]. rewrite Hc, (IH Hs EmptyString).
  destruct cur; reflexivity.
Qed.

Lemma split_aux_rstrip (s : string) :
  forall cur, Py.split_aux (Py.rstrip s) cur = Py.split_aux s cur.
Proof.
  induction s as [|c s IH]; intros cur; [reflexivity|].
  simpl Py.rstrip.
  destruct (Py.is_space c && String.eqb (Py.rstrip s) "") eqn:E.
  - apply andb_prop in E as [Ec Er]. apply String.eqb_eq, rstrip_empty_all_space in Er.
    simpl. rewrite Ec, (all_space_split_aux s Er EmptyString). destruct cur; reflexivity.
  - simpl. destruct (Py.is_space c); rewrite !IH; reflexivity.
Qed.

Lemma split_rstrip (s : string) : Py.split (Py.rstrip s) = Py.split s.
Proof. apply split_aux_rstrip. Qed.

Lemma split_blank (s : string) : Py.strip s = "" -> Py.split s = [].
Proof.
  intros H. unfold Py.split. rewrite (all_space_split_aux s (strip_empty_all_space s H)).
  reflexivity.
Qed.

Lemma startswith_rstrip (s : string) (c : ascii) :
  Py.strip s <> "" -> Py.startswith (Py.rstrip s) c = Py.startswith s c.
Proof.
  intros Hne. destruct s as [|c0 s]; [reflexivity|]. simpl Py.rstrip.
  destruct (Py.is_space c0 && String.eqb (Py.rstrip s) "") eqn:E; [|reflexivity].
  exfalso. apply Hne. apply andb_prop in E as [Ec Er].
  apply String.eqb_eq, rstrip_empty_all_space in Er.
  unfold Py.strip. rewrite all_space_lstrip; [reflexivity|]. simpl. rewrite Ec, Er. reflexivity.
Qed.

Lemma hash_line_not_blank (l : string) :
  Py.startswith l "#"%char = true -> Py.strip l <> "".
Proof.
  intros Hh Hs. apply strip_empty_all_space in Hs.
  destruct l as [|c l]; [discriminate|]. cbn [Py.startswith all_space] in Hh, Hs.
  apply Ascii.eqb_eq in Hh. subst c. discriminate Hs.
Qed.

Lemma parse_lines_body (lines : list string) :
  forall m body m' body', parse_lines lines m body = ROk (m', body') ->
  body' = (body ++ filter body_line lines)%list.
Proof.
  induction lines as [|l lines IH]; simpl; intros m body m' body' H.
  - inversion H. rewrite app_nil_r. reflexivity.
  - unfold body_line at 1.
    destruct (Py.startswith l ";"%char); simpl.
    + apply (IH _ _ _ _ H).
    + destruct (Py.startswith l "#"%char); simpl.
      * destruct (parse_header l m) as [m1|e]; [|discriminate]. apply (IH _ _ _ _ H).
      * rewrite (IH _ _ _ _ H), <- app_assoc. reflexivity.
Qed.

Lemma lookup_setitem_same {V} (m : list (string * V)) (k : string) (v : V) :
  lookup (setitem m k v) k = Some v.
Proof.
  induction m as [|[k' v'] m IH]; simpl; [rewrite String.eqb_refl; reflexivity|].
  destruct (String.eqb k k') eqn:E; simpl; [rewrite String.eqb_refl; reflexivity|].
  rewrite E. exact IH.
Qed.

Lemma lookup_setitem_other {V} (m : list (string * V)) (k k' : string) (v : V) :
  lookup m k' <> None -> lookup (setitem m k v) k' <> None.
Proof.
  induction m as [|[k1 v1] m IH]; simpl; [congruence|].
  destruct (String.eqb k k1) eqn:E; simpl.
  - apply String.eqb_eq in E. subst k1.
    destruct (String.eqb k' k); [discriminate | tauto].
  - destruct (String.eqb k' k1); [discriminate | exact IH].
Qed.

Lemma parse_lines_keeps_keys (lines : list string) :
  forall m body m' body' key, parse_lines lines m body = ROk (m', body') ->
  lookup m key <> None -> lookup m' key <> None.
Proof.
  induction lines as [|l lines IH]; simpl; intros m body m' body' key H Hk.
  - inversion H. subst. exact Hk.
  - destruct (Py.startswith l ";"%char); [apply (IH _ _ _ _ _ H Hk)|].
    destruct (Py.startswith l "#"%char); [|apply (IH _ _ _ _ _ H Hk)].
    unfold parse_header in H.
    destruct (Py.split_once (substring 1 (String.length l) l) "="%char)
      as [|k [|v [|x xs]]]; try discriminate.
    apply (IH _ _ _ _ _ H). apply lookup_setitem_other, Hk.
Qed.

Lemma parse_lines_headers (lines : list string) :
  forall m body m' body', parse_lines lines m body = ROk (m', body') ->
  forall l, In l lines -> Py.startswith l "#"%char = true ->
  exists k v, Py.split_once (substring 1 (String.length l) l) "="%char = [k; v] /\
              lookup m' (Py.upper (Py.strip k)) <> None.
Proof.
  induction lines as [|l0 lines IH]; intros m body m' body' H l Hin Hh; [destruct Hin|].
  simpl in H. destruct Hin as [E|Hin].
  - subst l0. rewrite Hh in H.
    assert (Hsc : Py.startswith l ";"%char = false).
    { destruct l as [|c l]; [discriminate|]. cbn [Py.startswith] in Hh |- *.
      apply Ascii.eqb_eq in Hh. subst c. reflexivity. }
    rewrite Hsc in H. unfold parse_header in H.
    destruct (Py.split_once (substring 1 (String.length l) l) "="%char)
      as [|k [|v [|x xs]]]; try discriminate.
    exists k, v. split; [reflexivity|].
    apply (parse_lines_keeps_keys _ _ _ _ _ _ H).
    rewrite lookup_setitem_same. discriminate.
  - destruct (Py.startswith l0 ";"%char); [apply (IH _ _ _ _ H l Hin Hh)|].
    destruct (Py.startswith l0 "#"%char); [|apply (IH _ _ _ _ H l Hin Hh)].
    destruct (parse_header l0 m) as [m1|e]; [|discriminate].
    apply (IH _ _ _ _ H l Hin Hh).
Qed.

Lemma tokens_of_lines (ls : list string) :
  flat_map Py.split
    (filter body_line
       (map Py.rstrip (filter (fun l => negb (String.eqb (Py.strip l) "")) ls)))
  = flat_map Py.split
      (filter (fun l => negb (Py.startswith l "#"%char || Py.startswith l ";"%char)) ls).
Proof.
  induction ls as [|l ls IH]; [reflexivity|].
  cbn [filter]. destruct (String.eqb (Py.strip l) "") eqn:Eb; cbn [negb map].
  - apply String.eqb_eq in Eb. rewrite IH.
    destruct (negb (Py.startswith l "#"%char || Py.startswith l ";"%char)); cbn [flat_map];
      [rewrite (split_blank l Eb)|]; reflexivity.
  - assert (Hne : Py.strip l <> "") by (intros E; rewrite E in Eb; discriminate).
    cbn [filter]. unfold body_line at 1. rewrite !startswith_rstrip by exact Hne.
    rewrite (orb_comm (Py.startswith l ";"%char)).
    destruct (negb (Py.startswith l "#"%char || Py.startswith l ";"%char));
      cbn [flat_map]; [rewrite split_rstrip, IH; reflexivity|exact IH].
Qed.

End Tokenizer.

(** Claim C9 (counterexample): a directive indented by one space is alone
    on its line, yet the line is kept as body text, since only trailing
    blanks are stripped before the ['#'] test; its directive is a token. *)
Lemma indented_directive_is_token :
  _parse " #CHORD_PATTERN=arpeggio"
  = ROk {| meta := []; tokens := ["#CHORD_PATTERN=arpeggio"] |}.
Proof. vm_compute. reflexivity. Qed.

(** Claim C9 (amended): when [ScoreParser._parse] succeeds, its tokens are
    exactly the whitespace-split words of the input lines whose first
    character is neither ['#'] nor [';'] (blank lines give no words), and
    every line whose first character is ['#'] has the form [#k=v] and its
    key [k.strip().upper()] is in the metadata map.  A line is only
    right-stripped, so an indented directive is a body line. *)
Theorem tokenizer_header_lines_give_no_tokens (text : string) (sp : ScoreParser)
  (H : _parse text = ROk sp) :
  tokens sp
  = flat_map Py.split
      (filter (fun l => negb (Py.startswith l "#"%char || Py.startswith l ";"%char))
         (Py.splitlines text))
  /\ (forall l, In l (Py.splitlines text) -> Py.startswith l "#"%char = true ->
      exists k v,
        Py.split_once (substring 1 (String.length (Py.rstrip l)) (Py.rstrip l)) "="%char
          = [k; v]
        /\ lookup (meta sp) (Py.upper (Py.strip k)) <> None).
Proof.
  unfold _parse in H.
  destruct (parse_lines _ [] []) as [[m body]|e] eqn:Hp; [|discriminate].
  cbn [bind] in H. inversion H; subst sp; clear H. cbn [tokens meta fst snd].
  split.
  - rewrite (Tokenizer.parse_lines_body _ _ _ _ _ Hp). cbn [app].
    apply Tokenizer.tokens_of_lines.
  - intros l Hin Hh.
    pose proof (Tokenizer.hash_line_not_blank l Hh) as Hne.
    apply (Tokenizer.parse_lines_headers _ _ _ _ _ Hp).
    + apply in_map, filter_In. split; [exact Hin|].
      destruct (String.eqb (Py.strip l) "") eqn:E; [|reflexivity].
      apply String.eqb_eq in E. contradiction.
    + rewrite Tokenizer.startswith_rstrip by exact Hne. exact Hh.
Qed.

Lemma tokenizer_header_lines_give_no_tokens_witness :
  _parse "#TEMPO=120
C 1 2 |" = ROk {| meta := [("TEMPO", "120")]; tokens := ["C"; "1"; "2"; "|"] |}
  /\ tokens {| meta := [("TEMPO", "120")]; tokens := ["C"; "1"; "2"; "|"] |}
     = flat_map Py.split
         (filter (fun l => negb (Py.startswith l "#"%char || Py.startswith l ";"%char))
            (Py.splitlines "#TEMPO=120
C 1 2 |")).
Proof.
  assert (H : _parse "#TEMPO=120
C 1 2 |" = ROk {| meta := [("TEMPO", "120")]; tokens := ["C"; "1"; "2"; "|"] |})
    by (vm_compute; reflexivity).
  split; [exact H|].
  exact (proj1 (tokenizer_header_lines_give_no_tokens _ _ H)).
Defined.

(** ** The chord call of the main loop *)

Lemma bind_ok {A B} (c : Res A) (k : A -> Res B) (v : B) :
  bind c k = ROk v -> exists x, c = ROk x /\ k x = ROk v.
Proof. destruct c as [x|e]; simpl; [eauto|discriminate]. Qed.

Lemma chord_call_args_length (cfg : config) (st : state) (notes : list Z)
  (s d : Z) (found : bool) (args : list pyarg) :
  chord_call_args cfg st notes s d found = ROk args -> length args = 7%nat.
Proof.
  unfold chord_call_args. intros H.
  apply bind_ok in H as [ft [_ H]]. inversion H. reflexivity.
Qed.

Lemma call_generate_events_seven (p : ChordPattern) (args : list pyarg) :
  length args = 7%nat -> call_generate_events p args = RErr TypeError.
Proof.
  intros H.
  destruct args as [|a1 [|a2 [|a3 [|a4 [|a5 [|a6 [|a7 [|a8 args]]]]]]]];
    try discriminate.
  destruct a1, a4; reflexivity.
Qed.

(** A chord symbol resolving to pitches never gets past the call. *)
Lemma chord_step_nonempty_fails (cfg : config) (st : state) (tok : string)
  (rest : list string) (p : Z) (ps : list Z) :
  _parse_chord tok = ROk (p :: ps) -> exists e, chord_step cfg st tok rest = RErr e.
Proof.
  intros Hp. unfold chord_step. cbv zeta.
  destruct (chord_span _ _ _) as [d|e]; cbn [bind]; [|eauto].
  rewrite Hp. cbn [bind].
  destruct (chord_call_args _ _ _ _ _ _) as [args|e] eqn:Ha; cbn [bind]; [|eauto].
  rewrite (call_generate_events_seven _ _ (chord_call_args_length _ _ _ _ _ _ _ Ha)).
  cbn [bind]. eauto.
Qed.

(** Claim C1: for a chord symbol resolving to pitches [p :: ps], with
    no chord sounding and a measure of non-zero length, [build_midi]
    computes the span [d] and then hands the strategy seven arguments:
    the pitches, the start tick, the ticks of a whole measure (not [d]),
    the track, the last chord tick and two measure fractions.  The span
    is never passed, and the call fails with a [TypeError]. *)
Theorem chord_call_passes_measure_ticks (cfg : config) (st : state) (tok : string)
  (rest : list string) (p : Z) (ps : list Z) (d : Z)
  (Hp : _parse_chord tok = ROk (p :: ps))
  (Hidle : chord_active st = [])
  (Hd : chord_span cfg (cur_tick st) rest = ROk d)
  (Hbpm : Qeq_bool (beats_per_measure cfg * inject_Z TICKS_PER_BEAT) 0 = false) :
  exists f t,
    chord_call_args cfg st (p :: ps) (cur_tick st) d
      (match next_chord_segment rest with Some _ => true | None => false end)
    = ROk [AChord (p :: ps); AInt (cur_tick st);
           AFloat (beats_per_measure cfg * inject_Z TICKS_PER_BEAT); ATrack;
           AInt (chord_last_tick st); AFloat f; AFloat t]
    /\ chord_step cfg st tok rest = RErr TypeError.
Proof.
  assert (Hargs : exists f t,
    chord_call_args cfg st (p :: ps) (cur_tick st) d
      (match next_chord_segment rest with Some _ => true | None => false end)
    = ROk [AChord (p :: ps); AInt (cur_tick st);
           AFloat (beats_per_measure cfg * inject_Z TICKS_PER_BEAT); ATrack;
           AInt (chord_last_tick st); AFloat f; AFloat t]).
  { unfold chord_call_args, qdiv. rewrite Hbpm.
    destruct (next_chord_segment rest); cbn [bind]; [|eauto].
    repeat match goal with
           | |- context [if ?c then _ else _] => destruct c
           end; cbn [bind]; eauto. }
  destruct Hargs as [f [t Hargs]]. exists f, t. split; [exact Hargs|].
  unfold chord_step. rewrite Hidle. cbv zeta.
  rewrite Hd, Hp. cbn [bind]. rewrite Hargs. reflexivity.
Qed.

Lemma chord_call_passes_measure_ticks_witness :
  chord_span cfg44 0 ["1"; "1"; "G"; "1"; "1"; "|"] = ROk 960%Z /\
  exists f t,
    chord_call_args cfg44 (init_state 0 (BlockChordPattern CHORD_VELOCITY) [] []) [48; 52; 55]%Z
      0%Z 960%Z true
    = ROk [AChord [48; 52; 55]%Z; AInt 0%Z; AFloat (4 * inject_Z TICKS_PER_BEAT); ATrack;
           AInt 0%Z; AFloat f; AFloat t]
    /\ chord_step cfg44 (init_state 0 (BlockChordPattern CHORD_VELOCITY) [] []) "C"
         ["1"; "1"; "G"; "1"; "1"; "|"] = RErr TypeError.
Proof.
  split; [vm_compute; reflexivity|].
  apply (chord_call_passes_measure_ticks cfg44
           (init_state 0 (BlockChordPattern CHORD_VELOCITY) [] []) "C"
           ["1"; "1"; "G"; "1"; "1"; "|"] 48%Z [52; 55]%Z 960%Z);
    vm_compute; reflexivity.
Defined.

(** The whole program on a score whose first measure carries a chord. *)
Lemma jianpu2midi_chord_type_error :
  jianpu2midi "C 1 1 G 1 1 |" = RErr TypeError.
Proof. vm_compute. reflexivity. Qed.

(** ** The main loop never runs out of fuel *)

Lemma nofuel_bind {A B} (c : Res A) (k : A -> Res B) :
  nofuel c -> (forall x, c = ROk x -> nofuel (k x)) -> nofuel (bind c k).
Proof.
  destruct c as [x|e]; simpl; [eauto|].
  intros H _ E. apply H. inversion E. reflexivity.
Qed.

Create HintDb nofuel.

Ltac nofuel_tac :=
  repeat match goal with
  | |- nofuel _ => solve [eauto with nofuel]
  | |- nofuel (ROk _) => let H := fresh in intro H; discriminate H
  | |- nofuel (RErr _) => let H := fresh in intro H; discriminate H
  | |- nofuel (bind _ _) => apply nofuel_bind; [|let x := fresh "x" in
                                                  let Hx := fresh "Hx" in intros x Hx]
  | |- nofuel (match ?x with _ => _ end) => destruct x
  | |- nofuel (if ?x then _ else _) => destruct x
  end.

Ltac res_inv H :=
  repeat match type of H with
  | bind _ _ = ROk _ =>
      let x := fresh "x" in let Hx := fresh "Hx" in
      apply bind_ok in H as [x [Hx H]]
  end.

Lemma beats_nofuel (dur dots : string) (u : Q) : nofuel (_beats dur dots u).
Proof. unfold _beats, getitem, Py.float_of_string. nofuel_tac. Qed.

Lemma degree2midi_nofuel (d : Z) (acc : string) (k : Z) (key : string) :
  nofuel (_degree2midi d acc k key).
Proof. unfold _degree2midi, getitem, Py.index. cbv zeta. nofuel_tac. Qed.

#[local] Hint Resolve beats_nofuel degree2midi_nofuel : nofuel.

Lemma tie_merge_nofuel (cfg : config) (pitch : Z) (toks : list string) :
  forall tie b, nofuel (tie_merge cfg pitch tie b toks).
Proof.
  induction toks as [|t ts IH]; intros tie b; simpl; nofuel_tac.
Qed.

Lemma span_tie_merge_nofuel (cfg : config) (toks : list string) :
  forall tie b, nofuel (span_tie_merge cfg tie b toks).
Proof.
  induction toks as [|t ts IH]; intros tie b; simpl; nofuel_tac.
Qed.

#[local] Hint Resolve tie_merge_nofuel span_tie_merge_nofuel : nofuel.

(** The tie merges only consume note tokens. *)
Lemma tie_merge_suffix (cfg : config) (pitch : Z) (toks : list string) :
  forall tie b b' r, tie_merge cfg pitch tie b toks = ROk (b', r) ->
  exists pre, toks = (pre ++ r)%list /\ Forall (fun t => Re.note_match t <> None) pre.
Proof.
  induction toks as [|t ts IH]; intros tie b b' r H; simpl in H.
  - destruct tie; inversion H; exists []; auto.
  - destruct tie; simpl in H; [|inversion H; exists []; auto].
    destruct (Re.note_match t) as [g|] eqn:Eg; [|inversion H; exists []; auto].
    res_inv H.
    destruct (negb (x =? pitch)%Z); [inversion H; exists []; auto|].
    res_inv H.
    destruct (IH _ _ _ _ H) as [pre [Hts Hpre]].
    exists (t :: pre). split; [rewrite Hts; reflexivity|].
    constructor; [rewrite Eg; discriminate|exact Hpre].
Qed.

Lemma span_tie_merge_suffix (cfg : config) (toks : list string) :
  forall tie b b' r, span_tie_merge cfg tie b toks = ROk (b', r) ->
  exists pre, toks = (pre ++ r)%list.
Proof.
  induction toks as [|t ts IH]; intros tie b b' r H; simpl in H.
  - destruct tie; inversion H; exists []; auto.
  - destruct tie; simpl in H; [|inversion H; exists []; auto].
    destruct (Re.note_match t) as [g|] eqn:Eg; [|inversion H; exists []; auto].
    res_inv H.
    destruct (IH _ _ _ _ H) as [pre Hts].
    exists (t :: pre). rewrite Hts. reflexivity.
Qed.

Lemma segment_ticks_nofuel (cfg : config) (fuel : nat) :
  forall seg temp, (length seg < fuel)%nat -> nofuel (segment_ticks cfg fuel seg temp).
Proof.
  induction fuel as [|f IH]; intros seg temp H; [lia|].
  destruct seg as [|t ts]; simpl; [intro; discriminate|]. simpl in H.
  destruct (Py.startswith t "#"%char || is_bar t); [apply IH; lia|].
  destruct (Re.rest_match t) as [[dur dots]|].
  { apply nofuel_bind; [apply beats_nofuel|intros b _; apply IH; lia]. }
  destruct (Re.note_match t) as [g|]; [|apply IH; lia].
  apply nofuel_bind; [apply beats_nofuel|intros b _].
  apply nofuel_bind; [apply span_tie_merge_nofuel|intros [b' r] Hr].
  destruct (span_tie_merge_suffix _ _ _ _ _ _ Hr) as [pre ->].
  apply IH. rewrite length_app in H. simpl. lia.
Qed.

Lemma chord_span_nofuel (cfg : config) (cur : Z) (rest : list string) :
  nofuel (chord_span cfg cur rest).
Proof.
  unfold chord_span. destruct (next_chord_segment rest) as [seg|]; [|intro; discriminate].
  apply nofuel_bind; [apply segment_ticks_nofuel; lia|intros; intro; discriminate].
Qed.

Lemma parse_chord_nofuel (sym : string) : nofuel (_parse_chord sym).
Proof. unfold _parse_chord. cbv zeta. nofuel_tac. Qed.

Lemma chord_call_args_nofuel (cfg : config) (st : state) (notes : list Z)
  (s d : Z) (found : bool) : nofuel (chord_call_args cfg st notes s d found).
Proof. unfold chord_call_args, qdiv. cbv zeta. nofuel_tac. Qed.

Lemma chord_step_nofuel (cfg : config) (st : state) (tok : string) (rest : list string) :
  nofuel (chord_step cfg st tok rest).
Proof.
  unfold chord_step. cbv zeta.
  apply nofuel_bind; [apply chord_span_nofuel|intros d _].
  apply nofuel_bind; [apply parse_chord_nofuel|intros notes _].
  destruct notes as [|n ns]; [intro; discriminate|].
  apply nofuel_bind; [apply chord_call_args_nofuel|intros args Ha].
  rewrite (call_generate_events_seven _ _ (chord_call_args_length _ _ _ _ _ _ _ Ha)).
  intro; discriminate.
Qed.

#[local] Hint Resolve chord_step_nofuel : nofuel.

Lemma step_nofuel (cfg : config) (st : state) (tok : string) (rest : list string) :
  nofuel (step cfg st tok rest).
Proof.
  unfold step, bar_step, rest_step, note_step. cbv zeta. nofuel_tac.
Qed.

(** One turn of the loop leaves a suffix of the tokens after [tok];
    it only skips note tokens (the tie merge). *)
Lemma step_suffix (cfg : config) (st : state) (tok : string) (rest : list string)
  (st' : state) (rest' : list string) :
  step cfg st tok rest = ROk (st', rest') ->
  exists pre, rest = (pre ++ rest')%list /\ Forall (fun t => Re.note_match t <> None) pre.
Proof.
  unfold step. intros H.
  destruct (Py.startswith tok "#"%char); [inversion H; exists []; auto|].
  destruct (is_bar tok); [res_inv H; inversion H; exists []; auto|].
  destruct (negb (is_recording st)); [inversion H; exists []; auto|].
  destruct (Re.rest_match tok) as [[dur dots]|]; [res_inv H; inversion H; exists []; auto|].
  destruct (is_chord_token tok); [res_inv H; inversion H; exists []; auto|].
  destruct (Re.note_match tok) as [g|]; [|discriminate].
  unfold note_step in H. res_inv H. destruct x1 as [b r].
  inversion H; subst. eapply tie_merge_suffix; eassumption.
Qed.

Lemma run_nofuel (cfg : config) (fuel : nat) :
  forall st toks, (length toks < fuel)%nat -> nofuel (run cfg fuel st toks).
Proof.
  induction fuel as [|f IH]; intros st toks H; [lia|].
  destruct toks as [|tok rest]; simpl; [intro; discriminate|]. simpl in H.
  destruct (stop_here cfg st); [intro; discriminate|].
  apply nofuel_bind; [apply step_nofuel|intros [st' rest'] Hs].
  destruct (step_suffix _ _ _ _ _ _ Hs) as [pre [-> _]].
  apply IH. rewrite length_app in H. simpl. lia.
Qed.

Lemma finish_nofuel (cfg : config) (st : state) : nofuel (finish cfg st).
Proof. unfold finish. cbv zeta. nofuel_tac. Qed.

Lemma get_chord_pattern_nofuel (name : string) (ts : Z * Z) :
  nofuel (get_chord_pattern name ts).
Proof.
  unfold get_chord_pattern, chord_pattern_table.
  destruct (adv_guitar_init_ok CHORD_VELOCITY (3 # 100) ts "basic") as [a1 ->].
  destruct (adv_guitar_init_ok CHORD_VELOCITY (3 # 100) ts "folk") as [a2 ->].
  destruct (adv_guitar_init_ok CHORD_VELOCITY (3 # 100) ts "rock") as [a3 ->].
  destruct (adv_guitar_init_ok CHORD_VELOCITY (3 # 100) ts "ballad") as [a4 ->].
  destruct (adv_guitar_init_ok CHORD_VELOCITY (3 # 100) ts "country") as [a5 ->].
  destruct (adv_guitar_init_ok CHORD_VELOCITY (3 # 100) (3, 4)%Z "waltz") as [a6 ->].
  cbn [bind]. nofuel_tac.
Qed.

#[local] Hint Resolve run_nofuel finish_nofuel get_chord_pattern_nofuel : nofuel.

Lemma build_midi_nofuel (parser : ScoreParser) (from_m : Z) (to_m : option Z) :
  nofuel (build_midi parser from_m to_m).
Proof.
  unfold build_midi, compile, Py.int_of_string, _norm_key. cbv zeta.
  nofuel_tac.
Qed.

(** ** A chord symbol stops the compile *)

Lemma chord_token_shape (tok : string) :
  is_chord_token tok = true ->
  Py.startswith tok "#"%char = false /\ is_bar tok = false /\
  Re.rest_match tok = None /\ Re.note_match tok = None.
Proof.
  unfold is_chord_token. intros H. apply andb_prop in H as [Hc Hn].
  destruct (Re.note_match tok); [discriminate|].
  destruct tok as [|c s]; [discriminate|].
  unfold Re.chord_match in Hc. apply orb_prop in Hc as [Hc|Hc].
  - apply andb_prop in Hc as [Hc _].
    unfold Re.in_chars in Hc. apply existsb_exists in Hc as [x [Hx Hcx]].
    apply Ascii.eqb_eq in Hcx. subst x. simpl in Hx.
    repeat (destruct Hx as [<-|Hx]; [repeat split; reflexivity|]). destruct Hx.
  - apply String.eqb_eq in Hc. inversion Hc; subst.
    repeat split; reflexivity.
Qed.

Lemma chord_step_fields (cfg : config) (st : state) (tok : string) (rest : list string)
  (st' : state) :
  chord_step cfg st tok rest = ROk st' ->
  is_recording st' = is_recording st /\ current_measure st' = current_measure st.
Proof.
  unfold chord_step. cbv zeta. intros H.
  destruct (chord_active st) eqn:Ea; res_inv H;
    (destruct x0 as [|n ns]; [inversion H; auto|]);
    res_inv H; inversion H; auto.
Qed.

(** Recording from measure 1 on, every turn keeps recording. *)
Lemma step_keeps_recording (cfg : config) (st : state) (tok : string)
  (rest : list string) (st' : state) (rest' : list string) :
  (from_measure cfg <= 1)%Z ->
  is_recording st = true -> (1 <= current_measure st)%Z ->
  step cfg st tok rest = ROk (st', rest') ->
  is_recording st' = true /\ (1 <= current_measure st')%Z.
Proof.
  intros Hfrom Hrec Hcm. unfold step. intros H.
  destruct (Py.startswith tok "#"%char).
  { inversion H; subst. unfold directive_step.
    repeat match goal with
           | |- context [match ?x with _ => _ end] => destruct x
           | |- context [if ?x then _ else _] => destruct x
           end; simpl; auto. }
  destruct (is_bar tok).
  { res_inv H. inversion H; subst. unfold bar_step in Hx.
    destruct (Qle_bool (- EPS) _); [|discriminate]. inversion Hx; subst. simpl.
    split; [apply Z.leb_le|]; lia. }
  rewrite Hrec in H. simpl in H.
  destruct (Re.rest_match tok) as [[dur dots]|].
  { res_inv H. inversion H; subst. unfold rest_step in Hx. res_inv Hx.
    inversion Hx; subst. simpl. auto. }
  destruct (is_chord_token tok).
  { res_inv H. inversion H; subst.
    destruct (chord_step_fields _ _ _ _ _ Hx) as [-> ->]. auto. }
  destruct (Re.note_match tok) as [g|]; [|discriminate].
  unfold note_step in H. res_inv H. destruct x1 as [b r].
  inversion H; subst. simpl. auto.
Qed.

Lemma run_chord_not_ok (cfg : config) (Hto : to_measure cfg = None)
  (Hfrom : (from_measure cfg <= 1)%Z) (fuel : nat) :
  forall st toks tok p ps,
  is_recording st = true -> (1 <= current_measure st)%Z ->
  In tok toks -> is_chord_token tok = true -> _parse_chord tok = ROk (p :: ps) ->
  forall st', run cfg fuel st toks <> ROk st'.
Proof.
  induction fuel as [|f IH]; intros st toks tok p ps Hrec Hcm Hin Hch Hp st';
    simpl; [discriminate|].
  destruct toks as [|t rest]; [destruct Hin|].
  unfold stop_here. rewrite Hto.
  destruct (step cfg st t rest) as [[st1 rest1]|e] eqn:Hs; cbn [bind]; [|discriminate].
  destruct Hin as [->|Hin].
  - destruct (chord_token_shape tok Hch) as [H1 [H2 [H3 _]]].
    destruct (chord_step_nonempty_fails cfg st tok rest p ps Hp) as [e He].
    unfold step in Hs. rewrite H1, H2, Hrec, H3, Hch, He in Hs. discriminate.
  - destruct (step_keeps_recording _ _ _ _ _ _ Hfrom Hrec Hcm Hs) as [Hrec1 Hcm1].
    destruct (step_suffix _ _ _ _ _ _ Hs) as [pre [-> Hpre]].
    apply in_app_or in Hin as [Hin|Hin].
    + exfalso. rewrite Forall_forall in Hpre. apply (Hpre tok Hin).
      apply chord_token_shape, Hch.
    + exact (IH st1 rest1 tok p ps Hrec1 Hcm1 Hin Hch Hp st').
Qed.

(** Claim C2 (counterexample): with [from_measure = 2], a chord symbol in
    measure 1 is skipped, and [build_midi] succeeds. *)
Lemma chord_before_from_measure_is_skipped :
  _parse_chord "C" = ROk [48; 52; 55]%Z /\
  exists out, build_midi {| meta := []; tokens := ["C"; "1"; "|"] |} 2 None = ROk out.
Proof. split; [vm_compute; reflexivity|eexists; vm_compute; reflexivity]. Qed.

(** Claim C2 (amended): when every measure is compiled ([from_measure <= 1]
    and no [to_measure]), [build_midi] fails on every score whose tokens
    hold a chord symbol resolving to a non-empty pitch list, with an
    exception of the program (a [TypeError] from the seven-argument call
    unless an earlier token or a header raised first). *)
Theorem build_midi_chord_symbol_raises (parser : ScoreParser) (from_m : Z)
  (tok : string) (p : Z) (ps : list Z)
  (Hfrom : (from_m <= 1)%Z)
  (Hin : In tok (tokens parser))
  (Hch : is_chord_token tok = true)
  (Hp : _parse_chord tok = ROk (p :: ps)) :
  exists e, build_midi parser from_m None = RErr e /\ e <> OutOfFuel.
Proof.
  destruct (build_midi parser from_m None) as [out|e] eqn:Hb.
  - exfalso. unfold build_midi, compile in Hb. cbv zeta in Hb.
    repeat match type of Hb with
           | bind _ _ = ROk _ => res_inv Hb
           | (match ?t with (_, _) => _ end) = ROk _ => destruct t
           | (if ?c then _ else _) = ROk _ => destruct c; [discriminate|]
           end.
    match goal with
    | Hc : bind (run _ _ _ _) _ = ROk _ |- _ => res_inv Hc
    end.
    match goal with
    | Hr : run _ _ _ _ = ROk _ |- _ =>
        refine (run_chord_not_ok _ _ _ _ _ _ tok p ps _ _ Hin Hch Hp _ Hr)
    end; simpl; try reflexivity; try (apply Z.leb_le); lia.
  - exists e. split; [reflexivity|].
    intros ->. apply (build_midi_nofuel parser from_m None Hb).
Qed.

Lemma build_midi_chord_symbol_raises_witness :
  exists e, build_midi {| meta := []; tokens := ["C"; "1"; "1"; "1"; "1"; "|"] |} 0 None
            = RErr e /\ e <> OutOfFuel.
Proof.
  apply (build_midi_chord_symbol_raises _ 0 "C" 48 [52; 55]%Z);
    [lia | simpl; auto | vm_compute; reflexivity | vm_compute; reflexivity].
Defined.

(** ** Measure lengths *)







(** ** Further properties of the code *)

(** *** utils.py: [_norm_key] *)










(** *** utils.py: [_degree2midi] *)

(** A sharp raises and a flat lowers the natural degree by one
    semitone; any other accidental string counts as natural. *)
Theorem degree2midi_accidentals (deg oct : Z) (key acc : string) :
  _degree2midi deg "#" oct key = (p <- _degree2midi deg "" oct key ;; ROk (p + 1)%Z) /\
  _degree2midi deg "b" oct key = (p <- _degree2midi deg "" oct key ;; ROk (p - 1)%Z) /\
  (acc <> "#" -> acc <> "b" -> _degree2midi deg acc oct key = _degree2midi deg "" oct key).
Proof.
  unfold _degree2midi.
  destruct (getitem NOTE2MIDI key) as [r|e]; [|repeat split; reflexivity]. cbn [bind].
  destruct (Py.index MAJOR_INTERVALS (deg - 1)) as [iv|e]; [|repeat split; reflexivity].
  cbn [bind]. repeat split.
  - cbn. f_equal. lia.
  - cbn. f_equal. lia.
  - intros H1 H2. apply String.eqb_neq in H1, H2. rewrite H1, H2. reflexivity.
Qed.

Lemma degree2midi_accidentals_witness :
  ("x" <> "#" /\ "x" <> "b") /\
  (_degree2midi 3 "x" 1 "C" = _degree2midi 3 "" 1 "C").
Proof.
  split; [split; discriminate|].
  refine (proj2 (proj2 (degree2midi_accidentals 3 1 "C" "x")) _ _); discriminate.
Defined.

(** The degree indexes the major scale with Python's negative indices:
    degrees [-6 .. 0] give the same pitch as the degree seven above; with
    a known key, a degree outside [-6 .. 7] raises [IndexError]. *)
Theorem degree2midi_degree_range (deg oct : Z) (acc key : string) :
  lookup NOTE2MIDI key <> None ->
  ((-6 <= deg <= 0)%Z -> _degree2midi deg acc oct key = _degree2midi (deg + 7) acc oct key) /\
  ((deg < -6 \/ 7 < deg)%Z -> _degree2midi deg acc oct key = RErr IndexError).
Proof.
  intros Hk. unfold _degree2midi, getitem.
  destruct (lookup NOTE2MIDI key) as [r|]; [|congruence]. cbn [bind]. split.
  - intros Hd.
    assert (deg = -6 \/ deg = -5 \/ deg = -4 \/ deg = -3 \/ deg = -2 \/ deg = -1 \/ deg = 0)%Z
      as Hc by lia.
    repeat destruct Hc as [->|Hc]; subst; reflexivity.
  - intros Hd. unfold Py.index. cbn [length MAJOR_INTERVALS].
    destruct (deg - 1 <? 0)%Z eqn:E.
    + apply Z.ltb_lt in E.
      replace ((deg - 1 + Z.of_nat 7 <? 0) || (Z.of_nat 7 <=? deg - 1 + Z.of_nat 7))%Z
        with true by (symmetry; apply orb_true_iff; left; apply Z.ltb_lt; lia).
      reflexivity.
    + apply Z.ltb_ge in E.
      replace ((deg - 1 <? 0) || (Z.of_nat 7 <=? deg - 1))%Z
        with true by (symmetry; apply orb_true_iff; right; apply Z.leb_le; lia).
      reflexivity.
Qed.

Lemma degree2midi_degree_range_witness :
  lookup NOTE2MIDI "G" <> None /\
  _degree2midi 0 "" 0 "G" = _degree2midi 7 "" 0 "G" /\
  _degree2midi 8 "" 0 "G" = RErr IndexError.
Proof.
  split; [discriminate|].
  destruct (degree2midi_degree_range 0 0 "" "G" ltac:(discriminate)) as [H1 _].
  destruct (degree2midi_degree_range 8 0 "" "G" ltac:(discriminate)) as [_ H2].
  split; [apply H1; lia | apply H2; lia].
Defined.

(** The key is looked up first: an unknown key raises [KeyError]
    whatever the degree. *)
Theorem degree2midi_unknown_key (deg oct : Z) (acc key : string) :
  lookup NOTE2MIDI key = None -> _degree2midi deg acc oct key = RErr KeyError.
Proof. intros H. unfold _degree2midi, getitem. rewrite H. reflexivity. Qed.

Lemma degree2midi_unknown_key_witness :
  lookup NOTE2MIDI "H" = None /\ _degree2midi 9 "#" 0 "H" = RErr KeyError.
Proof. split; [reflexivity | apply degree2midi_unknown_key; reflexivity]. Defined.

(** *** parse_chord.py: [Chord.__getitem__] and [_parse_chord] *)

(** A negative index skips the octave loop and indexes the pitches
    from the end, as a Python list does, with no octave shift; below
    [-len] it raises [IndexError]. *)
Theorem chord_getitem_negative (notes : list Z) (i : Z) :
  (i < 0)%Z ->
  ((- Z.of_nat (length notes) <= i)%Z ->
     chord_getitem notes i = ROk (nth (Z.to_nat (Z.of_nat (length notes) + i)) notes 0%Z)) /\
  ((i < - Z.of_nat (length notes))%Z -> chord_getitem notes i = RErr IndexError).
Proof.
  intros Hi. unfold chord_getitem. cbn [chord_getitem_loop].
  replace (i >=? Z.of_nat (length notes))%Z with false
    by (symmetry; rewrite Z.geb_leb; apply Z.leb_gt; lia).
  unfold Py.index. replace (i <? 0)%Z with true by (symmetry; apply Z.ltb_lt; lia).
  split; intros Hb.
  - replace ((i + Z.of_nat (length notes) <? 0) ||
             (Z.of_nat (length notes) <=? i + Z.of_nat (length notes)))%Z with false
      by (symmetry; apply orb_false_iff; split; [apply Z.ltb_ge | apply Z.leb_gt]; lia).
    rewrite (nth_error_nth' notes 0%Z) by lia. cbn [bind].
    rewrite (Z.add_comm (Z.of_nat (length notes)) i). f_equal. lia.
  - replace ((i + Z.of_nat (length notes) <? 0) ||
             (Z.of_nat (length notes) <=? i + Z.of_nat (length notes)))%Z with true
      by (symmetry; apply orb_true_iff; left; apply Z.ltb_lt; lia).
    reflexivity.
Qed.

Lemma chord_getitem_negative_witness :
  (-1 < 0)%Z /\ chord_getitem [48; 52; 55]%Z (-1) = ROk 55%Z /\
  chord_getitem [48; 52; 55]%Z (-4) = RErr IndexError.
Proof.
  split; [lia|].
  destruct (chord_getitem_negative [48; 52; 55]%Z (-1) ltac:(lia)) as [H1 _].
  destruct (chord_getitem_negative [48; 52; 55]%Z (-4) ltac:(lia)) as [_ H2].
  split; [apply H1; simpl; lia | apply H2; simpl; lia].
Defined.

(** Indexing the empty chord (the symbol "O") with [i >= 0] never
    returns: [item -= len(self.notes)] subtracts 0 forever. *)
Theorem chord_getitem_empty_diverges (fuel : nat) (i octave : Z) :
  (0 <= i)%Z -> chord_getitem_loop fuel [] i octave = RErr OutOfFuel.
Proof.
  revert octave. induction fuel as [|fuel IH]; intros octave Hi; cbn [chord_getitem_loop length Z.of_nat].
  - replace (i >=? 0)%Z with true by (symmetry; rewrite Z.geb_leb; apply Z.leb_le; lia).
    reflexivity.
  - replace (i >=? 0)%Z with true by (symmetry; rewrite Z.geb_leb; apply Z.leb_le; lia).
    rewrite Z.sub_0_r. apply IH. exact Hi.
Qed.

Lemma chord_getitem_empty_diverges_witness :
  (0 <= 3)%Z /\ chord_getitem_loop 100 [] 3 0 = RErr OutOfFuel.
Proof. split; [lia | apply chord_getitem_empty_diverges; lia]. Defined.

Lemma select_intervals_cases (q : string) :
  In (select_intervals chord_qualities q)
    ([0; 4; 7]%Z :: map snd chord_qualities).
Proof.
  unfold chord_qualities. cbn [select_intervals].
  repeat match goal with
  | |- In (if ?c then _ else _) _ => destruct c; [simpl; tauto|]
  end.
  simpl; tauto.
Qed.

Lemma lookup_in_values {V} (m : list (string * V)) (k : string) (v : V) :
  lookup m k = Some v -> In v (map snd m).
Proof.
  induction m as [|[k' v'] m IH]; simpl; [discriminate|].
  destruct (String.eqb k k'); [intros H; inversion H; left; reflexivity|].
  intros H. right. apply IH, H.
Qed.

Lemma sorted_shift (c : Z) (l : list Z) :
  Sorted Z.lt l -> Sorted Z.lt (map (fun x => c + x)%Z l).
Proof.
  induction 1 as [|x l Hs IH Hh]; simpl; constructor; [exact IH|].
  destruct Hh as [|y l' Hxy]; simpl; constructor. lia.
Qed.

Lemma intervals_shape (q : string) :
  Sorted Z.lt (select_intervals chord_qualities q) /\
  Forall (fun x => 0 <= x <= 14)%Z (select_intervals chord_qualities q) /\
  select_intervals chord_qualities q <> [].
Proof.
  pose proof (select_intervals_cases q) as Hs. revert Hs.
  generalize (select_intervals chord_qualities q) as ivs. intros ivs Hs. simpl in Hs.
  repeat destruct Hs as [<-|Hs]; try contradiction;
    (split; [repeat constructor; lia | split; [repeat constructor; lia | discriminate]]).
Qed.

Lemma shift_window (c : Z) (l : list Z) :
  hd 1%Z l = 0%Z -> Forall (fun x => 0 <= x <= 14)%Z l ->
  Forall (fun p : Z => (hd 0%Z (map (fun x => c + x)%Z l) <= p
                        <= hd 0%Z (map (fun x => c + x)%Z l) + 14)%Z)
    (map (fun x => c + x)%Z l).
Proof.
  intros Hh Hb. destruct l as [|x l]; [discriminate|].
  cbn [hd] in Hh. subst x.
  apply Forall_map. eapply Forall_impl; [|exact Hb]. intros x Hx. cbv beta in Hx |- *. cbn [map hd]. lia.
Qed.

Lemma intervals_head (q : string) : hd 1%Z (select_intervals chord_qualities q) = 0%Z.
Proof.
  pose proof (select_intervals_cases q) as Hs. revert Hs.
  generalize (select_intervals chord_qualities q) as ivs. intros ivs Hs. simpl in Hs.
  repeat destruct Hs as [<-|Hs]; try contradiction; reflexivity.
Qed.

(** A chord symbol that parses gives its pitches in strictly ascending
    order, the first being the root one octave below its [NOTE2MIDI]
    entry and the others at most a ninth (14 semitones) above it, whatever
    the table's values; only "O" gives no pitch. *)
Theorem parse_chord_ascending (sym : string) (ns : list Z) :
  _parse_chord sym = ROk ns ->
  Sorted Z.lt ns /\ Forall (fun p : Z => (hd 0%Z ns <= p <= hd 0%Z ns + 14)%Z) ns /\
  (ns = [] -> Py.upper sym = "O").
Proof.
  unfold _parse_chord.
  destruct (String.eqb (Py.upper sym) "O") eqn:EO.
  { intros H. inversion H; subst. apply String.eqb_eq in EO.
    split; [constructor|]. split; [constructor|]. intros _; exact EO. }
  destruct (Py.strip sym) as [|c0 rest]; [discriminate|].
  match goal with |- (let '(_, _) := ?x in _) = _ -> _ => destruct x as [root qual] end.
  destruct (lookup NOTE2MIDI root) as [r|] eqn:Er; [|discriminate]. cbn [bind].
  intros H. injection H as <-.
  destruct (intervals_shape (Py.lower qual)) as [Hs [Hb Hn]].
  pose proof (intervals_head (Py.lower qual)) as Hh.
  split; [|split].
  - apply sorted_shift. exact Hs.
  - apply shift_window; [exact Hh | exact Hb].
  - intros He. apply map_eq_nil in He. contradiction.
Qed.

Lemma parse_chord_ascending_witness :
  _parse_chord "Ab9" = ROk [56; 60; 63; 66; 70]%Z /\
  Sorted Z.lt [56; 60; 63; 66; 70]%Z /\
  Forall (fun p : Z => (hd 0%Z [56; 60; 63; 66; 70]%Z <= p <= hd 0%Z [56; 60; 63; 66; 70]%Z + 14)%Z)
    [56; 60; 63; 66; 70]%Z /\
  ([56; 60; 63; 66; 70]%Z = [] -> Py.upper "Ab9" = "O").
Proof.
  split; [vm_compute; reflexivity|].
  apply parse_chord_ascending. vm_compute. reflexivity.
Defined.

(** The quality is lower-cased before it is looked up, so an upper-case
    "M7" suffix selects the minor seventh, never the [maj7]/[M7] entry. *)
Theorem parse_chord_M7_is_minor (c0 : ascii) (acc : string) :
  Py.is_space c0 = false -> In acc [""; "#"; "b"] ->
  _parse_chord (String c0 (acc ++ "M7")) = _parse_chord (String c0 (acc ++ "m7")).
Proof.
  intros Hc Ha. unfold _parse_chord.
  simpl in Ha. destruct Ha as [<-|[<-|[<-|[]]]];
    unfold Py.strip; cbn [append Py.lstrip]; rewrite Hc;
    cbn [Py.upper String.eqb Ascii.eqb Py.rstrip]; rewrite ?Hc; reflexivity.
Qed.

Lemma parse_chord_M7_is_minor_witness :
  Py.is_space "F"%char = false /\ In "#" [""; "#"; "b"] /\
  _parse_chord "F#M7" = _parse_chord "F#m7" /\ _parse_chord "F#m7" = ROk [54; 57; 61; 64]%Z.
Proof.
  split; [reflexivity|]. split; [simpl; tauto|]. split.
  - exact (parse_chord_M7_is_minor "F"%char "#" eq_refl ltac:(simpl; tauto)).
  - vm_compute. reflexivity.
Defined.

(** *** main.py: [ScoreParser._parse], header lines *)

Module HeaderFacts.

Lemma lookup_setitem {V} (m : list (string * V)) (k k' : string) (v : V) :
  lookup (setitem m k v) k' = if String.eqb k k' then Some v else lookup m k'.
Proof.
  induction m as [|[k1 v1] m IH].
  - cbn [setitem lookup]. rewrite String.eqb_sym. reflexivity.
  - cbn [setitem]. destruct (String.eqb k k1) eqn:E; cbn [lookup].
    + apply String.eqb_eq in E. subst k1. rewrite (String.eqb_sym k' k).
      destruct (String.eqb k k'); reflexivity.
    + rewrite IH. destruct (String.eqb k k') eqn:E2; [|reflexivity].
      apply String.eqb_eq in E2. subst k'. rewrite E. reflexivity.
Qed.

Lemma parse_lines_last (lines : list string) :
  forall m body m' body' key, parse_lines lines m body = ROk (m', body') ->
  lookup m' key = last_header lines key (lookup m key).
Proof.
  induction lines as [|l lines IH]; simpl; intros m body m' body' key H.
  - inversion H. reflexivity.
  - destruct (Py.startswith l "#"%char) eqn:Eh.
    + assert (Hsc : Py.startswith l ";"%char = false).
      { destruct l as [|c l]; [discriminate|]. cbn [Py.startswith] in Eh |- *.
        apply Ascii.eqb_eq in Eh. subst c. reflexivity. }
      rewrite Hsc in H. unfold parse_header in H. unfold header_kv.
      destruct (Py.split_once (substring 1 (String.length l) l) "="%char)
        as [|k [|v [|x xs]]]; try discriminate.
      cbn [bind] in H. rewrite (IH _ _ _ _ key H), lookup_setitem. reflexivity.
    + destruct (Py.startswith l ";"%char); apply (IH _ _ _ _ key H).
Qed.

Lemma last_header_blank (ls : list string) (key : string) (acc : option string) :
  last_header (map Py.rstrip (filter (fun l => negb (String.eqb (Py.strip l) "")) ls)) key acc
  = last_header (map Py.rstrip ls) key acc.
Proof.
  revert acc. induction ls as [|l ls IH]; intros acc; [reflexivity|].
  cbn [filter]. destruct (String.eqb (Py.strip l) "") eqn:Eb; cbn [negb map last_header].
  - apply String.eqb_eq, Tokenizer.strip_empty_all_space in Eb.
    rewrite (Tokenizer.all_space_rstrip_empty l Eb). cbn [Py.startswith]. apply IH.
  - apply IH.
Qed.

Lemma parse_lines_err (lines : list string) :
  forall m body e, parse_lines lines m body = RErr e -> e = ValueError.
Proof.
  induction lines as [|l lines IH]; simpl; intros m body e H; [discriminate|].
  destruct (Py.startswith l ";"%char); [apply (IH _ _ _ H)|].
  destruct (Py.startswith l "#"%char); [|apply (IH _ _ _ H)].
  unfold parse_header in H.
  destruct (Py.split_once (substring 1 (String.length l) l) "="%char)
    as [|k [|v [|x xs]]]; cbn [bind] in H; try (inversion H; reflexivity).
  apply (IH _ _ _ H).
Qed.

Lemma parse_lines_bad (lines : list string) (l : string) :
  In l lines -> Py.startswith l "#"%char = true ->
  (forall m, parse_header l m = RErr ValueError) ->
  forall m body, parse_lines lines m body = RErr ValueError.
Proof.
  intros Hin Hh Hbad. induction lines as [|l0 lines IH]; [destruct Hin|].
  intros m body. simpl. destruct Hin as [->|Hin].
  - assert (Hsc : Py.startswith l ";"%char = false).
    { destruct l as [|c l]; [discriminate|]. cbn [Py.startswith] in Hh |- *.
      apply Ascii.eqb_eq in Hh. subst c. reflexivity. }
    rewrite Hsc, Hh, Hbad. reflexivity.
  - destruct (Py.startswith l0 ";"%char); [apply (IH Hin)|].
    destruct (Py.startswith l0 "#"%char); [|apply (IH Hin)].
    destruct (parse_header l0 m) as [m1|e] eqn:Ep; cbn [bind]; [apply (IH Hin)|].
    unfold parse_header in Ep.
    destruct (Py.split_once (substring 1 (String.length l0) l0) "="%char)
      as [|k [|v [|x xs]]]; inversion Ep; reflexivity.
Qed.

Lemma substring_all (s : string) :
  forall n, (String.length s <= n)%nat -> substring 0 n s = s.
Proof.
  induction s as [|c s IH]; intros [|n] Hn; simpl in *; try reflexivity; [lia|].
  rewrite IH by lia. reflexivity.
Qed.

Lemma split_once_no_sep (s : string) :
  Py.contains "=" s = false -> Py.split_once s "="%char = [s].
Proof.
  induction s as [|c s IH]; [reflexivity|].
  cbn [Py.contains Py.prefix_of Py.split_once].
  intros H. apply orb_false_iff in H as [Hp Hc].
  rewrite andb_true_r in Hp. rewrite Ascii.eqb_sym, Hp, (IH Hc). reflexivity.
Qed.

Lemma contains_rstrip (s : string) :
  Py.contains "=" s = false -> Py.contains "=" (Py.rstrip s) = false.
Proof.
  induction s as [|c s IH]; [reflexivity|].
  cbn [Py.contains Py.rstrip]. intros H. apply orb_false_iff in H as [Hp Hc].
  destruct (Py.is_space c && String.eqb (Py.rstrip s) ""); [reflexivity|].
  cbn [Py.contains]. cbn [Py.prefix_of] in Hp |- *. rewrite Hp, (IH Hc). reflexivity.
Qed.

End HeaderFacts.

(** A header line without ['='] makes [_parse] raise [ValueError]:
    [split("=", 1)] gives one part, which cannot be unpacked into a key
    and a value. *)
Theorem parse_header_without_eq (text l : string) :
  In l (Py.splitlines text) -> Py.startswith l "#"%char = true ->
  Py.contains "=" l = false -> _parse text = RErr ValueError.
Proof.
  intros Hin Hh Hc. unfold _parse.
  pose proof (Tokenizer.hash_line_not_blank l Hh) as Hne.
  rewrite (HeaderFacts.parse_lines_bad _ (Py.rstrip l)); [reflexivity| | |].
  - apply in_map, filter_In. split; [exact Hin|].
    destruct (String.eqb (Py.strip l) "") eqn:E; [|reflexivity].
    apply String.eqb_eq in E. contradiction.
  - rewrite Tokenizer.startswith_rstrip by exact Hne. exact Hh.
  - intros m. unfold parse_header.
    pose proof (HeaderFacts.contains_rstrip l Hc) as Hr.
    assert (Hh' : Py.startswith (Py.rstrip l) "#"%char = true)
      by (rewrite Tokenizer.startswith_rstrip by exact Hne; exact Hh).
    revert Hr Hh'.
    destruct (Py.rstrip l) as [|c r]; [discriminate|]. intros Hr _.
    cbn [String.length substring]. rewrite HeaderFacts.substring_all by lia.
    simpl in Hr. apply orb_false_iff in Hr as [_ Hr].
    rewrite (HeaderFacts.split_once_no_sep r Hr). reflexivity.
Qed.

Lemma parse_header_without_eq_witness :
  In "#TEMPO 90" (Py.splitlines "#TEMPO 90
1 2 3 |") /\ Py.startswith "#TEMPO 90" "#"%char = true /\
  Py.contains "=" "#TEMPO 90" = false /\ _parse "#TEMPO 90
1 2 3 |" = RErr ValueError.
Proof.
  split; [simpl; tauto|]. split; [reflexivity|]. split; [reflexivity|].
  apply (parse_header_without_eq _ "#TEMPO 90"); [simpl; tauto | reflexivity | reflexivity].
Defined.

(** Header lines override each other: the metadata value of a key is
    the value of the last ['#'] line whose key, stripped and upper-cased,
    is that key. *)
Theorem parse_header_last_wins (text : string) (sp : ScoreParser) (key : string) :
  _parse text = ROk sp ->
  lookup (meta sp) key = last_header (map Py.rstrip (Py.splitlines text)) key None.
Proof.
  unfold _parse. destruct (parse_lines _ [] []) as [[m body]|e] eqn:Hp; [|discriminate].
  cbn [bind]. intros H. inversion H; subst sp; clear H. cbn [meta fst].
  rewrite (HeaderFacts.parse_lines_last _ _ _ _ _ key Hp).
  apply HeaderFacts.last_header_blank.
Qed.

Lemma parse_header_last_wins_witness :
  _parse "#key = C
#KEY=G
1 |" = ROk {| meta := [("KEY", "G")]; tokens := ["1"; "|"] |} /\
  lookup [("KEY", "G")] "KEY" = Some "G" /\
  lookup (meta {| meta := [("KEY", "G")]; tokens := ["1"; "|"] |}) "KEY"
  = last_header (map Py.rstrip (Py.splitlines "#key = C
#KEY=G
1 |")) "KEY" None.
Proof.
  assert (H : _parse "#key = C
#KEY=G
1 |" = ROk {| meta := [("KEY", "G")]; tokens := ["1"; "|"] |}) by (vm_compute; reflexivity).
  split; [exact H|]. split; [reflexivity|].
  exact (parse_header_last_wins _ _ "KEY" H).
Defined.

(** *** chord_patterns.py: the strategy factory *)

(** A rhythm style missing from the table of the time signature (or any
    style, when the time signature has no table) falls back to the
    [basic] pattern. *)
Theorem adv_guitar_style_fallback (v : Z) (sd : Q) (ts : Z * Z) (style : string) :
  match lookup_ts RHYTHM_PATTERNS ts with
  | Some styles => lookup styles style = None
  | None => True
  end ->
  adv_guitar_init v sd ts style = adv_guitar_init v sd ts "basic".
Proof.
  intros H. unfold adv_guitar_init. destruct ts as [num den].
  destruct (lookup_ts RHYTHM_PATTERNS (num, den)) as [styles|] eqn:E; [|reflexivity].
  rewrite H. unfold getitem.
  destruct (lookup styles "basic") eqn:Eb; reflexivity.
Qed.

Lemma adv_guitar_style_fallback_witness :
  lookup_ts RHYTHM_PATTERNS (3, 4)%Z <> None /\
  adv_guitar_init 64 (3 # 100) (3, 4)%Z "rock" = adv_guitar_init 64 (3 # 100) (3, 4)%Z "basic".
Proof.
  split; [discriminate|]. apply adv_guitar_style_fallback. reflexivity.
Defined.

Lemma nth_repeat_list {A} (l : list A) (d : A) (k : nat) :
  forall i, l <> [] -> (i < k * length l)%nat ->
  nth i (repeat_list l k) d = nth (i mod length l) l d.
Proof.
  induction k as [|k IH]; intros i Hl Hi; [simpl in Hi; lia|].
  assert (Hlen : (0 < length l)%nat) by (destruct l; [congruence | simpl; lia]).
  cbn [repeat_list]. destruct (Nat.lt_ge_cases i (length l)) as [Hlt|Hge].
  - rewrite app_nth1 by exact Hlt. rewrite Nat.mod_small by exact Hlt. reflexivity.
  - rewrite app_nth2 by exact Hge. rewrite IH by (first [exact Hl | simpl in Hi; lia]).
    f_equal. replace i with (i - length l + 1 * length l)%nat at 2 by lia.
    rewrite Nat.Div0.mod_add. reflexivity.
Qed.

Lemma length_repeat_list {A} (l : list A) (k : nat) :
  length (repeat_list l k) = (k * length l)%nat.
Proof. induction k as [|k IH]; simpl; [reflexivity|]. rewrite length_app, IH. lia. Qed.

(** For a time signature with no table of its own, the pattern is the
    basic 4/4 strumming cut or repeated to two strokes per beat: for
    [num >= 1] it has [2 * num] strokes, alternating a down stroke and an
    up stroke. *)
Theorem adv_guitar_unknown_ts (v : Z) (sd : Q) (num den : Z) (style : string) :
  lookup_ts RHYTHM_PATTERNS (num, den) = None -> (1 <= num)%Z ->
  exists pat,
    adv_guitar_init v sd (num, den) style = ROk (AdvancedGuitarPattern v sd (num, den) pat) /\
    Z.of_nat (length pat) = (2 * num)%Z /\
    forall i, (i < length pat)%nat ->
      nth i pat ("", "", 0%Z) = if Nat.even i then ("d", "f", 0%Z) else ("u", "f", (-10)%Z).
Proof.
  intros Hts Hn. unfold adv_guitar_init. rewrite Hts.
  set (b44 := [("d", "f", 0); ("u", "f", -10); ("d", "f", 0); ("u", "f", -10);
               ("d", "f", 0); ("u", "f", -10); ("d", "f", 0); ("u", "f", -10)]%Z).
  assert (Hb : forall i, (i < 8)%nat ->
            nth i b44 ("", "", 0%Z) = if Nat.even i then ("d", "f", 0%Z) else ("u", "f", (-10)%Z)).
  { intros i Hi. do 8 (destruct i as [|i]; [reflexivity|]). lia. }
  assert (E44 : (styles <- match lookup_ts RHYTHM_PATTERNS (4, 4)%Z with
                           | Some st => ROk st | None => RErr KeyError end ;;
                 getitem styles "basic") = ROk b44) by reflexivity.
  rewrite E44. cbn [bind]. change (Z.of_nat (length b44)) with 8%Z.
  destruct (8 >? num * 2)%Z eqn:E1; [|destruct (8 <? num * 2)%Z eqn:E2].
  - apply Z.gtb_lt in E1. eexists. split; [reflexivity|].
    unfold slice_to. replace (0 <=? num * 2)%Z with true by (symmetry; apply Z.leb_le; lia).
    cbv beta iota. rewrite length_firstn. change (length b44) with 8%nat. split; [lia|].
    intros i Hi.
    rewrite nth_firstn. replace (i <? Z.to_nat (num * 2))%nat with true
      by (symmetry; apply Nat.ltb_lt; lia).
    apply Hb. lia.
  - apply Z.ltb_lt in E2. eexists. split; [reflexivity|].
    set (r := (num * 2 / 8 + (if (num * 2 mod 8 >? 0)%Z then 1 else 0))%Z).
    assert (Hr : (num * 2 <= r * 8)%Z).
    { unfold r. pose proof (Z.div_mod (num * 2) 8 ltac:(lia)).
      pose proof (Z.mod_pos_bound (num * 2) 8 ltac:(lia)).
      destruct (num * 2 mod 8 >? 0)%Z eqn:Em;
        [apply Z.gtb_lt in Em | rewrite Z.gtb_ltb, Z.ltb_ge in Em]; lia. }
    assert (Hr0 : (0 <= r)%Z) by lia.
    unfold slice_to, list_mul. replace (0 <=? num * 2)%Z with true by (symmetry; apply Z.leb_le; lia).
    cbv beta iota. rewrite length_firstn, length_repeat_list. change (length b44) with 8%nat. split; [lia|].
    intros i Hi.
    rewrite nth_firstn. replace (i <? Z.to_nat (num * 2))%nat with true
      by (symmetry; apply Nat.ltb_lt; lia).
    rewrite nth_repeat_list by (try discriminate; change (length b44) with 8%nat; lia).
    change (length b44) with 8%nat. rewrite Hb by (apply Nat.mod_upper_bound; lia).
    rewrite (Nat.div_mod_eq i 8) at 2. rewrite Nat.even_add, Nat.even_mul.
    destruct (Nat.even (i mod 8)); reflexivity.
  - rewrite Z.gtb_ltb, Z.ltb_ge in E1. apply Z.ltb_ge in E2. eexists. split; [reflexivity|].
    change (length b44) with 8%nat. split; [lia|]. intros i Hi. apply Hb. exact Hi.
Qed.

Lemma adv_guitar_unknown_ts_witness :
  lookup_ts RHYTHM_PATTERNS (5, 4)%Z = None /\ (1 <= 5)%Z /\
  exists pat,
    adv_guitar_init 64 (3 # 100) (5, 4)%Z "basic"
      = ROk (AdvancedGuitarPattern 64 (3 # 100) (5, 4)%Z pat) /\
    Z.of_nat (length pat) = (2 * 5)%Z /\
    forall i, (i < length pat)%nat ->
      nth i pat ("", "", 0%Z) = if Nat.even i then ("d", "f", 0%Z) else ("u", "f", (-10)%Z).
Proof.
  split; [reflexivity|]. split; [lia|].
  apply adv_guitar_unknown_ts; [reflexivity | lia].
Defined.

(** ["waltz_guitar"] always gives the 3/4 waltz pattern, whatever the
    time signature of the score. *)
Theorem waltz_guitar_ignores_time_signature (ts : Z * Z) :
  get_chord_pattern "waltz_guitar" ts = get_chord_pattern "waltz_guitar" (4, 4)%Z.
Proof.
  unfold get_chord_pattern.
  destruct (chord_pattern_table_keys ts) as [t1 [E1 K1]].
  destruct (chord_pattern_table_keys (4, 4)%Z) as [t2 [E2 K2]].
  rewrite E1, E2. cbn [bind]. revert E1 E2 K1 K2. unfold chord_pattern_table.
  destruct (adv_guitar_init CHORD_VELOCITY (3 # 100) ts "basic"); [|discriminate].
  destruct (adv_guitar_init CHORD_VELOCITY (3 # 100) ts "folk"); [|discriminate].
  destruct (adv_guitar_init CHORD_VELOCITY (3 # 100) ts "rock"); [|discriminate].
  destruct (adv_guitar_init CHORD_VELOCITY (3 # 100) ts "ballad"); [|discriminate].
  destruct (adv_guitar_init CHORD_VELOCITY (3 # 100) ts "country"); [|discriminate].
  destruct (adv_guitar_init CHORD_VELOCITY (3 # 100) (3, 4)%Z "waltz"); [|discriminate].
  cbn [bind]. intros E1 E2 _ _. injection E1 as <-. injection E2 as <-.
  reflexivity.
Qed.

(** *** main.py: [build_midi], the time signature check *)

Lemma int_of_string_err (s : string) (e : pyexc) :
  Py.int_of_string s = RErr e -> e = ValueError.
Proof.
  unfold Py.int_of_string. destruct (Py.strip s) as [|c s']; [congruence|].
  match goal with |- (let '(_, _) := ?x in _) = _ -> _ => destruct x as [sign body] end.
  destruct body; [congruence|]. destruct (Py.digits_value _ 0); congruence.
Qed.

Lemma norm_key_err (s : string) (e : pyexc) : _norm_key s = RErr e -> e = ValueError.
Proof.
  unfold _norm_key. destruct (Py.strip s) as [|c [|c2 [|c3 r]]]; try congruence.
  destruct (Ascii.eqb c2 "#"%char || Ascii.eqb c2 "b"%char); congruence.
Qed.

(** A [TIME] header whose denominator is not a power of two (nor 0)
    makes [build_midi] raise [ValueError], whatever the rest of the
    score: every check that can fail before it raises [ValueError] too. *)
Theorem build_midi_time_not_power_of_two (parser : ScoreParser) (from_m : Z)
  (to_m : option Z) (a b : string) (den : Z) :
  Py.split_sep (meta_get (meta parser) "TIME" "4/4") "/"%char = [a; b] ->
  Py.int_of_string b = ROk den -> Z.land den (den - 1) <> 0%Z ->
  build_midi parser from_m to_m = RErr ValueError.
Proof.
  intros Hs Hb Hd. unfold build_midi.
  destruct (Py.int_of_string (meta_get (meta parser) "TEMPO" "120")) as [t|e] eqn:Et;
    cbn [bind]; [|apply int_of_string_err in Et; subst; reflexivity].
  destruct (_norm_key (meta_get (meta parser) "KEY" "C")) as [k|e] eqn:Ek;
    cbn [bind]; [|apply norm_key_err in Ek; subst; reflexivity].
  destruct (lookup NOTE2MIDI k); cbn [bind]; [|reflexivity].
  rewrite Hs.
  destruct (Py.int_of_string a) as [x|e] eqn:Ea;
    cbn [bind]; [|apply int_of_string_err in Ea; subst; reflexivity].
  rewrite Hb. cbn [bind].
  apply Z.eqb_neq in Hd. rewrite Hd. reflexivity.
Qed.

Lemma build_midi_time_not_power_of_two_witness :
  Py.split_sep (meta_get (meta {| meta := [("TIME", "3/6")]; tokens := ["1"] |}) "TIME" "4/4")
    "/"%char = ["3"; "6"] /\
  Py.int_of_string "6" = ROk 6%Z /\ Z.land 6 (6 - 1) <> 0%Z /\
  build_midi {| meta := [("TIME", "3/6")]; tokens := ["1"] |} 0 None = RErr ValueError.
Proof.
  split; [reflexivity|]. split; [reflexivity|]. split; [discriminate|].
  apply (build_midi_time_not_power_of_two _ _ _ "3" "6" 6); [reflexivity | reflexivity | discriminate].
Defined.

(** *** main.py: [build_midi], the tracks it writes *)

Module TrackFacts.

Lemma sum_times_app (a b : list event) : sum_times (a ++ b) = (sum_times a + sum_times b)%Z.
Proof.
  induction a as [|e a IH]; simpl; [reflexivity|].
  destruct e; rewrite IH; lia.
Qed.

Lemma melody_notes_app (a b : list (Z * Z * Z)) :
  melody_notes (a ++ b) = (melody_notes a ++ melody_notes b)%list.
Proof. unfold melody_notes. apply flat_map_app. Qed.

Lemma ticks_nonneg (b : Q) : (0 <= b)%Q -> (0 <= ticks_of b)%Z.
Proof.
  intros Hb. unfold ticks_of, Py.int_of_q.
  assert (Hq : (0 <= b * inject_Z TICKS_PER_BEAT)%Q).
  { apply Qmult_le_0_compat; [exact Hb|]. unfold Qle. simpl. lia. }
  replace (Qle_bool 0 (b * inject_Z TICKS_PER_BEAT)) with true
    by (symmetry; apply Qle_bool_iff; exact Hq).
  change 0%Z with (Qfloor 0). apply Qfloor_resp_le. exact Hq.
Qed.

Lemma dur2beat_pos (k : string) (d : Q) : lookup DUR2BEAT k = Some d -> (0 <= d)%Q.
Proof.
  intros H. apply lookup_in_values in H. simpl in H.
  repeat destruct H as [<-|H]; try contradiction; unfold Qle; simpl; lia.
Qed.

Lemma float_slash (r : string) : Py.float_of_string (String "/" r) = RErr ValueError.
Proof. reflexivity. Qed.

Lemma beats_nonneg (dur dots : string) (u b : Q) :
  (0 <= u)%Q -> _beats dur dots u = ROk b -> (0 <= b)%Q.
Proof.
  intros Hu. unfold _beats. intros H. res_inv H.
  assert (H0 : (0 <= x)%Q).
  { destruct dur as [|c r].
    - inversion Hx. subst. exact Hu.
    - destruct (Ascii.eqb c "/"%char) eqn:Ec.
      + apply Ascii.eqb_eq in Ec. subst c. rewrite float_slash in Hx. discriminate.
      + unfold getitem in Hx. destruct (lookup DUR2BEAT (String c r)) as [d|] eqn:Ed;
          [|discriminate].
        cbn [bind] in Hx. inversion Hx. subst.
        apply Qmult_le_0_compat; [apply (dur2beat_pos _ _ Ed) | exact Hu]. }
  destruct dots as [|a dots]; injection H as <-; [exact H0|].
  repeat match goal with |- context [if ?c then _ else _] => destruct c end;
    apply Qmult_le_0_compat; try exact H0; unfold Qle; simpl; lia.
Qed.

Lemma tie_merge_nonneg (cfg : config) (pitch : Z) (toks : list string) :
  forall tie beats b r, (0 <= unit cfg)%Q -> (0 <= beats)%Q ->
  tie_merge cfg pitch tie beats toks = ROk (b, r) -> (0 <= b)%Q.
Proof.
  induction toks as [|t ts IH]; intros tie beats b r Hu Hb H; simpl in H.
  - destruct tie; simpl in H; inversion H; subst; exact Hb.
  - destruct tie; simpl in H; [|inversion H; subst; exact Hb].
    destruct (Re.note_match t) as [g|]; [|inversion H; subst; exact Hb].
    res_inv H. destruct (negb (x =? pitch)%Z); [inversion H; subst; exact Hb|].
    res_inv H. apply (IH _ _ _ _ Hu) in H; [exact H|].
    change (0 + 0 <= beats + x0)%Q; apply Qplus_le_compat; [exact Hb | exact (beats_nonneg _ _ _ _ Hu Hx0)].
Qed.

Lemma above_eps_nonneg (x : Q) : Qle_bool x EPS = false -> (0 <= x)%Q.
Proof.
  intros H. assert (Hlt : (EPS < x)%Q).
  { apply Qnot_le_lt. intros Hle. apply Qle_bool_iff in Hle. congruence. }
  apply Qlt_le_weak. apply (Qle_lt_trans _ EPS); [unfold Qle, EPS; simpl; lia | exact Hlt].
Qed.

Lemma directive_step_fields (st : state) (tok : string) :
  chord_active (directive_step st tok) = chord_active st /\
  chords (directive_step st tok) = chords st /\
  melody (directive_step st tok) = melody st /\
  cur_tick (directive_step st tok) = cur_tick st /\
  delta_melody (directive_step st tok) = delta_melody st.
Proof.
  unfold directive_step.
  repeat match goal with
         | |- context [match ?x with _ => _ end] => destruct x
         | |- context [if ?x then _ else _] => destruct x
         end; simpl; auto.
Qed.

Lemma chord_step_quiet (cfg : config) (st : state) (tok : string) (rest : list string)
  (st' : state) :
  chord_active st = [] -> chord_step cfg st tok rest = ROk st' ->
  chord_active st' = [] /\ chords st' = chords st /\ melody st' = melody st /\
  cur_tick st' = cur_tick st /\ delta_melody st' = delta_melody st.
Proof.
  intros Ha H.
  destruct (_parse_chord tok) as [[|p ps]|e] eqn:Ep.
  - unfold chord_step in H. rewrite Ha in H. cbv zeta in H. res_inv H.
    rewrite Ep in Hx0. inversion Hx0; subst. inversion H; subst. simpl.
    repeat split; reflexivity.
  - destruct (chord_step_nonempty_fails cfg st tok rest p ps Ep) as [e He]. congruence.
  - unfold chord_step in H. cbv zeta in H. res_inv H. rewrite Ep in Hx0. discriminate.
Qed.

Lemma finish_fields (cfg : config) (st st' : state) :
  chord_active st = [] -> finish cfg st = ROk st' ->
  chords st' = chords st /\
  (exists pad, melody st' = (melody st ++ pad)%list /\
     (pad = [] \/ exists k, (0 <= k)%Z /\ pad = [Msg NoteOff 0 0 0 k])) /\
  (cur_tick st' - delta_melody st' = cur_tick st - delta_melody st + sum_times (skipn (length (melody st)) (melody st')))%Z.
Proof.
  intros Ha. unfold finish. cbv zeta.
  destruct (Qle_bool (- EPS) _) eqn:Hl; [|discriminate].
  destruct (negb (Qle_bool (beats_per_measure cfg - measure_beats st) EPS)) eqn:Hp;
    cbn [negb chord_active]; rewrite Ha; intros H; inversion H; subst; clear H;
    cbn [chords melody cur_tick delta_melody].
  - split; [reflexivity|]. split.
    + eexists. split; [reflexivity|]. right. eexists. split; [|reflexivity].
      apply ticks_nonneg, above_eps_nonneg. apply negb_true_iff in Hp. exact Hp.
    + rewrite skipn_app, skipn_all, Nat.sub_diag. simpl. lia.
  - split; [reflexivity|]. split.
    + exists []. split; [rewrite app_nil_r; reflexivity | left; reflexivity].
    + rewrite skipn_all. simpl. lia.
Qed.

Lemma step_inv (cfg : config) (mel0 ch0 : list event) (st : state) (tok : string)
  (rest : list string) (st' : state) (rest' : list string) :
  melody_inv cfg mel0 ch0 st -> step cfg st tok rest = ROk (st', rest') ->
  melody_inv cfg mel0 ch0 st'.
Proof.
  intros [Ha [Hc [Hs [ns [Hm Hn]]]]]. unfold step. intros H.
  destruct (Py.startswith tok "#"%char).
  { inversion H; subst. destruct (directive_step_fields st tok) as [E1 [E2 [E3 [E4 E5]]]].
    unfold melody_inv. rewrite E1, E2, E3, E4, E5.
    repeat split; auto. exists ns. split; [exact Hm | exact Hn]. }
  destruct (is_bar tok).
  { res_inv H. inversion H; subst. unfold bar_step in Hx.
    destruct (Qle_bool (- EPS) _); [|discriminate]. inversion Hx; subst. clear Hx H.
    set (pad := if negb (Qle_bool (beats_per_measure cfg - measure_beats st) EPS)
                   && is_recording st
                then ticks_of (beats_per_measure cfg - measure_beats st) else 0%Z).
    assert (Hpad : (0 <= pad)%Z).
    { unfold pad. destruct (negb _ && _) eqn:E; [|lia].
      apply andb_prop in E as [E _]. apply negb_true_iff in E.
      apply ticks_nonneg, above_eps_nonneg. exact E. }
    unfold melody_inv; simpl. repeat split; auto; [lia|].
    exists ns. split; [exact Hm|]. intros Hu. destruct (Hn Hu). split; [lia | assumption]. }
  destruct (is_recording st).
  2:{ inversion H; subst. repeat split; auto. exists ns. auto. }
  cbn [negb] in H.
  destruct (Re.rest_match tok) as [[dur dots]|].
  { res_inv H. inversion H; subst. unfold rest_step in Hx. res_inv Hx.
    inversion Hx; subst. clear Hx H.
    unfold melody_inv; simpl. repeat split; auto; [lia|].
    exists ns. split; [exact Hm|]. intros Hu. destruct (Hn Hu). split; [|assumption].
    pose proof (ticks_nonneg _ (beats_nonneg _ _ _ _ Hu Hx0)). lia. }
  destruct (is_chord_token tok).
  { res_inv H. inversion H; subst.
    destruct (chord_step_quiet _ _ _ _ _ Ha Hx) as [E1 [E2 [E3 [E4 E5]]]].
    unfold melody_inv. rewrite E1, E2, E3, E4, E5.
    repeat split; auto. exists ns. split; [exact Hm | exact Hn]. }
  destruct (Re.note_match tok) as [g|]; [|discriminate].
  unfold note_step in H. res_inv H. destruct x1 as [b r].
  inversion H; subst. clear H.
  unfold melody_inv; simpl. repeat split; auto.
  - rewrite sum_times_app, Hs. simpl. lia.
  - exists (ns ++ [(x0, delta_melody st, ticks_of b)])%list.
    rewrite melody_notes_app, Hm, <- app_assoc. split; [reflexivity|].
    intros Hu. destruct (Hn Hu) as [Hd Hf]. split; [lia|].
    apply Forall_app. split; [exact Hf|]. constructor; [|constructor].
    simpl. split; [exact Hd|]. apply ticks_nonneg.
    apply (tie_merge_nonneg _ _ _ _ _ _ _ Hu (beats_nonneg _ _ _ _ Hu Hx) Hx1).
Qed.

Lemma run_inv (cfg : config) (mel0 ch0 : list event) (fuel : nat) :
  forall st toks st', melody_inv cfg mel0 ch0 st -> run cfg fuel st toks = ROk st' ->
  melody_inv cfg mel0 ch0 st'.
Proof.
  induction fuel as [|fuel IH]; intros st toks st' Hi H; simpl in H; [discriminate|].
  destruct toks as [|tok rest]; [inversion H; subst; exact Hi|].
  destruct (stop_here cfg st); [inversion H; subst; exact Hi|].
  res_inv H. destruct x as [s r]. apply (IH s r st'); [|exact H].
  apply (step_inv _ _ _ _ _ _ _ _ Hi Hx).
Qed.

Lemma init_inv (cfg : config) (p : ChordPattern) (mel0 ch0 : list event) :
  melody_inv cfg mel0 ch0 (init_state (from_measure cfg) p mel0 ch0).
Proof.
  unfold melody_inv, init_state; simpl. repeat split; [lia|].
  exists []. split; [rewrite app_nil_r; reflexivity|]. split; [lia | constructor].
Qed.

Lemma compile_tracks (cfg : config) (p : ChordPattern) (mel0 ch0 : list event)
  (toks : list string) (st : state) :
  compile cfg p mel0 ch0 toks = ROk st ->
  chords st = ch0 /\
  sum_times (melody st) = (sum_times mel0 + cur_tick st - delta_melody st)%Z /\
  exists ns pad, melody st = (mel0 ++ melody_notes ns ++ pad)%list /\
    (0 <= unit cfg -> Forall note_nonneg ns)%Q /\
    (pad = [] \/ exists k, (0 <= k)%Z /\ pad = [Msg NoteOff 0 0 0 k]).
Proof.
  unfold compile. intros H. res_inv H.
  destruct (run_inv _ _ _ _ _ _ _ (init_inv cfg p mel0 ch0) Hx)
    as [Ha [Hc [Hs [ns [Hm Hn]]]]].
  destruct (finish_fields _ _ _ Ha H) as [Hc' [[pad [Hm' Hpad]] Ht]].
  split; [congruence|]. split.
  - rewrite Hm', sum_times_app, Hs.
    rewrite Hm', skipn_app, skipn_all, Nat.sub_diag in Ht. simpl in Ht. lia.
  - exists ns, pad. split; [rewrite Hm', Hm, app_assoc; reflexivity|].
    split; [intros Hu; apply (Hn Hu) | exact Hpad].
Qed.

End TrackFacts.

Ltac build_midi_inv Hb :=
  unfold build_midi in Hb; cbv zeta in Hb;
  repeat match type of Hb with
         | bind _ _ = ROk _ => res_inv Hb
         | (match ?t with (_, _) => _ end) = ROk _ => destruct t
         | (if ?c then _ else _) = ROk _ => destruct c; [discriminate|]
         end.

(** The chord track [build_midi] writes never holds a note: it is the
    program change, the track name and the end of track, whatever the
    score.  (Every chord symbol with pitches makes the run fail, see C1.) *)
Theorem build_midi_chord_track (parser : ScoreParser) (from_m : Z) (to_m : option Z)
  (mel ch : list event) :
  build_midi parser from_m to_m = ROk (mel, ch) ->
  ch = [Program CHORD_CH 48; Meta "track_name" 0; Meta "end_of_track" 0].
Proof.
  intros Hb. build_midi_inv Hb.
  match goal with Hc : compile _ _ _ _ _ = ROk _ |- _ =>
    destruct (TrackFacts.compile_tracks _ _ _ _ _ _ Hc) as [Hch _] end.
  inversion Hb; subst. rewrite Hch. reflexivity.
Qed.

Lemma build_midi_chord_track_witness :
  build_midi {| meta := []; tokens := ["O"; "1"; "2"; "3"; "4"] |} 0 None
  = ROk ([Meta "set_tempo" 0; Meta "time_signature" 0; Meta "track_name" 0;
          Msg NoteOn 0 60 64 0; Msg NoteOff 0 60 64 480;
          Msg NoteOn 0 62 64 0; Msg NoteOff 0 62 64 480;
          Msg NoteOn 0 64 64 0; Msg NoteOff 0 64 64 480;
          Msg NoteOn 0 65 64 0; Msg NoteOff 0 65 64 480; Meta "end_of_track" 0],
         [Program CHORD_CH 48; Meta "track_name" 0; Meta "end_of_track" 0]) /\
  [Program CHORD_CH 48; Meta "track_name" 0; Meta "end_of_track" 0]
  = [Program CHORD_CH 48; Meta "track_name" 0; Meta "end_of_track" 0].
Proof.
  assert (H : build_midi {| meta := []; tokens := ["O"; "1"; "2"; "3"; "4"] |} 0 None
  = ROk ([Meta "set_tempo" 0; Meta "time_signature" 0; Meta "track_name" 0;
          Msg NoteOn 0 60 64 0; Msg NoteOff 0 60 64 480;
          Msg NoteOn 0 62 64 0; Msg NoteOff 0 62 64 480;
          Msg NoteOn 0 64 64 0; Msg NoteOff 0 64 64 480;
          Msg NoteOn 0 65 64 0; Msg NoteOff 0 65 64 480; Meta "end_of_track" 0],
         [Program CHORD_CH 48; Meta "track_name" 0; Meta "end_of_track" 0]))
    by (vm_compute; reflexivity).
  split; [exact H | exact (build_midi_chord_track _ _ _ _ _ H)].
Defined.

(** The melody track [build_midi] writes is its three header events,
    then one [note_on]/[note_off] pair (channel 0, velocity 64) per note
    with non-negative delta and length, then at most one padding
    [note_off] of pitch 0, then the end of track. *)
Theorem build_midi_melody_track (parser : ScoreParser) (from_m : Z) (to_m : option Z)
  (mel ch : list event) :
  build_midi parser from_m to_m = ROk (mel, ch) ->
  exists ns pad,
    mel = ([Meta "set_tempo" 0; Meta "time_signature" 0; Meta "track_name" 0]
           ++ melody_notes ns ++ pad ++ [Meta "end_of_track" 0])%list /\
    Forall note_nonneg ns /\
    (pad = [] \/ exists k, (0 <= k)%Z /\ pad = [Msg NoteOff 0 0 0 k]).
Proof.
  intros Hb. build_midi_inv Hb.
  match goal with Hc : compile _ _ _ _ _ = ROk _ |- _ =>
    destruct (TrackFacts.compile_tracks _ _ _ _ _ _ Hc) as [_ [_ [ns [pad [Hm [Hn Hp]]]]]];
    revert Hn; cbn [unit]
  end.
  intros Hn. inversion Hb; subst. exists ns, pad.
  split; [rewrite Hm, <- !app_assoc; reflexivity|]. split; [|exact Hp].
  apply Hn. match goal with |- (0 <= match ?l with _ => _ end)%Q => destruct l eqn:El end.
  - apply (TrackFacts.dur2beat_pos _ _ El).
  - unfold Qle. simpl. lia.
Qed.

Lemma build_midi_melody_track_witness :
  build_midi {| meta := [("UNIT", "e")]; tokens := ["5^"; "5"] |} 0 None
  = ROk ([Meta "set_tempo" 0; Meta "time_signature" 0; Meta "track_name" 0;
          Msg NoteOn 0 67 64 0; Msg NoteOff 0 67 64 480;
          Msg NoteOff 0 0 0 1440; Meta "end_of_track" 0],
         [Program CHORD_CH 48; Meta "track_name" 0; Meta "end_of_track" 0]) /\
  exists ns pad,
    [Meta "set_tempo" 0; Meta "time_signature" 0; Meta "track_name" 0;
     Msg NoteOn 0 67 64 0; Msg NoteOff 0 67 64 480;
     Msg NoteOff 0 0 0 1440; Meta "end_of_track" 0]
    = ([Meta "set_tempo" 0; Meta "time_signature" 0; Meta "track_name" 0]
       ++ melody_notes ns ++ pad ++ [Meta "end_of_track" 0])%list /\
    Forall note_nonneg ns /\
    (pad = [] \/ exists k, (0 <= k)%Z /\ pad = [Msg NoteOff 0 0 0 k]).
Proof.
  assert (H : build_midi {| meta := [("UNIT", "e")]; tokens := ["5^"; "5"] |} 0 None
  = ROk ([Meta "set_tempo" 0; Meta "time_signature" 0; Meta "track_name" 0;
          Msg NoteOn 0 67 64 0; Msg NoteOff 0 67 64 480;
          Msg NoteOff 0 0 0 1440; Meta "end_of_track" 0],
         [Program CHORD_CH 48; Meta "track_name" 0; Meta "end_of_track" 0]))
    by (vm_compute; reflexivity).
  split; [exact H | exact (build_midi_melody_track _ _ _ _ _ H)].
Defined.

(** The delta times of the melody track add up to the tick reached less
    the delta still pending: the rests after the last note (and the bar
    padding after it) are never written, unless the final padding of an
    incomplete last measure writes them. *)
Theorem compile_melody_length (cfg : config) (p : ChordPattern) (mel0 ch0 : list event)
  (toks : list string) (st : state) :
  compile cfg p mel0 ch0 toks = ROk st ->
  sum_times (melody st) = (sum_times mel0 + cur_tick st - delta_melody st)%Z.
Proof.
  intros H. apply (TrackFacts.compile_tracks _ _ _ _ _ _ H).
Qed.

Lemma compile_melody_length_witness :
  exists st,
    compile cfg44 (BlockChordPattern 64) [] [] ["1"; "0"; "0"; "0"] = ROk st /\
    cur_tick st = 1920%Z /\ delta_melody st = 1440%Z /\
    sum_times (melody st) = (sum_times [] + cur_tick st - delta_melody st)%Z.
Proof.
  eexists. split; [vm_compute; reflexivity|].
  split; [reflexivity|]. split; [reflexivity|].
  apply (compile_melody_length cfg44 (BlockChordPattern 64) [] [] ["1"; "0"; "0"; "0"]).
  vm_compute. reflexivity.
Defined.





(** *** main.py: the click track of [build_midi] *)

Module MetroFacts.

Lemma int_of_q_small (q : Q) : (0 <= q)%Q -> (q < 1)%Q -> Py.int_of_q q = 0%Z.
Proof.
  intros H0 H1. unfold Py.int_of_q.
  replace (Qle_bool 0 q) with true by (symmetry; apply Qle_bool_iff; exact H0).
  apply Z.le_antisymm.
  - assert (Hf : (Qfloor q < 1)%Z).
    { apply Z.lt_nge. intros Hge. apply (Qlt_not_le _ _ H1).
      apply (Qle_trans _ (inject_Z (Qfloor q))); [|apply Qfloor_le].
      change 1%Q with (inject_Z 1). rewrite <- Zle_Qle. exact Hge. }
    lia.
  - change 0%Z with (Qfloor 0). apply Qfloor_resp_le. exact H0.
Qed.

Lemma int_of_q_ge1 (q : Q) : (1 <= q)%Q -> (1 <= Py.int_of_q q)%Z.
Proof.
  intros H. unfold Py.int_of_q.
  replace (Qle_bool 0 q) with true
    by (symmetry; apply Qle_bool_iff; apply (Qle_trans _ 1); [discriminate | exact H]).
  change 1%Z with (Qfloor 1). apply Qfloor_resp_le. exact H.
Qed.

Lemma beat_ticks_zero (den : Z) :
  (1920 < den)%Z -> Py.int_of_q (inject_Z (TICKS_PER_BEAT * 4) / inject_Z den) = 0%Z.
Proof.
  intros Hd. apply int_of_q_small.
  - unfold Qdiv. apply Qmult_le_0_compat; [discriminate|].
    apply Qinv_le_0_compat. unfold Qle. simpl. lia.
  - unfold Qdiv, Qlt, Qmult, Qinv, inject_Z. simpl.
    destruct den as [|d|d]; [lia| |lia]. simpl. lia.
Qed.

Lemma beat_ticks_pos (den : Z) :
  (1 <= den <= 1920)%Z -> (1 <= Py.int_of_q (inject_Z (TICKS_PER_BEAT * 4) / inject_Z den))%Z.
Proof.
  intros Hd. apply int_of_q_ge1.
  unfold Qdiv, Qle, Qmult, Qinv, inject_Z. simpl.
  destruct den as [|d|d]; [lia| |lia]. simpl. lia.
Qed.

Lemma metro_loop_stuck (ch note : Z) (fuel : nat) :
  forall num click cur vel idx, (num <> 0)%Z -> (0 < cur)%Z ->
  metro_loop ch note fuel num 0 click cur vel 0 idx = RErr OutOfFuel.
Proof.
  induction fuel as [|fuel IH]; intros num click cur vel idx Hn Hc; [reflexivity|].
  cbn [metro_loop]. replace (0 <? cur)%Z with true by (symmetry; apply Z.ltb_lt; exact Hc).
  replace (num =? 0)%Z with false by (symmetry; apply Z.eqb_neq; exact Hn).
  rewrite Z.add_0_l. rewrite IH by assumption. reflexivity.
Qed.

Lemma metro_loop_err (ch note : Z) (fuel : nat) :
  forall num beat click cur vel t idx e, (num <> 0)%Z ->
  metro_loop ch note fuel num beat click cur vel t idx = RErr e -> e = OutOfFuel.
Proof.
  induction fuel as [|fuel IH]; intros num beat click cur vel t idx e Hn H;
    cbn [metro_loop] in H; [congruence|].
  destruct (t <? cur)%Z; [|discriminate].
  replace (num =? 0)%Z with false in H by (symmetry; apply Z.eqb_neq; exact Hn).
  destruct (metro_loop _ _ _ _ _ _ _ _ _ _) eqn:E; cbn [bind] in H; [discriminate|].
  inversion H; subst. apply (IH _ _ _ _ _ _ _ _ Hn E).
Qed.

(** The clicks from tick [t] and beat [idx] on. *)
Lemma metro_loop_spec (ch note : Z) (fuel : nat) :
  forall num beat click cur vel t idx,
  (num <> 0)%Z -> (1 <= beat)%Z -> (0 <= t)%Z ->
  (Z.to_nat ((cur - t + beat - 1) / beat) < fuel)%nat ->
  exists evs, metro_loop ch note fuel num beat click cur vel t idx = ROk evs /\
  length evs = (2 * Z.to_nat ((cur - t + beat - 1) / beat))%nat /\
  forall k, (k < Z.to_nat ((cur - t + beat - 1) / beat))%nat ->
    nth (2 * k) evs (Meta "" 0) =
      Msg NoteOn ch note
        (if ((idx + Z.of_nat k) mod num =? 0)%Z then fst vel else snd vel)
        (if (t + Z.of_nat k * beat =? 0)%Z then 0 else beat - click)%Z /\
    nth (2 * k + 1) evs (Meta "" 0) = Msg NoteOff ch note 0 click.
Proof.
  induction fuel as [|fuel IH]; intros num beat click cur vel t idx Hn Hb Ht Hf; [lia|].
  cbn [metro_loop].
  destruct (t <? cur)%Z eqn:Ec.
  - apply Z.ltb_lt in Ec.
    replace (num =? 0)%Z with false by (symmetry; apply Z.eqb_neq; exact Hn).
    assert (Hm : ((cur - t + beat - 1) / beat = (cur - (t + beat) + beat - 1) / beat + 1)%Z).
    { replace (cur - t + beat - 1)%Z with ((cur - (t + beat) + beat - 1) + 1 * beat)%Z by lia.
      rewrite Z.div_add by lia. reflexivity. }
    assert (Hpos : (0 <= (cur - (t + beat) + beat - 1) / beat)%Z)
      by (apply Z.div_pos; lia).
    destruct (IH num beat click cur vel (t + beat)%Z (idx + 1)%Z Hn Hb ltac:(lia) ltac:(lia))
      as [rest [Er [Hl Hk]]].
    rewrite Er. cbn [bind]. eexists. split; [reflexivity|].
    rewrite Hm, Z2Nat.inj_add by lia. split.
    + cbn [length]. rewrite Hl. simpl. lia.
    + intros k Hk'. destruct k as [|k].
      * cbn. rewrite Z.add_0_r. replace (t + 0)%Z with t by lia. split; reflexivity.
      * destruct (Hk k ltac:(simpl in Hk'; lia)) as [H1 H2].
        replace (2 * S k)%nat with (S (S (2 * k)))%nat by lia.
        replace (S (S (2 * k)) + 1)%nat with (S (S (2 * k + 1)))%nat by lia.
        cbn [nth]. rewrite H1, H2. split; [|reflexivity].
        replace (idx + 1 + Z.of_nat k)%Z with (idx + Z.of_nat (S k))%Z by lia.
        replace (t + beat + Z.of_nat k * beat)%Z with (t + Z.of_nat (S k) * beat)%Z by lia.
        reflexivity.
  - apply Z.ltb_ge in Ec. exists []. split; [reflexivity|].
    assert (H0 : ((cur - t + beat - 1) / beat <= 0)%Z).
    { apply Z.lt_succ_r. apply Z.div_lt_upper_bound; lia. }
    replace (Z.to_nat ((cur - t + beat - 1) / beat)) with 0%nat by lia.
    split; [reflexivity|]. intros k Hk; lia.
Qed.

End MetroFacts.

(** When the denominator of the time signature exceeds 1920,
    [beat_ticks = int(TICKS_PER_BEAT * 4 / ts_den)] is 0 and the click
    loop never advances: for a piece of positive length it runs out of
    any number of turns. *)
Theorem metronome_zero_beat_hangs (metro_ch metro_note num den cur : Z) (vel : Z * Z)
  (fuel : nat) :
  (num <> 0)%Z -> (1920 < den)%Z -> (0 < cur)%Z ->
  metronome_track metro_ch metro_note num den cur vel fuel = RErr OutOfFuel.
Proof.
  intros Hn Hd Hc. unfold metronome_track. cbv zeta.
  rewrite (MetroFacts.beat_ticks_zero den Hd).
  rewrite MetroFacts.metro_loop_stuck by assumption. reflexivity.
Qed.

Lemma metronome_zero_beat_hangs_witness :
  (3 <> 0)%Z /\ (1920 < 2048)%Z /\ (0 < 2)%Z /\
  metronome_track 9 76 3 2048 2 (100%Z, 60%Z) 1000 = RErr OutOfFuel.
Proof.
  split; [lia|]. split; [lia|]. split; [lia|].
  apply metronome_zero_beat_hangs; lia.
Defined.

(** For a denominator between 1 and 1920 the click track has one click
    per beat of [beat_ticks] ticks while the clicks start before the end
    of the piece: [ceil(cur_tick / beat_ticks)] clicks, each a [note_on]
    (accented on every [ts_num]-th beat, from the first) and a
    [note_off] after [click_len] ticks, the next click starting one beat
    after the previous one. *)
Theorem metronome_clicks (metro_ch metro_note num den cur : Z) (vel : Z * Z) :
  (num <> 0)%Z -> (1 <= den <= 1920)%Z -> (0 <= cur)%Z ->
  let beat := Py.int_of_q (inject_Z (TICKS_PER_BEAT * 4) / inject_Z den) in
  let click := Py.int_of_q (inject_Z beat * (1 # 5)) in
  let n := Z.to_nat ((cur + beat - 1) / beat) in
  exists evs,
    metronome_track metro_ch metro_note num den cur vel (S (Z.to_nat cur))
    = ROk (Meta "track_name" 0 :: evs ++ [Meta "end_of_track" 0])%list /\
    length evs = (2 * n)%nat /\
    forall k, (k < n)%nat ->
      nth (2 * k) evs (Meta "" 0) =
        Msg NoteOn metro_ch metro_note
          (if (Z.of_nat k mod num =? 0)%Z then fst vel else snd vel)
          (if (k =? 0)%nat then 0 else beat - click)%Z /\
      nth (2 * k + 1) evs (Meta "" 0) = Msg NoteOff metro_ch metro_note 0 click.
Proof.
  intros Hn Hd Hc beat click n.
  assert (Hb : (1 <= beat)%Z) by (apply MetroFacts.beat_ticks_pos; exact Hd).
  assert (Hfuel : (n < S (Z.to_nat cur))%nat).
  { unfold n. assert ((cur + beat - 1) / beat <= cur)%Z.
    { destruct (Z.eq_dec cur 0) as [->|Hc0].
      - apply Z.lt_succ_r. apply Z.div_lt_upper_bound; lia.
      - apply Z.div_le_upper_bound; [lia|]. nia. }
    assert (0 <= (cur + beat - 1) / beat)%Z by (apply Z.div_pos; lia). lia. }
  destruct (MetroFacts.metro_loop_spec metro_ch metro_note (S (Z.to_nat cur)) num beat click
              cur vel 0 0 Hn Hb ltac:(lia) ltac:(replace (cur - 0)%Z with cur by lia; exact Hfuel))
    as [evs [E [Hl Hk]]].
  replace (cur - 0)%Z with cur in Hl, Hk by lia.
  exists evs. split; [|split; [exact Hl|]].
  - unfold metronome_track. cbv zeta. fold beat. fold click. rewrite E. reflexivity.
  - intros k Hk'. destruct (Hk k Hk') as [H1 H2]. rewrite H1, H2. split; [|reflexivity].
    rewrite Z.add_0_l. f_equal. destruct k as [|k]; [reflexivity|].
    replace (0 + Z.of_nat (S k) * beat =? 0)%Z with false by (symmetry; apply Z.eqb_neq; lia).
    reflexivity.
Qed.

Lemma metronome_clicks_witness :
  (4 <> 0)%Z /\ (1 <= 4 <= 1920)%Z /\ (0 <= 1000)%Z /\
  metronome_track 9 76 4 4 1000 (100%Z, 60%Z) (S (Z.to_nat 1000))
  = ROk [Meta "track_name" 0;
         Msg NoteOn 9 76 100 0; Msg NoteOff 9 76 0 96;
         Msg NoteOn 9 76 60 384; Msg NoteOff 9 76 0 96;
         Msg NoteOn 9 76 60 384; Msg NoteOff 9 76 0 96;
         Meta "end_of_track" 0] /\
  exists evs,
    metronome_track 9 76 4 4 1000 (100%Z, 60%Z) (S (Z.to_nat 1000))
    = ROk (Meta "track_name" 0 :: evs ++ [Meta "end_of_track" 0])%list /\
    length evs = (2 * Z.to_nat ((1000 + 480 - 1) / 480))%nat.
Proof.
  split; [lia|]. split; [lia|]. split; [lia|]. split; [vm_compute; reflexivity|].
  destruct (metronome_clicks 9 76 4 4 1000 (100%Z, 60%Z) ltac:(lia) ltac:(lia) ltac:(lia))
    as [evs [E [Hl _]]].
  exists evs. split; [exact E | exact Hl].
Defined.

Module MetroRun.

Lemma finish_delta (cfg : config) (st st' : state) :
  finish cfg st = ROk st' -> delta_melody st' = delta_melody st.
Proof.
  unfold finish. cbv zeta. destruct (Qle_bool (- EPS) _); [|discriminate].
  destruct (negb (Qle_bool _ EPS)); cbn [chord_active];
    match goal with |- (match ?a with _ => _ end) = _ -> _ => destruct a end;
    intros H; inversion H; reflexivity.
Qed.

Lemma compile_delta_nonneg (cfg : config) (p : ChordPattern) (mel0 ch0 : list event)
  (toks : list string) (st : state) :
  (0 <= unit cfg)%Q -> compile cfg p mel0 ch0 toks = ROk st -> (0 <= delta_melody st)%Z.
Proof.
  intros Hu H. unfold compile in H. res_inv H.
  destruct (TrackFacts.run_inv _ _ _ _ _ _ _ (TrackFacts.init_inv cfg p mel0 ch0) Hx)
    as [_ [_ [_ [ns [_ Hn]]]]].
  rewrite (finish_delta _ _ _ H). apply (proj1 (Hn Hu)).
Qed.

End MetroRun.

(** A score whose [#TIME] denominator exceeds 1920 (a power of two such
    as 2048, with a numerator in the range 1..255 a [time_signature]
    message takes) and which [build_midi] renders to a melody of positive
    length without the metronome never finishes with it: the click loop
    does not advance. *)
Theorem build_midi_metronome_hangs (metro_ch metro_note : Z) (parser : ScoreParser)
  (metro_vel : Z * Z) (from_m : Z) (to_m : option Z) (a b : string) (num den : Z)
  (mel chs : list event) :
  Py.split_sep (meta_get (meta parser) "TIME" "4/4") "/"%char = [a; b] ->
  Py.int_of_string a = ROk num -> Py.int_of_string b = ROk den ->
  (1 <= num <= 255)%Z -> (1920 < den)%Z ->
  build_midi_full metro_ch metro_note parser false metro_vel from_m to_m = ROk (mel, chs, None) ->
  (0 < sum_times mel)%Z ->
  build_midi_full metro_ch metro_note parser true metro_vel from_m to_m = RErr OutOfFuel.
Proof.
  intros Ht Ha Hb Hn Hd Hoff Hs.
  unfold build_midi_full in Hoff |- *. cbv zeta in Hoff |- *.
  rewrite Ht, Ha, Hb in Hoff |- *. cbn [bind] in Hoff |- *.
  repeat match goal with
  | H : RErr _ = ROk _ |- _ => discriminate H
  | |- context [bind ?c _] =>
      lazymatch c with
      | compile _ _ _ _ _ => fail
      | _ => destruct c eqn:?; cbn [bind] in Hoff |- *
      end
  | |- context [if ?c then _ else _] =>
      lazymatch c with
      | true => fail | false => fail
      | _ => destruct c eqn:?; cbn [bind] in Hoff |- *
      end
  end.
  match goal with |- context [bind (compile ?cfg ?p ?m ?c ?t) _] =>
    destruct (compile cfg p m c t) as [st|e] eqn:Ec end;
    cbn [bind] in Hoff |- *; [|discriminate].
  injection Hoff as Hm _. subst mel.
  pose proof (TrackFacts.compile_tracks _ _ _ _ _ _ Ec) as [_ [Hsum _]].
  assert (Hdel : (0 <= delta_melody st)%Z).
  { refine (MetroRun.compile_delta_nonneg _ _ _ _ _ _ _ Ec).
    cbn [unit].
    destruct (lookup DUR2BEAT _) eqn:E;
      [apply (TrackFacts.dur2beat_pos _ _ E) | unfold Qle; simpl; lia]. }
  rewrite TrackFacts.sum_times_app in Hs.
  change (sum_times [Meta "end_of_track" 0]) with 0%Z in Hs.
  change (sum_times [Meta "set_tempo" 0; Meta "time_signature" 0; Meta "track_name" 0])
    with 0%Z in Hsum.
  unfold metronome_track. cbv zeta.
  rewrite (MetroFacts.beat_ticks_zero den Hd).
  rewrite MetroFacts.metro_loop_stuck by lia. reflexivity.
Qed.

Lemma build_midi_metronome_hangs_witness :
  (build_midi_full 9 76 {| meta := [("TIME", "255/2048"); ("UNIT", "s")]; tokens := ["1"] |}
    false (100%Z, 60%Z) 0 None
  = ROk ([Meta "set_tempo" 0; Meta "time_signature" 0; Meta "track_name" 0;
          Msg NoteOn 0 60 64 0; Msg NoteOff 0 60 64 120; Msg NoteOff 0 0 0 119;
          Meta "end_of_track" 0],
         [Program CHORD_CH 48; Meta "track_name" 0; Meta "end_of_track" 0], None)) /\
  (build_midi_full 9 76 {| meta := [("TIME", "255/2048"); ("UNIT", "s")]; tokens := ["1"] |}
    true (100%Z, 60%Z) 0 None = RErr OutOfFuel).
Proof.
  assert (H : build_midi_full 9 76
                {| meta := [("TIME", "255/2048"); ("UNIT", "s")]; tokens := ["1"] |}
                false (100%Z, 60%Z) 0 None
              = ROk ([Meta "set_tempo" 0; Meta "time_signature" 0; Meta "track_name" 0;
                      Msg NoteOn 0 60 64 0; Msg NoteOff 0 60 64 120; Msg NoteOff 0 0 0 119;
                      Meta "end_of_track" 0],
                     [Program CHORD_CH 48; Meta "track_name" 0; Meta "end_of_track" 0], None))
    by (vm_compute; reflexivity).
  split; [exact H|].
  refine (build_midi_metronome_hangs 9 76 _ (100%Z, 60%Z) 0 None "255" "2048" 255 2048 _ _
            _ _ _ _ _ H _);
    [vm_compute; reflexivity | vm_compute; reflexivity | vm_compute; reflexivity
    | lia | lia | vm_compute; reflexivity].
Defined.

(** *** chord_patterns.py: the notes each strategy starts are released *)

Module ReleaseFacts.

Lemma released_later_app (a b : list event) :
  Forall (released_in b) a -> released_later b = true -> released_later (a ++ b) = true.
Proof.
  induction a as [|e a IH]; intros Ha Hb; [exact Hb|].
  inversion Ha as [|? ? He Ha']; subst.
  destruct e as [k ch n v t| |]; cbn [app released_later]; try (apply IH; assumption).
  destruct k; try (apply IH; assumption).
  rewrite IH by assumption. rewrite existsb_app. cbn [released_in] in He.
  rewrite He, orb_true_r. reflexivity.
Qed.

Lemma released_in_app (a b : list event) (e : event) :
  released_in b e -> released_in (a ++ b) e.
Proof.
  destruct e as [k ch n v t| |]; cbn [released_in]; auto.
  destruct k; auto. intros H. rewrite existsb_app, H, orb_true_r. reflexivity.
Qed.

Lemma ons_released (ons : list event) (ns : list Z) (b : list event) :
  Forall (fun e => exists n v t, e = chord_on n v t /\ In n ns) ons ->
  (forall n, In n ns -> existsb (is_release CHORD_CH n) b = true) ->
  Forall (released_in b) ons.
Proof.
  intros Ho Hb. eapply Forall_impl; [|exact Ho].
  intros e [n [v [t [-> Hn]]]]. cbn. apply Hb, Hn.
Qed.

Lemma offs_first_release (ns : list Z) (t : Z) (rest : list event) (n : Z) :
  In n ns -> existsb (is_release CHORD_CH n) (offs_first ns t ++ rest) = true.
Proof.
  intros Hn. rewrite existsb_app. apply orb_true_iff. left.
  apply existsb_exists.
  destruct ns as [|m ms]; [contradiction|]. cbn [offs_first].
  destruct Hn as [->|Hn].
  - exists (chord_off n t). split; [left; reflexivity|].
    cbn. rewrite !Z.eqb_refl. reflexivity.
  - exists (chord_off n 0). split; [right; apply (in_map (fun n' => chord_off n' 0)), Hn|].
    cbn. rewrite !Z.eqb_refl. reflexivity.
Qed.

Lemma offs_first_clean (ns : list Z) (t : Z) (rest : list event) :
  released_later rest = true -> released_later (offs_first ns t ++ rest) = true.
Proof.
  intros Hr. apply released_later_app; [|exact Hr].
  destruct ns as [|m ms]; cbn [offs_first]; [constructor|].
  constructor; [exact I|]. apply Forall_forall. intros e He.
  apply in_map_iff in He as [x [<- _]]. exact I.
Qed.

Lemma chord_pair_released (n v t d : Z) (rest : list event) :
  released_later rest = true ->
  released_later (chord_on n v t :: chord_off n d :: rest) = true.
Proof.
  intros Hr. cbn. rewrite !Z.eqb_refl. exact Hr.
Qed.

Lemma ons_first_shape (ns : list Z) (v t : Z) :
  Forall (fun e => exists n v t, e = chord_on n v t /\ In n ns) (ons_first ns v t).
Proof.
  destruct ns as [|m ms]; cbn [ons_first]; constructor.
  - exists m, v, t. split; [reflexivity | left; reflexivity].
  - apply Forall_forall. intros e He. apply in_map_iff in He as [x [<- Hx]].
    exists x, v, 0%Z. split; [reflexivity | right; exact Hx].
Qed.

Lemma stroke_ons_shape (ns : list Z) (v dt st : Z) :
  Forall (fun e => exists n v t, e = chord_on n v t /\ In n ns) (fst (stroke_ons ns v dt st)).
Proof.
  destruct ns as [|m ms]; cbn [stroke_ons fst]; constructor.
  - exists m, v, dt. split; [reflexivity | left; reflexivity].
  - apply Forall_forall. intros e He. apply in_map_iff in He as [x [<- Hx]].
    exists x, v, st. split; [reflexivity | right; exact Hx].
Qed.

Lemma ons_offs_released (ons : list event) (ns : list Z) (d : Z) (rest : list event) :
  Forall (fun e => exists n v t, e = chord_on n v t /\ In n ns) ons ->
  released_later rest = true ->
  released_later (ons ++ offs_first ns d ++ rest) = true.
Proof.
  intros Ho Hr. apply released_later_app.
  - apply (ons_released _ ns); [exact Ho|]. intros n Hn. apply offs_first_release, Hn.
  - apply offs_first_clean, Hr.
Qed.

Lemma arpeggio_loop_released (v : Z) (ns : list Z) :
  forall ct single tick, released_later (fst (arpeggio_loop v ns ct single tick)) = true.
Proof.
  induction ns as [|n ns IH]; intros ct single tick; [reflexivity|].
  cbn [arpeggio_loop]. specialize (IH 0%Z single (tick + single)%Z).
  destruct (arpeggio_loop v ns 0 single (tick + single)) as [evs t]. cbn [fst] in *.
  apply chord_pair_released, IH.
Qed.

Lemma rhythmic_loop_released (v : Z) (ns : list Z) (pat : list Z) :
  forall ct pu rem tick evs t,
  rhythmic_loop v ns pat ct pu rem tick = ROk (evs, t) -> released_later evs = true.
Proof.
  induction pat as [|idx pat IH]; intros ct pu rem tick evs t H;
    cbn [rhythmic_loop] in H.
  - inversion H; reflexivity.
  - res_inv H. destruct x0 as [evs' t']. inversion H; subst.
    apply chord_pair_released. apply (IH _ _ _ _ _ _ Hx0).
Qed.

Lemma adv_guitar_loop_released (v st : Z) (ns : list Z) (pat : list stroke) :
  forall i plen ut lut dt tick,
  released_later (fst (adv_guitar_loop v st ns pat i plen ut lut dt tick)) = true.
Proof.
  induction pat as [|[[dir ty] adj] pat IH]; intros i plen ut lut dt tick; [reflexivity|].
  cbn [adv_guitar_loop]. cbv zeta.
  match goal with |- context [stroke_ons ?nt ?vl ?d ?s] =>
    pose proof (stroke_ons_shape nt vl d s) as Hs; destruct (stroke_ons nt vl d s) as [ons used]
  end.
  match goal with |- context [adv_guitar_loop v st ns pat ?a ?b ?c ?d ?e ?f] =>
    specialize (IH a b c d e f); destruct (adv_guitar_loop v st ns pat a b c d e f) as [evs t]
  end.
  cbn [fst] in *. apply ons_offs_released; assumption.
Qed.

End ReleaseFacts.

(** Whatever the strategy, every [note_on] that [generate_events]
    appends is followed, later in what it appends, by a [note_off] of
    the same channel and note. *)
Theorem generate_events_releases_notes (p : ChordPattern) (chord_notes : list Z)
  (start_tick duration_ticks last_tick : Z) (evs : list event) (t : Z) :
  generate_events p chord_notes start_tick duration_ticks last_tick = ROk (evs, t) ->
  released_later evs = true.
Proof.
  intros H. destruct p as [v|v|v sd|v [num den]|v sd ts pat]; cbn [generate_events] in H.
  - injection H as H. apply (f_equal fst) in H. cbn [fst] in H. subst evs. unfold block_events.
    destruct chord_notes as [|n ns]; [reflexivity|]. cbv zeta. cbn [fst].
    rewrite <- (app_nil_r (offs_first _ _)).
    apply ReleaseFacts.ons_offs_released; [apply ReleaseFacts.ons_first_shape | reflexivity].
  - injection H as H. apply (f_equal fst) in H. cbn [fst] in H. subst evs. unfold arpeggio_events.
    destruct chord_notes as [|n ns]; [reflexivity|]. cbv zeta.
    apply ReleaseFacts.arpeggio_loop_released.
  - injection H as H. apply (f_equal fst) in H. cbn [fst] in H. subst evs. unfold guitar_strum_events.
    destruct chord_notes as [|n ns]; [reflexivity|]. cbv zeta. cbn [fst].
    rewrite <- (app_nil_r (offs_first _ _)).
    apply ReleaseFacts.ons_offs_released; [|reflexivity].
    destruct (sorted (n :: ns)) as [|m ms]; constructor.
    + exists m, v, (Z.max 0 (start_tick - last_tick)). split; [reflexivity | left; reflexivity].
    + apply Forall_forall. intros e He. apply in_map_iff in He as [x [<- Hx]].
      eexists x, v, _. split; [reflexivity | right; exact Hx].
  - unfold rhythmic_events in H.
    destruct chord_notes as [|n ns]; [inversion H; reflexivity|]. cbv zeta in H.
    apply (ReleaseFacts.rhythmic_loop_released _ _ _ _ _ _ _ _ _ H).
  - injection H as H. apply (f_equal fst) in H. cbn [fst] in H. subst evs. unfold adv_guitar_events.
    destruct chord_notes as [|n ns]; [reflexivity|]. cbv zeta.
    apply ReleaseFacts.adv_guitar_loop_released.
Qed.

Local Open Scope Z_scope.

Lemma generate_events_releases_notes_witness :
  generate_events (RhythmicArpeggioPattern 64 (3, 4)) [60; 64; 67] 0 1440 0
  = ROk ([chord_on 60 64 0; chord_off 60 240; chord_on 64 64 0; chord_off 64 240;
          chord_on 67 64 0; chord_off 67 240; chord_on 60 64 0; chord_off 60 240;
          chord_on 64 64 0; chord_off 64 240; chord_on 67 64 0; chord_off 67 240],
         1440)%Z /\
  released_later [chord_on 60 64 0; chord_off 60 240; chord_on 64 64 0; chord_off 64 240;
          chord_on 67 64 0; chord_off 67 240; chord_on 60 64 0; chord_off 60 240;
          chord_on 64 64 0; chord_off 64 240; chord_on 67 64 0; chord_off 67 240] = true.
Proof.
  assert (H : generate_events (RhythmicArpeggioPattern 64 (3, 4)) [60; 64; 67] 0 1440 0
    = ROk ([chord_on 60 64 0; chord_off 60 240; chord_on 64 64 0; chord_off 64 240;
            chord_on 67 64 0; chord_off 67 240; chord_on 60 64 0; chord_off 60 240;
            chord_on 64 64 0; chord_off 64 240; chord_on 67 64 0; chord_off 67 240],
           1440)%Z) by (vm_compute; reflexivity).
  split; [exact H|]. exact (generate_events_releases_notes _ _ _ _ _ _ _ H).
Defined.

(** *** reutils.py: [_NOTE_RE] reads back the groups of a note token *)

Module NoteRT.

Lemma in_chars_disjoint (cs ds : string) (c : ascii) :
  forallb (fun d => negb (Re.in_chars ds d)) (list_ascii_of_string cs) = true ->
  Re.in_chars cs c = true -> Re.in_chars ds c = false.
Proof.
  intros Hall Hc. unfold Re.in_chars in Hc.
  apply existsb_exists in Hc as [x [Hx Hcx]].
  apply Ascii.eqb_eq in Hcx. subst x.
  rewrite forallb_forall in Hall. apply negb_true_iff, Hall, Hx.
Qed.

Lemma in_chars_sub (cs ds : string) (c : ascii) :
  forallb (Re.in_chars ds) (list_ascii_of_string cs) = true ->
  Re.in_chars cs c = true -> Re.in_chars ds c = true.
Proof.
  intros Hall Hc. unfold Re.in_chars in Hc.
  apply existsb_exists in Hc as [x [Hx Hcx]].
  apply Ascii.eqb_eq in Hcx. subst x.
  rewrite forallb_forall in Hall. apply Hall, Hx.
Qed.

Lemma span_app (p : ascii -> bool) (cs a b : string) :
  all_chars p a = true -> head_in cs b = true ->
  (forall c, Re.in_chars cs c = true -> p c = false) ->
  Re.span p (a ++ b) = (a, b).
Proof.
  intros Ha Hb Hp. induction a as [|c a IH].
  - destruct b as [|c b]; [reflexivity|]. cbn [append Re.span].
    rewrite (Hp c Hb). reflexivity.
  - cbn [all_chars] in Ha. apply andb_true_iff in Ha as [Hc Ha].
    cbn [append Re.span]. rewrite Hc, IH by exact Ha. reflexivity.
Qed.

Lemma head_in_dots_tie (dots tie : string) :
  all_chars (Ascii.eqb "."%char) dots = true -> In tie [""; "^"] ->
  head_in ".^" (dots ++ tie) = true.
Proof.
  intros Hd Ht. destruct dots as [|c dots].
  - destruct Ht as [<-|[<-|[]]]; reflexivity.
  - cbn [all_chars] in Hd. apply andb_true_iff in Hd as [Hc _].
    apply Ascii.eqb_eq in Hc. subst c. reflexivity.
Qed.

Lemma head_in_dur (dur y : string) :
  (In dur [""; "w"; "h"; "q"; "e"; "s"; "t"] \/
   exists ds, dur = String "/" ds /\ ds <> "" /\ all_chars Re.is_digit ds = true) ->
  head_in ".^" y = true -> head_in "whqest/.^" (dur ++ y) = true.
Proof.
  intros [Hd|[ds [-> _]]] Hy; [|reflexivity].
  repeat destruct Hd as [<-|Hd]; try reflexivity; [|contradiction].
  cbn [append]. destruct y as [|c y]; [reflexivity|].
  cbn [head_in] in *. revert Hy. apply in_chars_sub. reflexivity.
Qed.

Lemma head_in_oct (oct y : string) :
  all_chars (Re.in_chars "',") oct = true -> head_in "whqest/.^" y = true ->
  head_in "',whqest/.^" (oct ++ y) = true.
Proof.
  intros Ho Hy. destruct oct as [|c oct].
  - destruct y as [|c y]; [reflexivity|]. cbn [head_in append] in *.
    revert Hy. apply in_chars_sub. reflexivity.
  - cbn [all_chars] in Ho. apply andb_true_iff in Ho as [Hc _].
    cbn [head_in append]. revert Hc. apply in_chars_sub. reflexivity.
Qed.

Lemma dur_group_app (dur y : string) :
  (In dur [""; "w"; "h"; "q"; "e"; "s"; "t"] \/
   exists ds, dur = String "/" ds /\ ds <> "" /\ all_chars Re.is_digit ds = true) ->
  head_in ".^" y = true -> Re.dur_group (dur ++ y) = (dur, y).
Proof.
  intros [Hd|[ds [-> [Hne Hds]]]] Hy.
  - repeat destruct Hd as [<-|Hd]; try reflexivity; [|contradiction].
    cbn [append]. destruct y as [|c y]; [reflexivity|].
    cbn [head_in] in Hy. unfold Re.in_chars in Hy.
    apply existsb_exists in Hy as [x [Hx Hcx]]. apply Ascii.eqb_eq in Hcx. subst c.
    cbn in Hx. destruct Hx as [<-|[<-|[]]]; reflexivity.
  - cbn [append Re.dur_group].
    change (Re.in_chars "whqest" "/") with false. change (Ascii.eqb "/" "/") with true.
    cbv iota.
    rewrite (span_app Re.is_digit ".^" ds y Hds Hy).
    + destruct ds; [contradiction|reflexivity].
    + intros c Hc. unfold Re.in_chars in Hc.
      apply existsb_exists in Hc as [x [Hx Hcx]]. apply Ascii.eqb_eq in Hcx. subst c.
      cbn in Hx. destruct Hx as [<-|[<-|[]]]; reflexivity.
Qed.

Lemma digit_of_deg (d : Z) :
  (1 <= d <= 7)%Z -> Py.digit (ascii_of_nat (48 + Z.to_nat d)) = Some d.
Proof.
  intros Hd.
  assert (d = 1 \/ d = 2 \/ d = 3 \/ d = 4 \/ d = 5 \/ d = 6 \/ d = 7)%Z as Hc by lia.
  repeat destruct Hc as [->|Hc]; try reflexivity. subst d. reflexivity.
Qed.

End NoteRT.

(** For every group values [_NOTE_RE] can capture (a degree 1 to 7, an
    optional [#] or [b], octave marks, an optional duration code or
    [/] and digits, dots, an optional tie), the token spelled by their
    concatenation matches [_NOTE_RE] with exactly these groups. *)
Theorem note_match_render (g : Re.note_groups) :
  note_groups_wf g -> Re.note_match (render_note g) = Some g.
Proof.
  intros [Hd [Ha [Ho [Hdur [Hdots Ht]]]]].
  destruct g as [deg acc oct dur dots tie]; cbn [Re.g_deg Re.g_acc Re.g_oct Re.g_dur
    Re.g_dots Re.g_tie] in *.
  pose proof (NoteRT.head_in_dots_tie dots tie Hdots Ht) as H1.
  pose proof (NoteRT.head_in_dur dur _ Hdur H1) as H2.
  pose proof (NoteRT.head_in_oct oct _ Ho H2) as H3.
  unfold render_note. cbn [Re.g_deg Re.g_acc Re.g_oct Re.g_dur Re.g_dots Re.g_tie].
  unfold Re.note_match. rewrite (NoteRT.digit_of_deg deg Hd).
  replace ((1 <=? deg) && (deg <=? 7))%Z with true
    by (symmetry; apply andb_true_iff; split; apply Z.leb_le; lia).
  assert (Hacc : (match acc ++ oct ++ dur ++ dots ++ tie with
                  | String a s1' => if Re.in_chars "#b" a then (String a EmptyString, s1')
                                    else (EmptyString, acc ++ oct ++ dur ++ dots ++ tie)
                  | EmptyString => (EmptyString, EmptyString)
                  end) = (acc, oct ++ dur ++ dots ++ tie)).
  { destruct Ha as [<-|[<-|[<-|[]]]]; [|reflexivity|reflexivity].
    cbn [append]. destruct (oct ++ dur ++ dots ++ tie) as [|c s] eqn:E; [reflexivity|].
    cbn [head_in] in H3.
    rewrite (NoteRT.in_chars_disjoint "',whqest/.^" "#b" c) by (reflexivity || exact H3).
    reflexivity. }
  rewrite Hacc.
  rewrite (NoteRT.span_app _ "whqest/.^" oct _ Ho H2)
    by (intros c Hc; apply (NoteRT.in_chars_disjoint "whqest/.^" "',"); [reflexivity | exact Hc]).
  rewrite (NoteRT.dur_group_app dur _ Hdur H1).
  rewrite (NoteRT.span_app _ "^" dots tie Hdots)
    by (first [ destruct Ht as [<-|[<-|[]]]; reflexivity
              | intros c Hc; unfold Re.in_chars in Hc;
                apply existsb_exists in Hc as [x [Hx Hcx]]; apply Ascii.eqb_eq in Hcx;
                subst c; cbn in Hx; destruct Hx as [<-|[]]; reflexivity ]).
  destruct Ht as [<-|[<-|[]]]; reflexivity.
Qed.

Lemma note_match_render_witness :
  note_groups_wf {| Re.g_deg := 5; Re.g_acc := "b"; Re.g_oct := "''";
                    Re.g_dur := "/16"; Re.g_dots := ".."; Re.g_tie := "^" |} /\
  render_note {| Re.g_deg := 5; Re.g_acc := "b"; Re.g_oct := "''";
                 Re.g_dur := "/16"; Re.g_dots := ".."; Re.g_tie := "^" |} = "5b''/16..^" /\
  Re.note_match "5b''/16..^"
  = Some {| Re.g_deg := 5; Re.g_acc := "b"; Re.g_oct := "''";
            Re.g_dur := "/16"; Re.g_dots := ".."; Re.g_tie := "^" |}.
Proof.
  assert (Hwf : note_groups_wf {| Re.g_deg := 5; Re.g_acc := "b"; Re.g_oct := "''";
                                  Re.g_dur := "/16"; Re.g_dots := ".."; Re.g_tie := "^" |}).
  { unfold note_groups_wf; cbn [Re.g_deg Re.g_acc Re.g_oct Re.g_dur Re.g_dots Re.g_tie].
    split; [lia|]. split; [right; right; left; reflexivity|]. split; [reflexivity|].
    split; [right; exists "16"; split; [reflexivity | split; [discriminate | reflexivity]]|].
    split; [reflexivity | right; left; reflexivity]. }
  split; [exact Hwf|]. split; [reflexivity|].
  exact (note_match_render _ Hwf).
Defined.

(** *** main.py: the options of [main] *)

Module CliFacts.

Definition vel_ok (v : Z * Z) : Prop :=
  (0 <= fst v <= 127)%Z /\ (0 <= snd v <= 127)%Z.

Lemma metro_arg_vel_ok (arg : string) (v : Z * Z) : metro_arg_vel arg = ROk v -> vel_ok v.
Proof.
  unfold metro_arg_vel. intros H.
  destruct (Py.split_once arg _) as [|x [|y [|z l]]]; try discriminate.
  destruct (Py.split_sep y _) as [|a [|r [|z l]]]; try discriminate.
  res_inv H. inversion H; subst. unfold vel_ok, clamp_vel; cbn [fst snd]; lia.
Qed.

Lemma main_args_vel_ok (n : nat) :
  forall args c, (length args <= n)%nat ->
  vel_ok (cli_metro_vel c) -> vel_ok (cli_metro_vel (main_args args c)).
Proof.
  induction n as [|n IH]; intros args c Hl Hc;
    (destruct args as [|arg rest]; [exact Hc|]); cbn [length] in Hl; [lia|].
  cbn [main_args].
  repeat match goal with
  | |- context [if ?b then _ else _] => destruct b
  | |- context [match metro_arg_vel arg with _ => _ end] =>
      destruct (metro_arg_vel arg) as [v|e] eqn:Ev
  | |- context [match Py.int_of_string ?x with _ => _ end] => destruct (Py.int_of_string x)
  | |- context [match rest with [] => _ | _ :: _ => _ end] =>
      destruct rest as [|nxt rest']
  end;
  (apply IH; [cbn [length] in Hl |- *; lia|]);
  first [exact Hc | cbn [set_metro cli_metro_vel]; first [exact Hc | apply (metro_arg_vel_ok arg); exact Ev]].
Qed.

Lemma all_chars_lstrip (p : ascii -> bool) (x : string) :
  all_chars p x = true -> all_chars p (Py.lstrip x) = true.
Proof.
  induction x as [|c x IH]; intros H; [reflexivity|].
  cbn [Py.lstrip]. destruct (Py.is_space c); [|exact H].
  apply IH. cbn [all_chars] in H. apply andb_true_iff in H. apply H.
Qed.

Lemma all_chars_rstrip (p : ascii -> bool) (x : string) :
  all_chars p x = true -> all_chars p (Py.rstrip x) = true.
Proof.
  induction x as [|c x IH]; intros H; [reflexivity|].
  cbn [all_chars] in H. apply andb_true_iff in H as [Hc Hx].
  cbn [Py.rstrip]. destruct (_ && _); [reflexivity|].
  cbn [all_chars]. rewrite Hc, (IH Hx). reflexivity.
Qed.

Lemma int_of_string_no_digit (x : string) :
  all_chars (fun c => negb (Re.is_digit c)) x = true -> exists e, Py.int_of_string x = RErr e.
Proof.
  intros H. unfold Py.strip, Py.int_of_string.
  pose proof (all_chars_rstrip _ _ (all_chars_lstrip _ _ H)) as Hs.
  unfold Py.strip. destruct (Py.rstrip (Py.lstrip x)) as [|c s'];
    [eexists; reflexivity|].
  cbn [all_chars] in Hs. apply andb_true_iff in Hs as [Hc Hs'].
  exists ValueError.
  destruct (Ascii.eqb c "-"%char); [|destruct (Ascii.eqb c "+"%char)];
    cbv iota beta.
  - destruct s' as [|d b]; [reflexivity|]. cbn [all_chars] in Hs'.
    apply andb_true_iff in Hs' as [Hd _]. cbn [Py.digits_value].
    unfold Re.is_digit in Hd. destruct (Py.digit d); [discriminate|reflexivity].
  - destruct s' as [|d b]; [reflexivity|]. cbn [all_chars] in Hs'.
    apply andb_true_iff in Hs' as [Hd _]. cbn [Py.digits_value].
    unfold Re.is_digit in Hd. destruct (Py.digit d); [discriminate|reflexivity].
  - cbn [Py.digits_value]. unfold Re.is_digit in Hc.
    destruct (Py.digit c); [discriminate|reflexivity].
Qed.

End CliFacts.

(** Whatever the command line, the metronome velocities [main] passes
    to [build_midi] are in the MIDI range 0..127: the defaults (90, 60)
    are, and a [--metro=A,R] option is clamped. *)
Theorem main_metro_vel_in_range (args : list string) :
  (0 <= fst (cli_metro_vel (main_args args cli_defaults)) <= 127)%Z /\
  (0 <= snd (cli_metro_vel (main_args args cli_defaults)) <= 127)%Z.
Proof.
  apply (CliFacts.main_args_vel_ok (length args)); [lia|].
  unfold CliFacts.vel_ok. cbn. lia.
Qed.

(** When the value after [-f] or [-t] has no digit, [int] rejects it,
    the option is skipped and that value is read as an argument of its
    own, so it becomes the output path when none has been given yet. *)
Theorem main_measure_option_not_number (opt x : string) (rest : list string) (c : cli) :
  In opt ["-f"; "-t"] -> all_chars (fun ch => negb (Re.is_digit ch)) x = true ->
  main_args (opt :: x :: rest) c = main_args (x :: rest) c.
Proof.
  intros Hopt Hx. destruct (CliFacts.int_of_string_no_digit x Hx) as [e He].
  destruct Hopt as [<-|[<-|[]]]; cbn [main_args]; cbn -[main_args]; rewrite He; reflexivity.
Qed.

Lemma main_measure_option_not_number_witness :
  main_args ["-f"; "abc"] cli_defaults = set_out cli_defaults "abc" /\
  main_args ["-f"; "abc"] cli_defaults = main_args ["abc"] cli_defaults.
Proof.
  split; [reflexivity|].
  apply main_measure_option_not_number; [left; reflexivity | reflexivity].
Defined.
